(** * Visual Inspector: CSS change application and session coordination

    A shallow embedding of [css-editor.ts] (selector normalisation, the
    structured mutation engine, the regex fallback, the application engine,
    the style reader), of the session state of [websocket.ts] and of the
    tools of [mcp-server.ts], followed by the properties of the
    specification proved about them (Part II) and by further properties of
    the code (Part III).

    Conventions.
    - A JavaScript string is a list of UTF-16 code units, each an [N].
    - A regular expression literal of the source is translated by hand to a
      matcher: a function that, given the text at the current position,
      returns the text after the match and the capture groups.
    - [String.prototype.replace] with a global regex, and a loop on
      [RegExp.prototype.exec], are a left-to-right scan that cuts the subject
      into kept characters and hits.
    - An exception is a value [Throw e] of the result type; [try]/[catch] is
      [catch].  File operations thread a [world]: the files and the record
      of the [writeFileSync] calls that wrote.  The file system maps paths
      to entries: text files that can be written or only read, files that
      cannot be read, and directories; [existsSync] is true of them all.
    - css-tree, [node:path] and the parts of the regex engine that depend on
      run-time text (Unicode case folding, a pattern assembled from an
      unescaped string) are interfaces: the development holds for every
      implementation of them. *)

From Stdlib Require Import NArith ZArith Ascii String List Lia Bool.
From stdpp Require Import base option list gmap.

Local Open Scope N_scope.
Local Open Scope list_scope.

(** * Part I: the program *)

(** ** JavaScript strings *)

Abbreviation jsstring := (list N).

Definition js (s : string) : jsstring := map N_of_ascii (list_ascii_of_string s).

(** The class [\s] of ECMAScript (WhiteSpace and LineTerminator), which is
    also the set removed by [trim] and [trimEnd]. *)
Definition isSpace (c : N) : bool :=
  ((9 <=? c) && (c <=? 13)) || (c =? 32) || (c =? 160) || (c =? 5760)
  || ((8192 <=? c) && (c <=? 8202)) || (c =? 8232) || (c =? 8233)
  || (c =? 8239) || (c =? 8287) || (c =? 12288) || (c =? 65279).

Fixpoint skipSpaces (s : jsstring) : jsstring :=
  match s with
  | c :: t => if isSpace c then skipSpaces t else s
  | [] => []
  end.

Definition trimStart (s : jsstring) : jsstring := skipSpaces s.

Fixpoint trimEnd (s : jsstring) : jsstring :=
  match s with
  | [] => []
  | c :: t =>
      match trimEnd t with
      | [] => if isSpace c then [] else [c]
      | t' => c :: t'
      end
  end.

Definition trim (s : jsstring) : jsstring := trimEnd (trimStart s).

(** [s.startsWith(p)], and the rest of [s] after [p]; characters are compared
    with [eqc]. *)
Fixpoint stripPrefixBy (eqc : N -> N -> bool) (p s : jsstring) : option jsstring :=
  match p, s with
  | [], _ => Some s
  | a :: p', b :: s' => if eqc a b then stripPrefixBy eqc p' s' else None
  | _ :: _, [] => None
  end.

Definition startsWith (s p : jsstring) : bool :=
  match stripPrefixBy N.eqb p s with Some _ => true | None => false end.

(** The first occurrence of [pat] in [s]: the text before it and the text
    after it ([pre] is the text already passed). *)
Fixpoint findSubBy (eqc : N -> N -> bool) (pat pre s : jsstring) : option (jsstring * jsstring) :=
  match stripPrefixBy eqc pat s with
  | Some rest => Some (pre, rest)
  | None =>
      match s with
      | [] => None
      | c :: t => findSubBy eqc pat (pre ++ [c]) t
      end
  end.

Definition findSub (pat s : jsstring) : option (jsstring * jsstring) :=
  findSubBy N.eqb pat [] s.

Definition includes (s pat : jsstring) : bool :=
  match findSub pat s with Some _ => true | None => false end.

(** The longest prefix of characters of a class, and what follows it. *)
Fixpoint spanClass (cls : N -> bool) (s : jsstring) : jsstring * jsstring :=
  match s with
  | c :: t => if cls c then let '(a, b) := spanClass cls t in (c :: a, b) else ([], s)
  | [] => ([], [])
  end.

(** ** Replacement texts

    [GetSubstitution] for a match without capture groups: [$$] is a dollar,
    [$&] the matched text, [$`] the text before the match, [$'] the text
    after it; every other character, and a dollar followed by anything
    else, stands for itself. *)
Fixpoint getSubstitution (matched before after repl : jsstring) : jsstring :=
  match repl with
  | [] => []
  | c :: r =>
      if c =? 36 then
        match r with
        | d :: r' =>
            if d =? 36 then 36 :: getSubstitution matched before after r'
            else if d =? 38 then matched ++ getSubstitution matched before after r'
            else if d =? 96 then before ++ getSubstitution matched before after r'
            else if d =? 39 then after ++ getSubstitution matched before after r'
            else 36 :: getSubstitution matched before after r
        | [] => [36]
        end
      else c :: getSubstitution matched before after r
  end.

(** [s.replace(pat, repl)] for a string pattern: only the first occurrence
    is replaced, and [repl] is a replacement text. *)
Definition replaceFirst (pat repl s : jsstring) : jsstring :=
  match findSub pat s with
  | Some (before, after) => before ++ getSubstitution pat before after repl ++ after
  | None => s
  end.

(** ** Global regular expressions *)

(** A regex anchored at the head of the text: on success, the capture groups
    and the text after the match. *)
Definition matcher := jsstring -> option (list jsstring * jsstring).

(** A hit records the matched text, the groups, and the subject before and
    after the match. *)
Inductive piece :=
| Keep (c : N)
| Hit (whole : jsstring) (groups : list jsstring) (before after : jsstring).

(** The text a match consumed: the subject without what is left. *)
Definition consumed (s rest : jsstring) : jsstring := take (length s - length rest)%nat s.

(** The scan of a global regex over [s], where [pre] is the part of the
    subject already passed: try the regex at the current position; on a
    match continue after it, otherwise keep one character and move on.  No
    regex of the source matches the empty string, so each match makes
    progress and the length of the text is enough fuel. *)
Fixpoint scanFuel (fuel : nat) (m : matcher) (pre s : jsstring) : list piece :=
  match fuel, s with
  | S k, c :: t =>
      match m s with
      | Some (g, rest) =>
          Hit (consumed s rest) g pre rest :: scanFuel k m (pre ++ consumed s rest) rest
      | None => Keep c :: scanFuel k m (pre ++ [c]) t
      end
  | _, _ => []
  end.

Definition scan (m : matcher) (s : jsstring) : list piece :=
  scanFuel (length s) m [] s.

(** What a replacement text puts in place of a piece. *)
Definition substPiece (repl : jsstring) (p : piece) : jsstring :=
  match p with
  | Hit w _ before after => getSubstitution w before after repl
  | Keep c => [c]
  end.

(** [s.replace(re, repl)] for a global regex without groups and a
    replacement text. *)
Definition replaceAll (m : matcher) (repl : jsstring) (s : jsstring) : jsstring :=
  concat (map (substPiece repl) (scan m s)).

(** [re.test(s)] for a fresh global regex: is there a match anywhere. *)
Definition regexTest (m : matcher) (s : jsstring) : bool :=
  existsb (fun p => match p with Hit _ _ _ _ => true | Keep _ => false end) (scan m s).

(** ** Selector normalisation ([normalizeSelector]) *)

(** [/\s+/]: a non-empty maximal run of white space. *)
Definition reSpaces : matcher := fun s =>
  match s with
  | c :: t => if isSpace c then Some ([], skipSpaces t) else None
  | [] => None
  end.

(** [/\s*X\s*/] for a character [X] that is not white space: the greedy
    [\s*] takes the whole run, and giving characters back can never put [X]
    next, so there is a match exactly when [X] follows the run. *)
Definition reAround (x : N) : matcher := fun s =>
  match skipSpaces s with
  | c :: t => if c =? x then Some ([], skipSpaces t) else None
  | [] => None
  end.

Definition SP : N := 32.
Definition GT : N := 62.
Definition COMMA : N := 44.

Definition normalizeSelector (selector : jsstring) : jsstring :=
  replaceAll (reAround COMMA) [COMMA; SP]
    (replaceAll (reAround GT) [SP; GT; SP]
       (replaceAll reSpaces [SP]
          (trim selector))).

(** ** Exceptions *)

Inductive exn :=
| SyntaxError               (* thrown by a parser of css-tree or by [new RegExp] *)
| ENOENT (path : jsstring)  (* [fs]: no such file or directory *)
| EISDIR (path : jsstring)  (* [fs]: the path is a directory *)
| EACCES (path : jsstring). (* [fs]: permission denied *)

Inductive Exc (A : Type) : Type :=
| Ret (a : A)
| Throw (e : exn).
Arguments Ret {A} a.
Arguments Throw {A} e.

#[global] Instance Exc_ret : MRet Exc := fun A a => Ret a.
#[global] Instance Exc_bind : MBind Exc := fun A B f m =>
  match m with
  | Ret a => f a
  | Throw e => Throw e
  end.

(** [try { m } catch (e) { h e }] *)
Definition catch {A} (m : Exc A) (h : exn -> Exc A) : Exc A :=
  match m with
  | Ret a => Ret a
  | Throw e => h e
  end.

(** ** The regex engine on run-time text *)

(** What is taken from the ECMAScript engine rather than translated by hand:
    - [toUpperUnit c]: the upper case of the one-unit string [c] when it is
      again one code unit, and [c] otherwise (used by the [i] flag);
    - the regex built from a pattern that contains syntax characters which
      the source did not escape: [dynCompile] is [new RegExp(src, 'gi')]
      (it throws on a malformed pattern), [dynTest] is [test] on a fresh
      regex and [dynReplace] is [replace]. *)
Class RegExpEngine := {
  toUpperUnit : N -> N;
  DynRegex : Type;
  dynCompile : jsstring -> Exc DynRegex;
  dynTest : DynRegex -> jsstring -> bool;
  dynReplace : DynRegex -> jsstring -> jsstring -> jsstring
}.

Definition asciiUpper (c : N) : N :=
  if (97 <=? c) && (c <=? 122) then c - 32 else c.

(** [Canonicalize] of a regex with the [i] flag and without the [u] flag.
    A character above ASCII never folds to an ASCII one, so the classes of
    the source that exclude a punctuation character ([[^>]], [[^}]], [[^;]],
    the quotes) are the same with and without the flag; [\s] is taken to be
    the same too, no letter having a white-space character as upper case. *)
Definition canonicalize `{RegExpEngine} (c : N) : N :=
  if c <? 128 then asciiUpper c
  else let u := toUpperUnit c in if u <? 128 then c else u.

Definition eqCI `{RegExpEngine} (a b : N) : bool := canonicalize a =? canonicalize b.

(** The syntax characters of a pattern; a pattern free of them matches
    itself. *)
Definition isSyntaxChar (c : N) : bool :=
  existsb (N.eqb c) [94; 36; 92; 46; 42; 43; 63; 40; 41; 91; 93; 123; 125; 124].

Definition plainPattern (p : jsstring) : bool := forallb (fun c => negb (isSyntaxChar c)) p.

(** ** css-tree *)

Inductive importance :=
| NotImportant
| Important
| ImportantText (s : jsstring).

(** The nodes of a style sheet that the walks of the source tell apart: a
    rule and its block, an at-rule and its optional block, a declaration,
    and anything else.  [P] is the type of preludes and [V] of values. *)
#[warnings="-register-all"] Inductive node (P V : Type) : Type :=
| Rule (prelude : P) (block : list (node P V))
| Atrule (name : jsstring) (prelude : option P) (block : option (list (node P V)))
| Declaration (important : importance) (property : jsstring) (value : V)
| Raw (text : jsstring).
Arguments Rule {P V} prelude block.
Arguments Atrule {P V} name prelude block.
Arguments Declaration {P V} important property value.
Arguments Raw {P V} text.

(** The functions of css-tree the source calls.  [parse] is
    [csstree.parse(css)] and [parseValue] is
    [csstree.parse(text, {context: 'value'})]; both may throw. *)
Class CssTree := {
  Prelude : Type;
  Value : Type;
  parse : jsstring -> Exc (list (node Prelude Value));
  parseValue : jsstring -> Exc Value;
  generate : list (node Prelude Value) -> jsstring;
  generatePrelude : Prelude -> jsstring;
  generateValue : Value -> jsstring
}.

Abbreviation cssnode := (node Prelude Value).

(** ** The records of [css-editor.ts] *)

Record CssChange := {
  selector : jsstring;
  property : jsstring;
  value : jsstring
}.

Record ApplyResult := {
  success : bool;
  message : jsstring;
  modifiedFile : option jsstring
}.

(** The result [{ modified, content }] of the mutation functions. *)
Record Mutation := {
  modified : bool;
  content : jsstring
}.

(** ** The fallback text patcher ([applyWithRegex]) *)

Section Fallback.
Context `{RegExpEngine}.

(** The selector regex, with flags [gi]: a group made of [SEL], [\s*], an
    escaped opening brace and [[^}]*], followed by an escaped closing brace,
    where [SEL] is the selector with every syntax character escaped.  It
    matches the selector itself up to case, white space, an opening brace,
    the characters up to the first closing brace, and that brace.  Group 1
    is the match without the closing brace. *)
Definition reSelectorBlock (sel : jsstring) : matcher := fun s =>
  match stripPrefixBy eqCI sel s with
  | Some r1 =>
      match skipSpaces r1 with
      | c :: r2 =>
          if c =? 123 then
            match (spanClass (fun d => negb (d =? 125)) r2).2 with
            | d :: r4 => if d =? 125 then Some ([consumed s (d :: r4)], r4) else None
            | [] => None
            end
          else None
      | [] => None
      end
  | None => None
  end.

(** The property regex [PROP\s*:[^;]+;?] with flags [gi], for a property
    free of syntax characters: the property up to case, white space, a
    colon, one or more characters other than a semicolon, and a semicolon
    when one follows. *)
Definition rePropertyDecl (prop : jsstring) : matcher := fun s =>
  match stripPrefixBy eqCI prop s with
  | Some r1 =>
      match skipSpaces r1 with
      | c :: r2 =>
          if c =? 58 then
            match spanClass (fun d => negb (d =? 59)) r2 with
            | (_ :: _, _ :: r4) => Some ([], r4)
            | (_ :: _, []) => Some ([], [])
            | ([], _) => None
            end
          else None
      | [] => None
      end
  | None => None
  end.

(** [`${change.property}: ${change.value};`] *)
Definition declarationText (change : CssChange) : jsstring :=
  property change ++ js ": " ++ value change ++ js ";".

(** The body of the callback of [css.replace(selectorRegex, ...)]: [before]
    is group 1. *)
Definition patchBlock (change : CssChange) (before : jsstring) : Exc jsstring :=
  if plainPattern (property change) then
    if regexTest (rePropertyDecl (property change)) before
    then Ret (replaceAll (rePropertyDecl (property change)) (declarationText change) before
                ++ js "}")
    else Ret (trimEnd before ++ [10] ++ js "  " ++ declarationText change ++ [10] ++ js "}")
  else
    propertyRegex ← dynCompile (property change ++ js "\s*:[^;]+;?");
    if dynTest propertyRegex before
    then Ret (dynReplace propertyRegex before (declarationText change) ++ js "}")
    else Ret (trimEnd before ++ [10] ++ js "  " ++ declarationText change ++ [10] ++ js "}").

Definition patchPiece (change : CssChange) (p : piece) : Exc jsstring :=
  match p with
  | Keep c => Ret [c]
  | Hit _ groups _ _ => patchBlock change (default [] (head groups))
  end.

Definition isHit (p : piece) : bool :=
  match p with Hit _ _ _ _ => true | Keep _ => false end.

Definition applyWithRegex (css : jsstring) (change : CssChange) : Exc Mutation :=
  let pieces := scan (reSelectorBlock (selector change)) css in
  texts ← mapM (patchPiece change) pieces;
  Ret {| modified := existsb isHit pieces; content := concat texts |}.

End Fallback.

(** ** The structured mutation engine ([modifyCssContent]) *)

Section WalkList.
Context {A : Type}.
Variable f : A -> Exc (A * bool).

(** Visiting the children of a list in order; the flag tells whether some
    visit changed anything. *)
Fixpoint walkList (l : list A) : Exc (list A * bool) :=
  match l with
  | [] => Ret ([], false)
  | x :: t =>
      '(x', m1) ← f x;
      '(t', m2) ← walkList t;
      Ret (x' :: t', m1 || m2)
  end.

End WalkList.

(** [normalizeSelector(a) === normalizeSelector(b)] *)
Definition selectorEq (a b : jsstring) : bool :=
  bool_decide (normalizeSelector a = normalizeSelector b).

Section Mutation.
Context `{CssTree} `{RegExpEngine}.
Variable change : CssChange.

(** [csstree.walk(block, { visit: 'Declaration', enter })] of the source:
    every declaration below the block, also inside nested rules and
    at-rules, in document order.  A declaration of the property gets the
    freshly parsed value; the flag is [propertyFound]. *)
Fixpoint visitDeclaration (n : cssnode) : Exc (cssnode * bool) :=
  match n with
  | Declaration imp p v =>
      if bool_decide (p = property change) then
        v' ← parseValue (value change);
        Ret (Declaration imp p v', true)
      else Ret (n, false)
  | Rule pre blk =>
      '(blk', found) ← walkList visitDeclaration blk;
      Ret (Rule pre blk', found)
  | Atrule nm pre (Some blk) =>
      '(blk', found) ← walkList visitDeclaration blk;
      Ret (Atrule nm pre (Some blk'), found)
  | Atrule _ _ None => Ret (n, false)
  | Raw _ => Ret (n, false)
  end.

Definition selectorMatches (pre : Prelude) : bool :=
  selectorEq (generatePrelude pre) (selector change).

(** The [enter] callback of the walk over rules, on the block of the rule:
    the block as the callback leaves it and whether it set [modified]. *)
Definition enterRule (pre : Prelude) (blk : list cssnode) : Exc (list cssnode * bool) :=
  if selectorMatches pre then
    '(blk', propertyFound) ← walkList visitDeclaration blk;
    if (propertyFound : bool) then Ret (blk', true)
    else
      v ← parseValue (value change);
      Ret (blk' ++ [Declaration NotImportant (property change) v], true)
  else Ret (blk, false).

(** How deep rules and at-rules nest. *)
Fixpoint depth (n : cssnode) : nat :=
  match n with
  | Rule _ blk => S (list_max (map depth blk))
  | Atrule _ _ (Some blk) => S (list_max (map depth blk))
  | _ => 0%nat
  end.

(** [csstree.walk(ast, { visit: 'Rule', enter })]: rules in document order,
    a rule before the rules nested in it.  The callback mutates the block
    before the walk goes down into it, so the walk continues in the block
    as the callback left it; the recursion is on the nesting depth, which
    the callback does not change. *)
Fixpoint visitRule (fuel : nat) (n : cssnode) : Exc (cssnode * bool) :=
  match n with
  | Rule pre blk =>
      '(blk1, m1) ← enterRule pre blk;
      match fuel with
      | S k =>
          '(blk2, m2) ← walkList (visitRule k) blk1;
          Ret (Rule pre blk2, m1 || m2)
      | O => Ret (Rule pre blk1, m1)
      end
  | Atrule nm pre (Some blk) =>
      match fuel with
      | S k =>
          '(blk2, m2) ← walkList (visitRule k) blk;
          Ret (Atrule nm pre (Some blk2), m2)
      | O => Ret (n, false)
      end
  | Atrule _ _ None => Ret (n, false)
  | Declaration _ _ _ => Ret (n, false)
  | Raw _ => Ret (n, false)
  end.

Definition walkRules (ast : list cssnode) : Exc (list cssnode * bool) :=
  walkList (visitRule (list_max (map depth ast))) ast.

Definition modifyCssContent (css : jsstring) : Exc Mutation :=
  catch
    (ast ← parse css;
     '(ast', wasModified) ← walkRules ast;
     if (wasModified : bool) then Ret {| modified := true; content := generate ast' |}
     else Ret {| modified := false; content := css |})
    (fun _ => applyWithRegex css change).

End Mutation.

(** ** The file system and [node:path] *)

(** [resolve1 p] is [path.resolve(p)] and [resolve2 b p] is
    [path.resolve(b, p)]. *)
Class NodePath := {
  resolve1 : jsstring -> jsstring;
  resolve2 : jsstring -> jsstring -> jsstring;
  dirname : jsstring -> jsstring;
  basename : jsstring -> jsstring
}.

(** What a path of the file system holds: a text file that can be read and
    written, a text file that can be read only, a file that cannot be read,
    or a directory. *)
Inductive entry :=
| File (text : jsstring)
| ReadOnly (text : jsstring)
| NoAccess
| Directory.

(** The entries, by absolute path, and the calls of [writeFileSync] that
    wrote, oldest first. *)
Record world := {
  files : gmap jsstring entry;
  writes : list (jsstring * jsstring)
}.

Definition IO (A : Type) : Type := world -> Exc A * world.

#[global] Instance IO_ret : MRet IO := fun A a w => (Ret a, w).
#[global] Instance IO_bind : MBind IO := fun A B f m w =>
  match m w with
  | (Ret a, w') => f a w'
  | (Throw e, w') => (Throw e, w')
  end.

Definition liftExc {A} (m : Exc A) : IO A := fun w => (m, w).

Section FileSystem.
Context `{NodePath}.

(** A path given to [fs] is resolved against the working directory.
    [existsSync] is true of every entry, a directory too. *)
Definition existsSync (p : jsstring) : IO bool := fun w =>
  (Ret (match files w !! resolve1 p with Some _ => true | None => false end), w).

(** [readFileSync(p, 'utf8')] *)
Definition readEntry (p : jsstring) (en : option entry) : Exc jsstring :=
  match en with
  | Some (File text) => Ret text
  | Some (ReadOnly text) => Ret text
  | Some NoAccess => Throw (EACCES p)
  | Some Directory => Throw (EISDIR p)
  | None => Throw (ENOENT p)
  end.

Definition readFileSync (p : jsstring) : IO jsstring := fun w =>
  (readEntry p (files w !! resolve1 p), w).

(** [writeFileSync(p, text, 'utf8')] replaces the text of a file that can
    be written, and creates a file under a path that holds nothing; on
    anything else it throws and nothing is written. *)
Definition writeError (p : jsstring) (en : option entry) : option exn :=
  match en with
  | Some (File _) => None
  | Some (ReadOnly _) => Some (EACCES p)
  | Some NoAccess => Some (EACCES p)
  | Some Directory => Some (EISDIR p)
  | None => None
  end.

Definition writeFileSync (p text : jsstring) : IO unit := fun w =>
  match writeError p (files w !! resolve1 p) with
  | Some e => (Throw e, w)
  | None => (Ret tt, {| files := <[resolve1 p := File text]> (files w);
                        writes := writes w ++ [(p, text)] |})
  end.

End FileSystem.

Arguments readEntry : simpl never.
Arguments writeError : simpl never.

(** ** The application engine ([applyCssChange]) *)

Record InlineResult := {
  found : bool;
  newHtml : jsstring
}.

(** One step of a greedy [[class]+] followed by the rest [k] of the regex:
    the longest run is tried first and given back one character at a
    time. *)
Fixpoint greedyPlus {R : Type} (cls : N -> bool) (k : jsstring -> option R)
    (s : jsstring) : option R :=
  match s with
  | c :: t =>
      if cls c then
        match greedyPlus cls k t with
        | Some r => Some r
        | None => k t
        end
      else None
  | [] => None
  end.

Definition isQuote (c : N) : bool := (c =? 34) || (c =? 39).
Definition notGt (c : N) : bool := negb (c =? 62).

Section Engine.
Context `{CssTree} `{RegExpEngine} `{NodePath}.

(** The style regex, with flags [gi]: [<style], [[^>]*], [>], a lazy group
    of any characters, and the closing tag.  The opening tag ends at the
    first [>], and the group ends at the first closing tag after it. *)
Definition reStyle : matcher := fun s =>
  match stripPrefixBy eqCI (js "<style") s with
  | Some r1 =>
      match (spanClass notGt r1).2 with
      | c :: r2 =>
          if c =? 62 then
            match findSubBy eqCI (js "</style>") [] r2 with
            | Some (cssContent, rest) => Some ([cssContent], rest)
            | None => None
            end
          else None
      | [] => None
      end
  | None => None
  end.

(** The callback of [html.replace(styleRegex, ...)]: the text that replaces
    the match and whether [found] was set. *)
Definition inlineCallback (change : CssChange) (p : piece) : Exc (jsstring * bool) :=
  match p with
  | Keep c => Ret ([c], false)
  | Hit whole groups _ _ =>
      let cssContent := default [] (head groups) in
      result ← modifyCssContent change cssContent;
      if modified result
      then Ret (replaceFirst cssContent (content result) whole, true)
      else Ret (whole, false)
  end.

Definition applyToInlineStyle (html : jsstring) (change : CssChange) : Exc InlineResult :=
  rs ← mapM (inlineCallback change) (scan reStyle html);
  Ret {| found := existsb snd rs; newHtml := concat (map fst rs) |}.

(** The link regex, with flags [gi]: [<link], [[^>]+], [rel=], a quote,
    [stylesheet], a quote, [[^>]+], [href=], a quote, a group of one or more
    characters other than quotes, and a quote. *)
Definition reLinkHref (s : jsstring) : option (list jsstring * jsstring) :=
  match stripPrefixBy eqCI (js "href=") s with
  | Some (q :: r1) =>
      if isQuote q then
        match spanClass (fun c => negb (isQuote c)) r1 with
        | (h :: hs, _ :: rest) => Some ([h :: hs], rest)
        | _ => None
        end
      else None
  | _ => None
  end.

Definition reLinkRel (s : jsstring) : option (list jsstring * jsstring) :=
  match stripPrefixBy eqCI (js "rel=") s with
  | Some (q :: r1) =>
      if isQuote q then
        match stripPrefixBy eqCI (js "stylesheet") r1 with
        | Some (q' :: r2) => if isQuote q' then greedyPlus notGt reLinkHref r2 else None
        | _ => None
        end
      else None
  | _ => None
  end.

Definition reLink : matcher := fun s =>
  match stripPrefixBy eqCI (js "<link") s with
  | Some r1 => greedyPlus notGt reLinkRel r1
  | None => None
  end.

Definition isLocalHref (href : jsstring) : bool :=
  negb (startsWith href (js "http://"))
  && negb (startsWith href (js "https://"))
  && negb (startsWith href (js "//")).

Definition findLinkedCssFiles (html baseDir : jsstring) : list jsstring :=
  flat_map (fun p =>
      match p with
      | Hit _ groups _ _ =>
          let href := default [] (head groups) in
          if isLocalHref href then [resolve2 baseDir href] else []
      | Keep _ => []
      end) (scan reLink html).

Definition applyToCssFile (cssPath : jsstring) (change : CssChange) : IO bool :=
  present ← existsSync cssPath;
  if (present : bool) then
    cssContent ← readFileSync cssPath;
    result ← liftExc (modifyCssContent change cssContent);
    if modified result then
      writeFileSync cssPath (content result);;
      mret true
    else mret false
  else mret false.

(** The loop over the linked files: the first file that was modified. *)
Fixpoint applyToLinked (linkedCss : list jsstring) (change : CssChange) : IO (option jsstring) :=
  match linkedCss with
  | [] => mret None
  | cssFile :: rest =>
      cssFound ← applyToCssFile cssFile change;
      if (cssFound : bool) then mret (Some cssFile) else applyToLinked rest change
  end.

Definition NL : N := 10.

Definition addStyleBlock (html : jsstring) (change : CssChange) : jsstring :=
  let newStyle :=
    [NL] ++ js "<style>" ++ [NL] ++ selector change ++ js " {" ++ [NL] ++ js "  "
    ++ property change ++ js ": " ++ value change ++ js ";" ++ [NL] ++ js "}" ++ [NL]
    ++ js "</style>" in
  if includes html (js "</head>")
  then replaceFirst (js "</head>") (newStyle ++ [NL] ++ js "</head>") html
  else newStyle ++ [NL] ++ html.

Definition applyCssChange (htmlPath : jsstring) (change : CssChange) : IO ApplyResult :=
  let absolutePath := resolve1 htmlPath in
  present ← existsSync absolutePath;
  if (present : bool) then
    htmlContent ← readFileSync absolutePath;
    styleResult ← liftExc (applyToInlineStyle htmlContent change);
    if found styleResult then
      writeFileSync absolutePath (newHtml styleResult);;
      mret {| success := true;
              message := js "CSS aplicado en <style> de " ++ basename htmlPath;
              modifiedFile := Some absolutePath |}
    else
      let linkedCss := findLinkedCssFiles htmlContent (dirname absolutePath) in
      linked ← applyToLinked linkedCss change;
      match linked with
      | Some cssFile =>
          mret {| success := true;
                  message := js "CSS aplicado en " ++ basename cssFile;
                  modifiedFile := Some cssFile |}
      | None =>
          let newContent := addStyleBlock htmlContent change in
          writeFileSync absolutePath newContent;;
          mret {| success := true;
                  message := js "Nuevo estilo a" ++ [241] ++ js "adido a " ++ basename htmlPath;
                  modifiedFile := Some absolutePath |}
      end
  else
    mret {| success := false;
            message := js "Archivo no encontrado: " ++ htmlPath;
            modifiedFile := None |}.

(** ** The style reader ([getStylesForSelector]) *)

(** [styles[p] = v] on a plain object: the key [__proto__] is the accessor
    of [Object.prototype], whose setter ignores a string. *)
Definition setStyle (p v : jsstring) (styles : gmap jsstring jsstring) : gmap jsstring jsstring :=
  if bool_decide (p = js "__proto__") then styles else <[p := v]> styles.

Fixpoint collectDeclaration (n : cssnode) (styles : gmap jsstring jsstring)
    : gmap jsstring jsstring :=
  match n with
  | Declaration _ p v => setStyle p (generateValue v) styles
  | Rule _ blk => fold_left (fun st x => collectDeclaration x st) blk styles
  | Atrule _ _ (Some blk) => fold_left (fun st x => collectDeclaration x st) blk styles
  | Atrule _ _ None => styles
  | Raw _ => styles
  end.

Fixpoint collectRule (targetSelector : jsstring) (n : cssnode)
    (styles : gmap jsstring jsstring) : gmap jsstring jsstring :=
  match n with
  | Rule pre blk =>
      let styles1 :=
        if selectorEq (generatePrelude pre) targetSelector
        then fold_left (fun st x => collectDeclaration x st) blk styles
        else styles in
      fold_left (fun st x => collectRule targetSelector x st) blk styles1
  | Atrule _ _ (Some blk) => fold_left (fun st x => collectRule targetSelector x st) blk styles
  | Atrule _ _ None => styles
  | Declaration _ _ _ => styles
  | Raw _ => styles
  end.

Definition extractStylesFromCss (css targetSelector : jsstring) : Exc (gmap jsstring jsstring) :=
  catch
    (ast ← parse css;
     Ret (fold_left (fun st x => collectRule targetSelector x st) ast ∅))
    (fun _ => Ret ∅).

(** [Object.assign(styles, source)]: the entries of [source] win. *)
Definition objectAssign (styles source : gmap jsstring jsstring) : gmap jsstring jsstring :=
  source ∪ styles.

Fixpoint assignStyles (fragments : list jsstring) (targetSelector : jsstring)
    (styles : gmap jsstring jsstring) : Exc (gmap jsstring jsstring) :=
  match fragments with
  | [] => Ret styles
  | cssContent :: rest =>
      extracted ← extractStylesFromCss cssContent targetSelector;
      assignStyles rest targetSelector (objectAssign styles extracted)
  end.

Definition styleContents (html : jsstring) : list jsstring :=
  flat_map (fun p =>
      match p with
      | Hit _ groups _ _ => [default [] (head groups)]
      | Keep _ => []
      end) (scan reStyle html).

Fixpoint assignLinked (linkedCss : list jsstring) (targetSelector : jsstring)
    (styles : gmap jsstring jsstring) : IO (gmap jsstring jsstring) :=
  match linkedCss with
  | [] => mret styles
  | cssFile :: rest =>
      present ← existsSync cssFile;
      if (present : bool) then
        cssContent ← readFileSync cssFile;
        extracted ← liftExc (extractStylesFromCss cssContent targetSelector);
        assignLinked rest targetSelector (objectAssign styles extracted)
      else assignLinked rest targetSelector styles
  end.

Definition getStylesForSelector (htmlPath targetSelector : jsstring)
    : IO (gmap jsstring jsstring) :=
  present ← existsSync htmlPath;
  if (present : bool) then
    htmlContent ← readFileSync htmlPath;
    styles ← liftExc (assignStyles (styleContents htmlContent) targetSelector ∅);
    assignLinked (findLinkedCssFiles htmlContent (dirname htmlPath)) targetSelector styles
  else mret ∅.

End Engine.

(** ** The session state ([websocket.ts]) *)

Record SelectedElement := {
  elSelector : jsstring;
  tag : jsstring;
  line : Z;
  styles : gmap jsstring jsstring
}.

Record HtmlDoc := {
  filePath : jsstring;
  docContent : jsstring
}.

(** An incoming message, by its [type]; a payload is absent ([None]) or has
    the shape of the type the source casts it to. *)
Inductive inbound :=
| ElementSelected (payload : option SelectedElement)
| Ping
| Ready
| LoadHtml (payload : option HtmlDoc)
| ApplyCss (payload : option CssChange)
| Unknown (type : jsstring).

Inductive outMessage :=
| Pong
| OutLoadHtml (doc : HtmlDoc)
| OutCssApplied (change : CssChange).

(** How the promise of a [waitForSelection] call was settled. *)
Inductive settlement :=
| Resolved (element : option SelectedElement)
| Rejected.   (* Error('Timeout esperando selección de elemento') *)

(** The module state, with what the runtime holds for it: the promises
    already settled, the timers armed by [setTimeout] with their due time,
    the clock, the messages sent and the lines written by [console.error].
    A resolver in [selectionResolvers] is named by its promise. *)
Record session := {
  selectedElement : option SelectedElement;
  currentHtml : option HtmlDoc;
  selectionResolvers : list nat;
  connectedClients : list (nat * bool);
  disk : world;
  sent : list (nat * outMessage);
  promises : gmap nat settlement;
  nextPromise : nat;
  timers : list (nat * N);
  now : N;
  consoleErrors : nat
}.

Definition initial (w : world) : session :=
  {| selectedElement := None; currentHtml := None; selectionResolvers := [];
     connectedClients := []; disk := w; sent := []; promises := ∅;
     nextPromise := 0; timers := []; now := 0; consoleErrors := 0 |}.

(** Settling a promise: only the first call of [resolve] or [reject] counts. *)
Definition settle (p : nat) (s : settlement) (ps : gmap nat settlement) : gmap nat settlement :=
  match ps !! p with
  | Some _ => ps
  | None => <[p := s]> ps
  end.

(** [ws.send(JSON.stringify(m))] *)
Definition send (ws : nat) (m : outMessage) (st : session) : session :=
  {| selectedElement := selectedElement st; currentHtml := currentHtml st;
     selectionResolvers := selectionResolvers st; connectedClients := connectedClients st;
     disk := disk st; sent := sent st ++ [(ws, m)]; promises := promises st;
     nextPromise := nextPromise st; timers := timers st; now := now st;
     consoleErrors := consoleErrors st |}.

(** [broadcast]: to every connected client whose [readyState] is [OPEN]. *)
Definition broadcast (m : outMessage) (st : session) : session :=
  fold_left (fun s client => if (client.2 : bool) then send client.1 m s else s)
    (connectedClients st) st.

Definition setSelection (e : option SelectedElement) (st : session) : session :=
  {| selectedElement := e; currentHtml := currentHtml st;
     selectionResolvers := [];
     connectedClients := connectedClients st; disk := disk st; sent := sent st;
     promises := fold_left (fun ps p => settle p (Resolved e) ps) (selectionResolvers st)
                   (promises st);
     nextPromise := nextPromise st; timers := timers st; now := now st;
     consoleErrors := consoleErrors st |}.

Definition setDocument (doc : option HtmlDoc) (w : world) (st : session) : session :=
  {| selectedElement := selectedElement st; currentHtml := doc;
     selectionResolvers := selectionResolvers st; connectedClients := connectedClients st;
     disk := w; sent := sent st; promises := promises st;
     nextPromise := nextPromise st; timers := timers st; now := now st;
     consoleErrors := consoleErrors st |}.

Definition logError (st : session) : session :=
  {| selectedElement := selectedElement st; currentHtml := currentHtml st;
     selectionResolvers := selectionResolvers st; connectedClients := connectedClients st;
     disk := disk st; sent := sent st; promises := promises st;
     nextPromise := nextPromise st; timers := timers st; now := now st;
     consoleErrors := S (consoleErrors st) |}.

Section Coordinator.
Context `{CssTree} `{RegExpEngine} `{NodePath}.

(** [handleMessage(message, ws)]: the state it leaves, and the exception it
    throws if any. *)
Definition handleMessage (m : inbound) (ws : nat) (st : session) : Exc unit * session :=
  match m with
  | ElementSelected payload => (Ret tt, setSelection payload st)
  | Ping => (Ret tt, send ws Pong st)
  | Ready =>
      match currentHtml st with
      | Some doc => (Ret tt, send ws (OutLoadHtml doc) st)
      | None => (Ret tt, st)
      end
  | LoadHtml (Some htmlPayload) =>
      (Ret tt, broadcast (OutLoadHtml htmlPayload) (setDocument (Some htmlPayload) (disk st) st))
  | LoadHtml None => (Ret tt, st)
  | ApplyCss (Some cssPayload) =>
      match currentHtml st with
      | Some doc =>
          match applyCssChange (filePath doc) cssPayload (disk st) with
          | (Ret result, w1) =>
              if success result then
                match readFileSync (filePath doc) w1 with
                | (Ret updatedContent, w2) =>
                    let doc' := {| filePath := filePath doc; docContent := updatedContent |} in
                    (Ret tt,
                     broadcast (OutCssApplied cssPayload)
                       (broadcast (OutLoadHtml doc') (setDocument (Some doc') w2 st)))
                | (Throw e, w2) => (Throw e, setDocument (currentHtml st) w2 st)
                end
              else (Ret tt, setDocument (currentHtml st) w1 st)
          | (Throw e, w1) => (Throw e, setDocument (currentHtml st) w1 st)
          end
      | None => (Ret tt, st)
      end
  | ApplyCss None => (Ret tt, st)
  | Unknown _ => (Ret tt, logError st)
  end.

(** The listener of ['message']: an exception of the handler is logged. *)
Definition onMessage (m : inbound) (ws : nat) (st : session) : session :=
  match handleMessage m ws st with
  | (Ret _, st') => st'
  | (Throw _, st') => logError st'
  end.

End Coordinator.

(** [waitForSelection(timeoutMs)]: the promise returned and the state left
    by the executor. *)
Definition waitForSelection (timeoutMs : N) (st : session) : nat * session :=
  let p := nextPromise st in
  match selectedElement st with
  | Some e =>
      (p, {| selectedElement := selectedElement st; currentHtml := currentHtml st;
             selectionResolvers := selectionResolvers st;
             connectedClients := connectedClients st; disk := disk st; sent := sent st;
             promises := settle p (Resolved (Some e)) (promises st);
             nextPromise := S p; timers := timers st; now := now st;
             consoleErrors := consoleErrors st |})
  | None =>
      (p, {| selectedElement := selectedElement st; currentHtml := currentHtml st;
             selectionResolvers := selectionResolvers st ++ [p];
             connectedClients := connectedClients st; disk := disk st; sent := sent st;
             promises := promises st;
             nextPromise := S p; timers := timers st ++ [(p, now st + timeoutMs)];
             now := now st; consoleErrors := consoleErrors st |})
  end.

(** [selectionResolvers.indexOf(resolve)] *)
Fixpoint indexOf (p : nat) (l : list nat) : option nat :=
  match l with
  | [] => None
  | q :: t => if bool_decide (q = p) then Some 0%nat else S <$> indexOf p t
  end.

(** [l.splice(index, 1)] *)
Definition splice1 (index : nat) (l : list nat) : list nat := take index l ++ drop (S index) l.

(** The callback given to [setTimeout] by the call that returned [p]. *)
Definition onTimeout (p : nat) (st : session) : session :=
  match indexOf p (selectionResolvers st) with
  | Some index =>
      {| selectedElement := selectedElement st; currentHtml := currentHtml st;
         selectionResolvers := splice1 index (selectionResolvers st);
         connectedClients := connectedClients st; disk := disk st; sent := sent st;
         promises := settle p Rejected (promises st);
         nextPromise := nextPromise st; timers := timers st; now := now st;
         consoleErrors := consoleErrors st |}
  | None => st
  end.

Definition disarm (p : nat) (st : session) : session :=
  {| selectedElement := selectedElement st; currentHtml := currentHtml st;
     selectionResolvers := selectionResolvers st; connectedClients := connectedClients st;
     disk := disk st; sent := sent st; promises := promises st;
     nextPromise := nextPromise st;
     timers := filter (fun t => t.1 <> p) (timers st); now := now st;
     consoleErrors := consoleErrors st |}.

Definition advance (ms : N) (st : session) : session :=
  {| selectedElement := selectedElement st; currentHtml := currentHtml st;
     selectionResolvers := selectionResolvers st; connectedClients := connectedClients st;
     disk := disk st; sent := sent st; promises := promises st;
     nextPromise := nextPromise st; timers := timers st; now := now st + ms;
     consoleErrors := consoleErrors st |}.

Definition setClients (cs : list (nat * bool)) (st : session) : session :=
  {| selectedElement := selectedElement st; currentHtml := currentHtml st;
     selectionResolvers := selectionResolvers st; connectedClients := cs;
     disk := disk st; sent := sent st; promises := promises st;
     nextPromise := nextPromise st; timers := timers st; now := now st;
     consoleErrors := consoleErrors st |}.

(** What can happen to the session: a view connects or closes, a message
    arrives, the controller waits for a selection, time passes, and the
    timer of a waiter fires once it is due. *)
Inductive event :=
| Connect (ws : nat)
| Close (ws : nat)
| Receive (ws : nat) (m : inbound)
| Wait (timeoutMs : N)
| Elapse (ms : N)
| Fire (p : nat).

Section Run.
Context `{CssTree} `{RegExpEngine} `{NodePath}.

Definition isDue (p : nat) (st : session) : bool :=
  existsb (fun t => bool_decide (t.1 = p) && (t.2 <=? now st)) (timers st).

Definition step (st : session) (e : event) : session :=
  match e with
  | Connect ws => setClients (connectedClients st ++ [(ws, true)]) st
  | Close ws => setClients (filter (fun c => c.1 <> ws) (connectedClients st)) st
  | Receive ws m => onMessage m ws st
  | Wait timeoutMs => (waitForSelection timeoutMs st).2
  | Elapse ms => advance ms st
  | Fire p => if isDue p st then onTimeout p (disarm p st) else st
  end.

Definition run (st : session) (es : list event) : session := fold_left step es st.

End Run.

(** ** The functions [websocket.ts] exports to the tools *)

(** [sendFileContent(filePath, content)] *)
Definition sendFileContent (path text : jsstring) (st : session) : session :=
  let doc := {| filePath := path; docContent := text |} in
  broadcast (OutLoadHtml doc) (setDocument (Some doc) (disk st) st).

(** [notifyCssApplied(selector, property, value)] *)
Definition notifyCssApplied (sel prop val : jsstring) (st : session) : session :=
  broadcast (OutCssApplied {| selector := sel; property := prop; value := val |}) st.

Definition getSelectedElement (st : session) : option SelectedElement := selectedElement st.

(** [connectedClients.size > 0] *)
Definition hasConnectedClients (st : session) : bool :=
  match connectedClients st with
  | [] => false
  | _ :: _ => true
  end.

(** ** The tools ([mcp-server.ts]) *)

(** [JSON.stringify({selector, tag, line, styles}, null, 2)] of an element. *)
Class JsonText := {
  stringifyElement : SelectedElement -> jsstring
}.

(** The state of the tool server: the module state of [websocket.ts], the
    file under inspection, the paths that have a watcher in
    [file-watcher.ts] (a watcher is known by its key), and the address of
    each browser window opened. *)
Record server := {
  socket : session;
  currentFilePath : option jsstring;
  watchers : list jsstring;
  browsers : list jsstring
}.

Definition withSocket (st : session) (sv : server) : server :=
  {| socket := st; currentFilePath := currentFilePath sv;
     watchers := watchers sv; browsers := browsers sv |}.

(** The result of an asynchronous tool: a text at once, or the promise the
    tool awaits. *)
Inductive toolAnswer :=
| Now (text : jsstring)
| Await (p : nat).

Section Tools.
Context `{CssTree} `{RegExpEngine} `{NodePath} `{JsonText}.

(** [watchFile(filePath)]: nothing when the path has a watcher already. *)
Definition watchFile (path : jsstring) (ws : list jsstring) : list jsstring :=
  let absolutePath := resolve1 path in
  if bool_decide (absolutePath ∈ ws) then ws else ws ++ [absolutePath].

(** [unwatchFile(filePath)] *)
Definition unwatchFile (path : jsstring) (ws : list jsstring) : list jsstring :=
  filter (fun p => p <> resolve1 path) ws.

Definition HTTP_URL : jsstring := js "http://localhost:8080".

(** The tool [inspect_html]; [watch] is absent or a boolean, and defaults to
    [true]. *)
Definition inspect_html (file_path : jsstring) (watch : option bool) (sv : server)
    : Exc jsstring * server :=
  let absolutePath := resolve1 file_path in
  match existsSync absolutePath (disk (socket sv)) with
  | (Ret false, _) => (Ret (js "Error: Archivo no encontrado: " ++ file_path), sv)
  | (Ret true, _) =>
      match readFileSync absolutePath (disk (socket sv)) with
      | (Ret text, _) =>
          (Ret (js "Visualizador abierto para: " ++ basename absolutePath ++ [NL]
                ++ js "URL: " ++ HTTP_URL ++ [NL]
                ++ js "Hot reload: "
                ++ (if default true watch then js "activado" else js "desactivado")
                ++ [NL; NL]
                ++ js "Haz click en cualquier elemento para seleccionarlo."),
           {| socket := sendFileContent absolutePath text (socket sv);
              currentFilePath := Some absolutePath;
              watchers := if default true watch
                          then watchFile absolutePath (watchers sv) else watchers sv;
              browsers := browsers sv ++ [HTTP_URL] |})
      | (Throw e, _) => (Throw e, sv)
      end
  | (Throw e, _) => (Throw e, sv)
  end.

Definition NO_VIEW : jsstring :=
  js "Error: No hay visualizador conectado. Usa inspect_html primero.".

Definition NO_SELECTION : jsstring :=
  js "No hay elemento seleccionado. Haz click en un elemento en el visualizador.".

Definition TIMEOUT : jsstring :=
  js "Timeout: No se seleccion" ++ [243] ++ js " ning" ++ [250] ++ js "n elemento.".

(** The tool [get_selected_element] up to its [await]; [wait] defaults to
    [false] and [timeout] to 30000. *)
Definition get_selected_element (wait : option bool) (timeout : option N) (sv : server)
    : toolAnswer * server :=
  if negb (hasConnectedClients (socket sv)) then (Now NO_VIEW, sv)
  else
    match getSelectedElement (socket sv) with
    | Some element => (Now (stringifyElement element), sv)
    | None =>
        if default false wait then
          let '(p, st) := waitForSelection (default 30000 timeout) (socket sv) in
          (Await p, withSocket st sv)
        else (Now NO_SELECTION, sv)
    end.

(** The rest of [get_selected_element] once the awaited promise is
    settled. *)
Definition get_selected_element_after (s : settlement) : jsstring :=
  match s with
  | Rejected => TIMEOUT
  | Resolved None => NO_SELECTION
  | Resolved (Some element) => stringifyElement element
  end.

(** The tool [apply_css_change]. *)
Definition apply_css_change (change : CssChange) (sv : server) : Exc jsstring * server :=
  match currentFilePath sv with
  | None => (Ret (js "Error: No hay archivo abierto. Usa inspect_html primero."), sv)
  | Some path =>
      let st := socket sv in
      match applyCssChange path change (disk st) with
      | (Ret result, w1) =>
          if success result then
            match readFileSync path w1 with
            | (Ret updatedContent, w2) =>
                (Ret (message result ++ [NL] ++ selector change ++ js " { "
                      ++ property change ++ js ": " ++ value change ++ js "; }"),
                 withSocket
                   (notifyCssApplied (selector change) (property change) (value change)
                      (sendFileContent path updatedContent
                         (setDocument (currentHtml st) w2 st)))
                   sv)
            | (Throw e, w2) => (Throw e, withSocket (setDocument (currentHtml st) w2 st) sv)
            end
          else (Ret (js "Error: " ++ message result),
                withSocket (setDocument (currentHtml st) w1 st) sv)
      | (Throw e, w1) => (Throw e, withSocket (setDocument (currentHtml st) w1 st) sv)
      end
  end.

(** The tool [close_inspector]. *)
Definition close_inspector (sv : server) : jsstring * server :=
  (js "Visualizador cerrado. Cierra la pesta" ++ [241] ++ js "a del navegador manualmente.",
   match currentFilePath sv with
   | Some path =>
       {| socket := socket sv; currentFilePath := None;
          watchers := unwatchFile path (watchers sv); browsers := browsers sv |}
   | None => sv
   end).

End Tools.

(** ** Notions used in the statements *)

(** A replacement text without a dollar stands for itself. *)
Definition plainRepl (rep : jsstring) : Prop :=
  forall w b a, getSubstitution w b a rep = rep.

(** The text of the subject that a piece of a scan stands for. *)
Definition pieceText (p : piece) : jsstring :=
  match p with
  | Keep c => [c]
  | Hit w _ _ _ => w
  end.

Section Mutated.
Context `{CssTree} `{RegExpEngine}.
Variable change : CssChange.

(** Some rule of the tree, at any depth, has the selector of the change. *)
Fixpoint ruleMatches (n : cssnode) : bool :=
  match n with
  | Rule pre blk => selectorMatches change pre || existsb ruleMatches blk
  | Atrule _ _ (Some blk) => existsb ruleMatches blk
  | _ => false
  end.

(** Some declaration of the tree, at any depth, has the property of the
    change. *)
Fixpoint hasProperty (n : cssnode) : bool :=
  match n with
  | Declaration _ p _ => bool_decide (p = property change)
  | Rule _ blk => existsb hasProperty blk
  | Atrule _ _ (Some blk) => existsb hasProperty blk
  | _ => false
  end.

Variable v : Value.

(** Every declaration of the property, at any depth, with the value [v]. *)
Fixpoint setDeep (n : cssnode) : cssnode :=
  match n with
  | Declaration imp p val =>
      if bool_decide (p = property change) then Declaration imp p v else n
  | Rule pre blk => Rule pre (map setDeep blk)
  | Atrule nm pre (Some blk) => Atrule nm pre (Some (map setDeep blk))
  | _ => n
  end.

(** The tree that the two walks of [modifyCssContent] leave, in closed form
    (lemma [walkRules_spec]); [under] says that the node is below the block
    of a rule with the selector of the change.  The walk over the
    declarations of such a block goes down into the rules and at-rules
    nested in it, so
    - every declaration of the property below the block of a rule with the
      selector of the change has the new value;
    - the block gets a declaration [property: value] that is not important
      at its end when there is no declaration of the property anywhere
      below it. *)
Fixpoint afterWalk (under : bool) (n : cssnode) : cssnode :=
  match n with
  | Declaration imp p val =>
      if under && bool_decide (p = property change) then Declaration imp p v else n
  | Rule pre blk =>
      let matches := selectorMatches change pre in
      let blk' := map (afterWalk (under || matches)) blk in
      Rule pre
        (if matches && negb (existsb hasProperty blk)
         then blk' ++ [Declaration NotImportant (property change) v]
         else blk')
  | Atrule nm pre (Some blk) => Atrule nm pre (Some (map (afterWalk under) blk))
  | _ => n
  end.

(** A declaration of the property of the change. *)
Definition ownDeclaration (n : cssnode) : bool :=
  match n with
  | Declaration _ p _ => bool_decide (p = property change)
  | _ => false
  end.

(** A declaration of the property with the value [v]. *)
Definition setOwn (n : cssnode) : cssnode :=
  match n with
  | Declaration imp p val =>
      if bool_decide (p = property change) then Declaration imp p v else n
  | _ => n
  end.

(** The tree after the change as the specification words it: each rule
    with the selector of the change is handled, a nested one too; when the
    block of the rule has a declaration of the property, each such
    declaration of the block gets the new value; otherwise a declaration
    [property: value] that is not important is added at the end of the
    block; nothing else changes. *)
Fixpoint mutateBySpec (n : cssnode) : cssnode :=
  match n with
  | Rule pre blk =>
      let blk' := map mutateBySpec blk in
      Rule pre
        (if selectorMatches change pre
         then if existsb ownDeclaration blk then map setOwn blk'
              else blk' ++ [Declaration NotImportant (property change) v]
         else blk')
  | Atrule nm pre (Some blk) => Atrule nm pre (Some (map mutateBySpec blk))
  | _ => n
  end.

(** The node has no declaration of the property inside a rule or an at-rule
    nested in the block of a rule with the selector of the change: in such
    a block the property is declared by the declarations of the block
    itself only. *)
Fixpoint declaredInOwnBlock (n : cssnode) : bool :=
  match n with
  | Rule pre blk =>
      (if selectorMatches change pre
       then forallb (fun c => match c with
                              | Declaration _ _ _ => true
                              | _ => negb (hasProperty c)
                              end) blk
       else true)
      && forallb declaredInOwnBlock blk
  | Atrule _ _ (Some blk) => forallb declaredInOwnBlock blk
  | _ => true
  end.

End Mutated.

(** The world after one call [writeFileSync(p, text)] that wrote. *)
Definition wrote `{NodePath} (p text : jsstring) (w : world) : world :=
  {| files := <[resolve1 p := File text]> (files w);
     writes := writes w ++ [(p, text)] |}.

(** What the inline strategy leaves in place of a piece of the document.
    A character outside the style blocks stays.  A style block reads as an
    opening tag up to its [>], the CSS text and a closing tag; it stays as
    it is when the engine reports no modification of the CSS text; when the
    engine reports one, the block becomes the same opening tag, the new
    content and the same closing tag, provided that the new content holds
    no dollar sign and that the CSS text does not occur in the block before
    its own place. *)
Definition styleBlockEdit `{CssTree} `{RegExpEngine} (change : CssChange)
    (p : piece) (t : jsstring) : Prop :=
  match p with
  | Keep c => t = [c]
  | Hit whole groups _ _ =>
      exists tag attrs css close result,
        whole = (tag ++ attrs ++ [62]) ++ css ++ close
        /\ groups = [css]
        /\ Forall2 (fun x y => eqCI x y = true) (js "<style") tag
        /\ Forall (fun c => c <> 62) attrs
        /\ Forall2 (fun x y => eqCI x y = true) (js "</style>") close
        /\ modifyCssContent change css = Ret result
        /\ (modified result = false -> t = whole)
        /\ (modified result = true ->
            Forall (fun c => c <> 36) (content result) ->
            (forall b a, whole = b ++ css ++ a ->
               (length (tag ++ attrs ++ [62%N]) <= length b)%nat) ->
            t = (tag ++ attrs ++ [62]) ++ content result ++ close)
  end.

(** ** The style reader, fragment by fragment *)

Section ReadFragments.
Context `{CssTree} `{NodePath}.

(** The entries that one CSS fragment gives for a selector: those of the
    rules with the selector when the fragment parses, none when the parse
    throws. *)
Definition fragmentStyles (targetSelector css : jsstring) : gmap jsstring jsstring :=
  match parse css with
  | Ret ast => fold_left (fun st x => collectRule targetSelector x st) ast ∅
  | Throw _ => ∅
  end.

(** The entries of a list of fragments: a later fragment wins over an
    earlier one. *)
Definition readFragments (targetSelector : jsstring) (fragments : list jsstring)
    (styles : gmap jsstring jsstring) : gmap jsstring jsstring :=
  fold_left (fun st css => objectAssign st (fragmentStyles targetSelector css))
    fragments styles.

(** The texts of the linked files that exist, in order; the error of the
    first one that exists and cannot be read. *)
Fixpoint linkedTexts (w : world) (linkedCss : list jsstring) : Exc (list jsstring) :=
  match linkedCss with
  | [] => Ret []
  | cssFile :: rest =>
      match files w !! resolve1 cssFile with
      | None => linkedTexts w rest
      | Some en =>
          text ← readEntry cssFile (Some en);
          texts ← linkedTexts w rest;
          Ret (text :: texts)
      end
  end.

End ReadFragments.

(** The waiters of a session are in order: no resolver is queued twice, a
    queued resolver belongs to a promise already created and not settled,
    and no promise is settled before it is created. *)
Definition waitersInOrder (st : session) : Prop :=
  NoDup (selectionResolvers st)
  /\ (forall p, p ∈ selectionResolvers st ->
        (p < nextPromise st)%nat /\ promises st !! p = None)
  /\ (forall p, (nextPromise st <= p)%nat -> promises st !! p = None).

(** The states the session can be in: those that a sequence of events
    leads to from the initial state. *)
Definition reachable `{CssTree} `{RegExpEngine} `{NodePath} (st : session) : Prop :=
  exists w es, st = run (initial w) es.

(** ** Sample implementations of the interfaces

    Small implementations that run the examples: an engine that folds case
    on ASCII only and rejects every pattern built from a text with syntax
    characters, paths that are already absolute, and a parser of flat style
    sheets ([selector { property: value; ... }] one after the other) that,
    as css-tree does, keeps what it cannot read as raw text and never
    throws; a value is rejected when it holds [!], [;] or a closing
    brace. *)

Definition sampleEngine : RegExpEngine :=
  {| toUpperUnit := fun c => c;
     DynRegex := unit;
     dynCompile := fun _ => Throw SyntaxError;
     dynTest := fun _ _ => false;
     dynReplace := fun _ s _ => s |}.

Fixpoint splitOn (c : N) (s : jsstring) : list jsstring :=
  match s with
  | [] => [[]]
  | x :: t =>
      if x =? c then [] :: splitOn c t
      else match splitOn c t with
           | h :: r => (x :: h) :: r
           | [] => [[x]]
           end
  end.

Definition samplePath : NodePath :=
  {| resolve1 := fun p => p;
     resolve2 := fun b p => b ++ js "/" ++ p;
     dirname := fun p => concat (map (fun seg => js "/" ++ seg)
                                   (tail (removelast (splitOn 47 p))));
     basename := fun p => default [] (last (splitOn 47 p)) |}.

Definition sampleDeclarations (body : jsstring) : list (node jsstring jsstring) :=
  flat_map (fun d =>
      match findSub [58] d with
      | Some (p, v) => [Declaration NotImportant (trim p) (trim v)]
      | None => if bool_decide (trim d = []) then [] else [Raw d]
      end) (splitOn 59 body).

Definition sampleRule (seg : jsstring) : node jsstring jsstring :=
  match findSub [123] seg with
  | Some (pre, body) => Rule (trim pre) (sampleDeclarations body)
  | None => Raw (seg ++ [125])
  end.

Definition sampleParse (css : jsstring) : Exc (list (node jsstring jsstring)) :=
  match reverse (splitOn 125 css) with
  | rest :: rules =>
      Ret (map sampleRule (reverse rules)
           ++ (if bool_decide (trim rest = []) then [] else [Raw rest]))
  | [] => Ret []
  end.

Definition sampleParseValue (text : jsstring) : Exc jsstring :=
  if existsb (fun c => (c =? 59) || (c =? 125) || (c =? 33)) text
  then Throw SyntaxError else Ret (trim text).

Fixpoint sampleGenerateNode (n : node jsstring jsstring) : jsstring :=
  match n with
  | Rule pre blk => pre ++ js "{" ++ concat (map sampleGenerateNode blk) ++ js "}"
  | Atrule nm pre (Some blk) =>
      js "@" ++ nm ++ default [] pre ++ js "{" ++ concat (map sampleGenerateNode blk) ++ js "}"
  | Atrule nm pre None => js "@" ++ nm ++ default [] pre ++ js ";"
  | Declaration _ p v => p ++ js ":" ++ v ++ js ";"
  | Raw text => text
  end.

Definition sampleCss : CssTree :=
  {| Prelude := jsstring;
     Value := jsstring;
     parse := sampleParse;
     parseValue := sampleParseValue;
     generate := fun ast => concat (map sampleGenerateNode ast);
     generatePrelude := fun pre => pre;
     generateValue := fun v => v |}.

Definition sampleChange (s p v : string) : CssChange :=
  {| selector := js s; property := js p; value := js v |}.

(** A site whose document has a linked style sheet and a style block, both
    with a rule for [h1]. *)
Definition sampleWorld : world :=
  {| files :=
       <[js "/site/index.html" :=
           File (js "<head><link rel='stylesheet' href='a.css'><style>h1{color:blue}</style></head>")]>
         (<[js "/site/a.css" := File (js "h1{color:green}")]> ∅);
     writes := [] |}.

(** * Part II: properties *)

(** ** The scan of a progressing matcher *)

Definition progressive (m : matcher) : Prop :=
  forall s g rest, m s = Some (g, rest) -> (length rest < length s)%nat.

Lemma scanFuel_enough (m : matcher) :
  progressive m ->
  forall n k pre s, (length s <= n)%nat -> (length s <= k)%nat ->
    scanFuel n m pre s = scanFuel k m pre s.
Proof.
  intros Hm n. induction n as [|n IH]; intros k pre s Hn Hk.
  - destruct s; [|simpl in Hn; lia]. destruct k; reflexivity.
  - destruct s as [|c t]; [destruct k; reflexivity|].
    destruct k as [|k]; [simpl in Hk; lia|].
    cbn [scanFuel]. destruct (m (c :: t)) as [[g rest]|] eqn:E.
    + apply Hm in E. simpl in *. f_equal. apply IH; lia.
    + simpl in *. f_equal. apply IH; lia.
Qed.

Lemma scan_nil (m : matcher) : scan m [] = [].
Proof. reflexivity. Qed.

Lemma plainRepl_SP : plainRepl [SP].
Proof. intros w b a. reflexivity. Qed.

Lemma plainRepl_GT : plainRepl ([SP] ++ GT :: [SP]).
Proof. intros w b a. reflexivity. Qed.

Lemma plainRepl_COMMA : plainRepl ([] ++ COMMA :: [SP]).
Proof. intros w b a. reflexivity. Qed.

Lemma render_scan_plain (m : matcher) (rep : jsstring) :
  progressive m -> plainRepl rep ->
  forall n k pre pre' s, (length s <= n)%nat -> (length s <= k)%nat ->
    concat (map (substPiece rep) (scanFuel n m pre s))
    = concat (map (substPiece rep) (scanFuel k m pre' s)).
Proof.
  intros Hm Hrep n. induction n as [|n IH]; intros k pre pre' s Hn Hk.
  - destruct s; [|simpl in Hn; lia]. destruct k; reflexivity.
  - destruct s as [|c t]; [destruct k; reflexivity|].
    destruct k as [|k]; [simpl in Hk; lia|].
    cbn [scanFuel]. destruct (m (c :: t)) as [[g rest]|] eqn:E.
    + apply Hm in E. simpl in E, Hn, Hk. cbn [map concat substPiece].
      rewrite !Hrep. f_equal. apply IH; lia.
    + simpl in Hn, Hk. cbn [map concat substPiece]. f_equal. apply IH; lia.
Qed.

Lemma skipSpaces_length (s : jsstring) : (length (skipSpaces s) <= length s)%nat.
Proof. induction s as [|c t IH]; simpl; [lia|]. destruct (isSpace c); simpl; lia. Qed.

Lemma reSpaces_progressive : progressive reSpaces.
Proof.
  intros [|c t] g rest; simpl; [discriminate|].
  destruct (isSpace c); [|discriminate]. intros [= _ <-].
  pose proof (skipSpaces_length t). lia.
Qed.

Lemma reAround_progressive (x : N) : progressive (reAround x).
Proof.
  intros s g rest. unfold reAround.
  destruct (skipSpaces s) as [|c t] eqn:E; [discriminate|].
  destruct (c =? x); [|discriminate]. intros [= _ <-].
  pose proof (skipSpaces_length s). pose proof (skipSpaces_length t).
  rewrite E in *. simpl in *. lia.
Qed.

Lemma replaceAll_nil (m : matcher) (rep : jsstring) : replaceAll m rep [] = [].
Proof. reflexivity. Qed.

Lemma replaceAll_cons (m : matcher) (rep : jsstring) (c : N) (t : jsstring) :
  progressive m -> plainRepl rep ->
  replaceAll m rep (c :: t) =
    match m (c :: t) with
    | Some (_, rest) => rep ++ replaceAll m rep rest
    | None => c :: replaceAll m rep t
    end.
Proof.
  intros Hm Hrep. unfold replaceAll, scan. cbn [length scanFuel].
  destruct (m (c :: t)) as [[g rest]|] eqn:E.
  - apply Hm in E. simpl in E. cbn [map concat substPiece].
    rewrite Hrep. f_equal. apply render_scan_plain; auto; lia.
  - cbn [map concat substPiece app]. f_equal.
    apply render_scan_plain; auto; lia.
Qed.

(** ** Strings cut at their non-space characters

    To reason about the four passes of [normalizeSelector] a string is cut
    into its non-space characters, each with the run of white space before
    it, and the final run of white space.  Every pass keeps the non-space
    characters and rewrites each run from the run itself and the two
    characters around it. *)

Definition allSpace (w : jsstring) : Prop := forallb isSpace w = true.

Definition wfEntry (e : jsstring * N) : Prop := allSpace e.1 /\ isSpace e.2 = false.

Fixpoint unparseL (l : list (jsstring * N)) (tl : jsstring) : jsstring :=
  match l with
  | [] => tl
  | (w, y) :: l' => w ++ y :: unparseL l' tl
  end.

Fixpoint parseL (acc : jsstring) (s : jsstring) : list (jsstring * N) :=
  match s with
  | [] => []
  | c :: t => if isSpace c then parseL (acc ++ [c]) t else (acc, c) :: parseL [] t
  end.

Fixpoint parseT (acc : jsstring) (s : jsstring) : jsstring :=
  match s with
  | [] => acc
  | c :: t => if isSpace c then parseT (acc ++ [c]) t else parseT [] t
  end.

Fixpoint mapPrev (g : option N -> N -> jsstring -> jsstring) (prev : option N)
    (l : list (jsstring * N)) : list (jsstring * N) :=
  match l with
  | [] => []
  | (w, y) :: l' => (g prev y w, y) :: mapPrev g (Some y) l'
  end.

Fixpoint lastOr (prev : option N) (l : list (jsstring * N)) : option N :=
  match l with
  | [] => prev
  | (_, y) :: l' => lastOr (Some y) l'
  end.

Lemma allSpace_nil : allSpace [].
Proof. reflexivity. Qed.

Lemma allSpace_cons (c : N) (w : jsstring) :
  allSpace (c :: w) <-> isSpace c = true /\ allSpace w.
Proof. unfold allSpace. simpl. rewrite andb_true_iff. tauto. Qed.

Lemma allSpace_app (a b : jsstring) : allSpace a -> allSpace b -> allSpace (a ++ b).
Proof. unfold allSpace. rewrite forallb_app. intros -> ->. reflexivity. Qed.

Lemma unparse_parse (s acc : jsstring) :
  unparseL (parseL acc s) (parseT acc s) = acc ++ s.
Proof.
  revert acc. induction s as [|c t IH]; intros acc; simpl.
  - now rewrite app_nil_r.
  - destruct (isSpace c); simpl.
    + rewrite IH. now rewrite <- app_assoc.
    + now rewrite (IH []).
Qed.

Lemma parse_wf (s acc : jsstring) :
  allSpace acc -> Forall wfEntry (parseL acc s) /\ allSpace (parseT acc s).
Proof.
  revert acc. induction s as [|c t IH]; intros acc Hacc; simpl.
  - split; [constructor | assumption].
  - destruct (isSpace c) eqn:E.
    + apply IH. apply allSpace_app; [assumption|]. apply allSpace_cons. split; [assumption|reflexivity].
    + destruct (IH [] allSpace_nil) as [H1 H2]. split; [|assumption].
      constructor; [split; assumption | assumption].
Qed.

Lemma parse_spaces (w s acc : jsstring) :
  allSpace w ->
  parseL acc (w ++ s) = parseL (acc ++ w) s /\ parseT acc (w ++ s) = parseT (acc ++ w) s.
Proof.
  revert acc. induction w as [|c w IH]; intros acc Hw; simpl.
  - now rewrite app_nil_r.
  - apply allSpace_cons in Hw as [Hc Hw]. rewrite Hc.
    destruct (IH (acc ++ [c]) Hw) as [-> ->]. now rewrite <- app_assoc.
Qed.

Lemma parse_unparse (l : list (jsstring * N)) (tl : jsstring) :
  Forall wfEntry l -> allSpace tl ->
  parseL [] (unparseL l tl) = l /\ parseT [] (unparseL l tl) = tl.
Proof.
  intros Hl Htl. induction Hl as [|[w y] l [Hw Hy] Hl IH]; simpl in *.
  - destruct (parse_spaces tl [] [] Htl) as [E1 E2].
    rewrite app_nil_r in E1, E2. rewrite E1, E2. simpl. auto.
  - destruct (parse_spaces w (y :: unparseL l tl) [] Hw) as [-> ->]. simpl.
    rewrite Hy. destruct IH as [-> ->]. auto.
Qed.

Lemma skipSpaces_allSpace (w : jsstring) : allSpace w -> skipSpaces w = [].
Proof.
  induction w as [|c w IH]; [reflexivity|]. intros H.
  apply allSpace_cons in H as [Hc Hw]. simpl. rewrite Hc. auto.
Qed.

Lemma skipSpaces_run (w : jsstring) (y : N) (r : jsstring) :
  allSpace w -> isSpace y = false -> skipSpaces (w ++ y :: r) = y :: r.
Proof.
  induction w as [|c w IH]; intros Hw Hy; simpl.
  - now rewrite Hy.
  - apply allSpace_cons in Hw as [Hc Hw]. rewrite Hc. auto.
Qed.

Lemma mapPrev_wf g prev l :
  (forall p y w, allSpace w -> allSpace (g p y w)) ->
  Forall wfEntry l -> Forall wfEntry (mapPrev g prev l).
Proof.
  intros Hg Hl. revert prev. induction Hl as [|[w y] l [Hw Hy] Hl IH]; intros prev; simpl.
  - constructor.
  - constructor; [split; simpl; auto | apply IH].
Qed.

Lemma lastOr_mapPrev g prev l : lastOr prev (mapPrev g prev l) = lastOr prev l.
Proof. revert prev. induction l as [|[w y] l IH]; intros prev; simpl; auto. Qed.

Lemma mapPrev_compose g1 g2 prev l :
  mapPrev g2 prev (mapPrev g1 prev l) = mapPrev (fun p y w => g2 p y (g1 p y w)) prev l.
Proof. revert prev. induction l as [|[w y] l IH]; intros prev; simpl; [auto|]. now rewrite IH. Qed.

Lemma mapPrev_ext g g' prev l :
  (forall p y w, allSpace w -> isSpace y = false -> g p y w = g' p y w) ->
  Forall wfEntry l -> mapPrev g prev l = mapPrev g' prev l.
Proof.
  intros Hg Hl. revert prev. induction Hl as [|[w y] l [Hw Hy] Hl IH]; intros prev; simpl; [auto|].
  rewrite IH. now rewrite Hg.
Qed.

(** *** The passes of [normalizeSelector] on cut strings *)

Definition gTrim (prev : option N) (y : N) (w : jsstring) : jsstring :=
  match prev with None => [] | Some _ => w end.

Definition collapseRun (w : jsstring) : jsstring :=
  match w with [] => [] | _ :: _ => [SP] end.

Definition gAround (x : N) (pre post : jsstring) (prev : option N) (y : N) (w : jsstring) : jsstring :=
  (if decide (prev = Some x) then post else if y =? x then [] else w)
  ++ (if y =? x then pre else []).

Definition tAround (x : N) (post : jsstring) (prev : option N) (tl : jsstring) : jsstring :=
  if decide (prev = Some x) then post else tl.

Lemma trimEnd_allSpace (w : jsstring) : allSpace w -> trimEnd w = [].
Proof.
  induction w as [|c w IH]; [reflexivity|]. intros H.
  apply allSpace_cons in H as [Hc Hw]. simpl. rewrite (IH Hw), Hc. reflexivity.
Qed.

Lemma trimEnd_app (a b : jsstring) : trimEnd b <> [] -> trimEnd (a ++ b) = a ++ trimEnd b.
Proof.
  intros Hb. induction a as [|c a IH]; [reflexivity|]. simpl. rewrite IH.
  destruct (a ++ trimEnd b) eqn:E; [|reflexivity].
  apply app_eq_nil in E as [_ E]. contradiction.
Qed.

Lemma trimEnd_unparse (l : list (jsstring * N)) (tl : jsstring) (y : N) :
  Forall wfEntry l -> allSpace tl -> isSpace y = false ->
  trimEnd (y :: unparseL l tl) = y :: unparseL l [].
Proof.
  intros Hl Htl. revert y. induction Hl as [|[w y'] l [Hw Hy'] Hl IH]; intros y Hy.
  - simpl. rewrite (trimEnd_allSpace tl Htl), Hy. reflexivity.
  - cbn [unparseL]. change (y :: w ++ y' :: unparseL l tl) with ((y :: w) ++ y' :: unparseL l tl).
    rewrite trimEnd_app; rewrite (IH y' Hy'); [reflexivity | discriminate].
Qed.

Lemma mapPrev_gTrim_Some (x : N) (l : list (jsstring * N)) : mapPrev gTrim (Some x) l = l.
Proof. revert x. induction l as [|[w y] l IH]; intros x; simpl; [auto|]. now rewrite IH. Qed.

Lemma trim_segs (l : list (jsstring * N)) (tl : jsstring) :
  Forall wfEntry l -> allSpace tl ->
  trim (unparseL l tl) = unparseL (mapPrev gTrim None l) [].
Proof.
  intros Hl Htl. unfold trim, trimStart. destruct Hl as [|[w y] l [Hw Hy] Hl].
  - simpl. now rewrite skipSpaces_allSpace.
  - simpl in *. rewrite skipSpaces_run by assumption.
    rewrite trimEnd_unparse by assumption. now rewrite mapPrev_gTrim_Some.
Qed.

Lemma collapse_segs (l : list (jsstring * N)) (tl : jsstring) (prev : option N) :
  Forall wfEntry l -> allSpace tl ->
  replaceAll reSpaces [SP] (unparseL l tl)
  = unparseL (mapPrev (fun _ _ => collapseRun) prev l) (collapseRun tl).
Proof.
  intros Hl Htl. revert prev. induction Hl as [|[w y] l [Hw Hy] Hl IH]; intros prev.
  - simpl. destruct tl as [|c t]; [reflexivity|].
    apply allSpace_cons in Htl as [Hc Ht].
    rewrite replaceAll_cons by (apply reSpaces_progressive || apply plainRepl_SP). simpl. rewrite Hc.
    now rewrite skipSpaces_allSpace.
  - simpl in *. assert (Hy' : replaceAll reSpaces [SP] (y :: unparseL l tl)
        = y :: unparseL (mapPrev (fun _ _ => collapseRun) (Some y) l) (collapseRun tl)).
    { rewrite replaceAll_cons by (apply reSpaces_progressive || apply plainRepl_SP). simpl. rewrite Hy. now rewrite (IH (Some y)). }
    destruct w as [|c w]; [exact Hy'|].
    apply allSpace_cons in Hw as [Hc Hw].
    rewrite <- app_comm_cons. rewrite replaceAll_cons by (apply reSpaces_progressive || apply plainRepl_SP).
    simpl. rewrite Hc. rewrite skipSpaces_run by assumption. now rewrite Hy'.
Qed.

Section Around.
Variable x : N.
Variables pre post : jsstring.
Hypothesis x_not_space : isSpace x = false.

Hypothesis rep_plain : plainRepl (pre ++ x :: post).

Let rep : jsstring := pre ++ x :: post.

Lemma around_tail (tl : jsstring) :
  allSpace tl -> replaceAll (reAround x) rep tl = tl.
Proof.
  induction tl as [|c t IH]; [reflexivity|]. intros H.
  rewrite replaceAll_cons by (apply reAround_progressive || apply rep_plain).
  unfold reAround at 1. rewrite (skipSpaces_allSpace _ H). cbv beta iota.
  apply allSpace_cons in H as [_ H]. now rewrite IH.
Qed.

Lemma around_keep (w : jsstring) (y : N) (r : jsstring) :
  allSpace w -> isSpace y = false -> y <> x ->
  replaceAll (reAround x) rep (w ++ y :: r) = w ++ y :: replaceAll (reAround x) rep r.
Proof.
  intros Hw Hy Hne. apply N.eqb_neq in Hne.
  assert (E : forall v, allSpace v -> reAround x (v ++ y :: r) = None).
  { intros v Hv. unfold reAround. rewrite (skipSpaces_run v y r Hv Hy). now rewrite Hne. }
  induction w as [|c w IH].
  - pose proof (E [] allSpace_nil) as E0. cbn [app] in *.
    rewrite replaceAll_cons by (apply reAround_progressive || apply rep_plain). now rewrite E0.
  - pose proof (E (c :: w) Hw) as E0. cbn [app] in *.
    rewrite replaceAll_cons by (apply reAround_progressive || apply rep_plain). rewrite E0.
    apply allSpace_cons in Hw as [_ Hw]. now rewrite IH.
Qed.

Lemma around_hit (w r : jsstring) :
  allSpace w ->
  replaceAll (reAround x) rep (w ++ x :: r)
  = rep ++ replaceAll (reAround x) rep (skipSpaces r).
Proof.
  intros Hw.
  assert (E : reAround x (w ++ x :: r) = Some ([], skipSpaces r)).
  { unfold reAround. rewrite (skipSpaces_run w x r Hw x_not_space). now rewrite N.eqb_refl. }
  destruct w as [|c w]; simpl in *.
  - rewrite replaceAll_cons by (apply reAround_progressive || apply rep_plain). now rewrite E.
  - rewrite replaceAll_cons by (apply reAround_progressive || apply rep_plain). now rewrite E.
Qed.

Lemma around_segs (l : list (jsstring * N)) (tl : jsstring) :
  Forall wfEntry l -> allSpace tl ->
  (forall prev, prev <> Some x ->
     replaceAll (reAround x) rep (unparseL l tl)
     = unparseL (mapPrev (gAround x pre post) prev l) (tAround x post (lastOr prev l) tl))
  /\ post ++ replaceAll (reAround x) rep (skipSpaces (unparseL l tl))
     = unparseL (mapPrev (gAround x pre post) (Some x) l)
         (tAround x post (lastOr (Some x) l) tl).
Proof.
  intros Hl Htl. induction Hl as [|[w y] l [Hw Hy] Hl [IHa IHb]]; simpl in *.
  - split.
    + intros prev Hp. unfold tAround. rewrite decide_False by assumption.
      now apply around_tail.
    + unfold tAround. rewrite decide_True by reflexivity.
      rewrite skipSpaces_allSpace by assumption. simpl. now rewrite app_nil_r.
  - unfold gAround at 1 3. destruct (N.eqb_spec y x) as [->|Hne].
    + split.
      * intros prev Hp. rewrite decide_False by assumption. simpl.
        rewrite around_hit by assumption. unfold rep. rewrite <- !app_assoc. simpl.
        f_equal. f_equal. exact IHb.
      * rewrite decide_True by reflexivity.
        rewrite skipSpaces_run by assumption.
        pose proof (around_hit [] (unparseL l tl) allSpace_nil) as E. cbn [app] in E.
        rewrite E. unfold rep.
        rewrite <- !app_assoc. simpl. f_equal. f_equal. f_equal. exact IHb.
    + assert (Hp : Some y <> Some x) by congruence. split.
      * intros prev Hprev. rewrite decide_False by assumption. rewrite app_nil_r.
        rewrite around_keep by assumption. now rewrite (IHa (Some y) Hp).
      * rewrite decide_True by reflexivity. rewrite app_nil_r.
        rewrite skipSpaces_run by assumption.
        pose proof (around_keep [] y (unparseL l tl) allSpace_nil Hy Hne) as E.
        cbn [app] in E. rewrite E.
        now rewrite (IHa (Some y) Hp).
Qed.

End Around.

(** *** [normalizeSelector] on cut strings, and its idempotence *)

Definition gNorm (prev : option N) (y : N) (w : jsstring) : jsstring :=
  gAround COMMA [] [SP] prev y
    (gAround GT [SP] [SP] prev y (collapseRun (gTrim prev y w))).

Definition tNorm (last : option N) : jsstring :=
  tAround COMMA [SP] last (tAround GT [SP] last []).

Lemma collapseRun_allSpace (w : jsstring) : allSpace (collapseRun w).
Proof. destruct w; reflexivity. Qed.

Lemma gAround_allSpace x pre post prev y w :
  allSpace pre -> allSpace post -> allSpace w -> allSpace (gAround x pre post prev y w).
Proof.
  intros Hpre Hpost Hw. unfold gAround. apply allSpace_app.
  - destruct (decide (prev = Some x)); [assumption|].
    destruct (y =? x); [apply allSpace_nil | assumption].
  - destruct (y =? x); [assumption | apply allSpace_nil].
Qed.

Lemma tAround_allSpace x post prev tl :
  allSpace post -> allSpace tl -> allSpace (tAround x post prev tl).
Proof. intros Hpost Htl. unfold tAround. destruct (decide (prev = Some x)); assumption. Qed.

Lemma gTrim_allSpace prev y w : allSpace w -> allSpace (gTrim prev y w).
Proof. destruct prev; simpl; [auto | intros _; apply allSpace_nil]. Qed.

Lemma gNorm_allSpace prev y w : allSpace w -> allSpace (gNorm prev y w).
Proof.
  intros Hw. unfold gNorm.
  repeat apply gAround_allSpace; try reflexivity. apply collapseRun_allSpace.
Qed.

Lemma tNorm_allSpace last : allSpace (tNorm last).
Proof. unfold tNorm. repeat apply tAround_allSpace; reflexivity. Qed.

Lemma normalizeSelector_segs (l : list (jsstring * N)) (tl : jsstring) :
  Forall wfEntry l -> allSpace tl ->
  normalizeSelector (unparseL l tl) = unparseL (mapPrev gNorm None l) (tNorm (lastOr None l)).
Proof.
  intros Hl Htl. unfold normalizeSelector.
  rewrite (trim_segs l tl Hl Htl).
  pose proof (mapPrev_wf gTrim None l gTrim_allSpace Hl) as H1.
  rewrite (collapse_segs _ [] None H1 allSpace_nil).
  rewrite mapPrev_compose.
  pose proof (mapPrev_wf (fun p y w => collapseRun (gTrim p y w)) None l
                (fun p y w _ => collapseRun_allSpace _) Hl) as H2.
  destruct (around_segs GT [SP] [SP] eq_refl plainRepl_GT _ (collapseRun []) H2 allSpace_nil) as [E3 _].
  cbn [app] in E3. rewrite (E3 None) by discriminate. clear E3.
  rewrite mapPrev_compose, lastOr_mapPrev.
  match goal with |- context [unparseL (mapPrev ?g None l) ?t] =>
    assert (H3 : Forall wfEntry (mapPrev g None l));
    [apply mapPrev_wf; [|assumption] | assert (Ht : allSpace t)] end.
  { intros p y w Hw. apply gAround_allSpace; try reflexivity. apply collapseRun_allSpace. }
  { apply tAround_allSpace; reflexivity. }
  destruct (around_segs COMMA [] [SP] eq_refl plainRepl_COMMA _ _ H3 Ht) as [E4 _].
  cbn [app] in E4. rewrite (E4 None) by discriminate. clear E4.
  rewrite mapPrev_compose, lastOr_mapPrev. reflexivity.
Qed.

Lemma gNorm_idem (prev : option N) (y : N) (w : jsstring) :
  allSpace w -> isSpace y = false -> gNorm prev y (gNorm prev y w) = gNorm prev y w.
Proof.
  intros _ _. unfold gNorm, gAround, gTrim.
  destruct prev as [x|]; repeat case_decide;
    destruct (N.eqb_spec y GT); destruct (N.eqb_spec y COMMA); subst;
    try discriminate; try congruence; destruct w; reflexivity.
Qed.

Example normalizeSelector_child :
  normalizeSelector (js ".x >.y") = js ".x > .y"
  /\ normalizeSelector (js ".x > .y") = js ".x > .y".
Proof. split; reflexivity. Qed.

Example normalizeSelector_list :
  normalizeSelector (js "  h1 ,h2   p>a ") = js "h1, h2 p > a".
Proof. reflexivity. Qed.

(** Two child combinators in a row keep two spaces between them, and the
    result is stable all the same. *)
Example normalizeSelector_twice :
  normalizeSelector (js "a>>b") = js "a >  > b"
  /\ normalizeSelector (js "a >  > b") = js "a >  > b".
Proof. split; reflexivity. Qed.

(** C8. Selector normalisation is idempotent: normalising a normalised
    selector gives it back, for every selector string. *)
Theorem normalizeSelector_idempotent (s : jsstring) :
  normalizeSelector (normalizeSelector s) = normalizeSelector s.
Proof.
  destruct (parse_wf s [] allSpace_nil) as [Hl Htl].
  pose proof (unparse_parse s []) as E. cbn [app] in E.
  rewrite <- E, (normalizeSelector_segs _ _ Hl Htl).
  rewrite normalizeSelector_segs;
    [| apply mapPrev_wf; [apply gNorm_allSpace | assumption] | apply tNorm_allSpace].
  rewrite mapPrev_compose, lastOr_mapPrev.
  f_equal. apply mapPrev_ext; [|assumption].
  intros p y w Hw Hy. now apply gNorm_idem.
Qed.

(** ** The structured mutation engine *)

Lemma walkList_map {A : Type} (f : A -> Exc (A * bool)) (s g : A -> A) (h : A -> bool)
    (l : list A) :
  Forall (fun x => f (s x) = Ret (g x, h x)) l ->
  walkList f (map s l) = Ret (map g l, existsb h l).
Proof.
  induction 1 as [|x l Hx Hl IH]; [reflexivity|].
  cbn [map walkList existsb]. rewrite Hx. cbn. rewrite IH. reflexivity.
Qed.

Lemma walkList_id {A : Type} (f : A -> Exc (A * bool)) (g : A -> A) (h : A -> bool)
    (l : list A) :
  Forall (fun x => f x = Ret (g x, h x)) l ->
  walkList f l = Ret (map g l, existsb h l).
Proof.
  intros Hl. rewrite <- (map_id l) at 1. now apply walkList_map.
Qed.

Lemma walkList_unchanged {A : Type} (f : A -> Exc (A * bool)) (l : list A) :
  Forall (fun x => f x = Ret (x, false)) l -> walkList f l = Ret (l, false).
Proof.
  induction 1 as [|x l Hx Hl IH]; [reflexivity|].
  cbn [walkList]. rewrite Hx. cbn. rewrite IH. reflexivity.
Qed.

Lemma walkList_snoc {A : Type} (f : A -> Exc (A * bool)) (l l' : list A) (m : bool) (d : A) :
  walkList f l = Ret (l', m) -> f d = Ret (d, false) ->
  walkList f (l ++ [d]) = Ret (l' ++ [d], m).
Proof.
  revert l' m. induction l as [|x l IH]; intros l' m Hl Hd.
  - cbn in Hl. injection Hl as <- <-. cbn. rewrite Hd. reflexivity.
  - cbn [app walkList] in *. destruct (f x) as [[x' m1]|e]; [|discriminate].
    cbn in *. destruct (walkList f l) as [[t' m2]|e]; [|discriminate].
    cbn in *. injection Hl as <- <-. rewrite (IH t' m2 eq_refl Hd). reflexivity.
Qed.

Section MutationProps.
Context `{CssTree} `{RegExpEngine}.
Variable change : CssChange.

(** Induction on nodes, with the property for the nodes of a block. *)
Lemma node_nested_ind (P : cssnode -> Prop) :
  (forall pre blk, Forall P blk -> P (Rule pre blk)) ->
  (forall nm pre blk, Forall P blk -> P (Atrule nm pre (Some blk))) ->
  (forall nm pre, P (Atrule nm pre None)) ->
  (forall imp p v, P (Declaration imp p v)) ->
  (forall text, P (Raw text)) ->
  forall n, P n.
Proof.
  intros HR HA HA0 HD HW. fix IH 1. intros [pre blk|nm pre [blk|]|imp p v|text].
  - apply HR. induction blk as [|x l IHl]; constructor; [apply IH | exact IHl].
  - apply HA. induction blk as [|x l IHl]; constructor; [apply IH | exact IHl].
  - apply HA0.
  - apply HD.
  - apply HW.
Qed.

Section WithValue.
Variable v : Value.

Hypothesis value_parses : parseValue (value change) = Ret v.

Lemma visitDeclaration_spec (n : cssnode) :
  visitDeclaration change n = Ret (setDeep change v n, hasProperty change n).
Proof.
  induction n as [pre blk IH|nm pre blk IH|nm pre|imp p val|text] using node_nested_ind;
    cbn [visitDeclaration setDeep hasProperty]; try reflexivity.
  - rewrite (walkList_id _ (setDeep change v) (hasProperty change) blk IH). reflexivity.
  - rewrite (walkList_id _ (setDeep change v) (hasProperty change) blk IH). reflexivity.
  - destruct (bool_decide (p = property change)); [|reflexivity].
    rewrite value_parses. reflexivity.
Qed.

Lemma setDeep_idem (n : cssnode) : setDeep change v (setDeep change v n) = setDeep change v n.
Proof.
  induction n as [pre blk IH|nm pre blk IH|nm pre|imp p val|text] using node_nested_ind;
    cbn [setDeep]; try reflexivity.
  - f_equal. rewrite map_map. apply map_ext_Forall. exact IH.
  - do 2 f_equal. rewrite map_map. apply map_ext_Forall. exact IH.
  - destruct (bool_decide (p = property change)) eqn:E; cbn [setDeep]; now rewrite E.
Qed.

Lemma hasProperty_setDeep (n : cssnode) : hasProperty change (setDeep change v n) = hasProperty change n.
Proof.
  induction n as [pre blk IH|nm pre blk IH|nm pre|imp p val|text] using node_nested_ind;
    cbn [setDeep hasProperty]; try reflexivity.
  - induction IH as [|x l Hx Hl IHl]; [reflexivity|]. cbn. now rewrite Hx, IHl.
  - induction IH as [|x l Hx Hl IHl]; [reflexivity|]. cbn. now rewrite Hx, IHl.
  - destruct (bool_decide (p = property change)) eqn:E; cbn [hasProperty]; now rewrite E.
Qed.

Lemma existsb_hasProperty_setDeep (blk : list cssnode) :
  existsb (hasProperty change) (map (setDeep change v) blk) = existsb (hasProperty change) blk.
Proof.
  induction blk as [|x l IH]; [reflexivity|]. cbn. now rewrite hasProperty_setDeep, IH.
Qed.

Lemma depth_children (k : nat) (blk : list cssnode) :
  (S (list_max (map depth blk)) <= S k)%nat -> Forall (fun x => (depth x <= k)%nat) blk.
Proof.
  intros Hk. assert (Hm : (list_max (map depth blk) <= k)%nat) by lia.
  apply list_max_le in Hm. apply List.Forall_map in Hm. exact Hm.
Qed.

(** The callback on the block of a rule with the selector of the change,
    be the block fresh or already visited by the callback of a rule around
    it. *)
Lemma enterRule_match (pre : Prelude) (blk : list cssnode) :
  selectorMatches change pre = true ->
  enterRule change pre blk
  = Ret (if existsb (hasProperty change) blk then map (setDeep change v) blk
         else map (setDeep change v) blk ++ [Declaration NotImportant (property change) v], true)
  /\ enterRule change pre (map (setDeep change v) blk)
  = Ret (if existsb (hasProperty change) blk then map (setDeep change v) blk
         else map (setDeep change v) blk ++ [Declaration NotImportant (property change) v], true).
Proof.
  intros Hm. unfold enterRule. rewrite Hm.
  assert (E : forall l, walkList (visitDeclaration change) l
                        = Ret (map (setDeep change v) l, existsb (hasProperty change) l)).
  { intros l. apply walkList_id. apply Forall_forall. intros x _. apply visitDeclaration_spec. }
  rewrite !E. cbn. rewrite existsb_hasProperty_setDeep.
  rewrite map_map. rewrite (map_ext _ _ setDeep_idem).
  destruct (existsb (hasProperty change) blk); [split; reflexivity|].
  rewrite value_parses. split; reflexivity.
Qed.

Lemma visitRule_declaration (k : nat) imp p val :
  visitRule change k (Declaration imp p val) = Ret (Declaration imp p val, false).
Proof. destruct k; reflexivity. Qed.

Lemma visitRule_spec (k : nat) :
  forall n, (depth n <= k)%nat ->
    visitRule change k n = Ret (afterWalk change v false n, ruleMatches change n)
    /\ visitRule change k (setDeep change v n) = Ret (afterWalk change v true n, ruleMatches change n).
Proof.
  induction k as [|k IH]; intros [pre blk|nm pre [blk|]|imp p val|text] Hd;
    cbn [depth] in Hd; try lia;
    cbn [setDeep afterWalk ruleMatches]; try (split; reflexivity).
  - destruct (bool_decide (p = property change)); split; reflexivity.
  - (* a rule *)
    apply depth_children in Hd.
    assert (IH1 : Forall (fun x => visitRule change k x
                                   = Ret (afterWalk change v false x, ruleMatches change x)) blk).
    { eapply Forall_impl; [exact Hd|]. intros x Hx. now apply IH. }
    assert (IH2 : Forall (fun x => visitRule change k (setDeep change v x)
                                   = Ret (afterWalk change v true x, ruleMatches change x)) blk).
    { eapply Forall_impl; [exact Hd|]. intros x Hx. now apply IH. }
    pose proof (walkList_map _ (setDeep change v) (afterWalk change v true)
                  (ruleMatches change) blk IH2) as W2.
    cbn [visitRule]. destruct (selectorMatches change pre) eqn:Hm.
    + destruct (enterRule_match pre blk Hm) as [-> ->].
      rewrite orb_true_r. cbn [orb andb].
      destruct (existsb (hasProperty change) blk); cbn [negb].
      * cbn. rewrite W2. split; reflexivity.
      * cbn. rewrite (walkList_snoc _ _ _ _ _ W2 (visitRule_declaration k _ _ _)).
        split; reflexivity.
    + unfold enterRule. rewrite Hm. rewrite orb_false_r. cbn [orb andb].
      cbn. rewrite W2, (walkList_id _ _ _ _ IH1). split; reflexivity.
  - (* an at-rule with a block *)
    apply depth_children in Hd.
    assert (IH1 : Forall (fun x => visitRule change k x
                                   = Ret (afterWalk change v false x, ruleMatches change x)) blk).
    { eapply Forall_impl; [exact Hd|]. intros x Hx. now apply IH. }
    assert (IH2 : Forall (fun x => visitRule change k (setDeep change v x)
                                   = Ret (afterWalk change v true x, ruleMatches change x)) blk).
    { eapply Forall_impl; [exact Hd|]. intros x Hx. now apply IH. }
    cbn [visitRule].
    rewrite (walkList_map _ (setDeep change v) (afterWalk change v true)
                  (ruleMatches change) blk IH2).
    rewrite (walkList_id _ _ _ _ IH1). split; reflexivity.
  - destruct (bool_decide (p = property change)); split; reflexivity.
Qed.

Lemma walkRules_spec (ast : list cssnode) :
  walkRules change ast = Ret (map (afterWalk change v false) ast, existsb (ruleMatches change) ast).
Proof.
  unfold walkRules. apply walkList_id.
  assert (Hd : Forall (fun x => (depth x <= list_max (map depth ast))%nat) ast).
  { apply (List.Forall_map depth (fun d => (d <= list_max (map depth ast))%nat)).
    now apply list_max_le. }
  eapply Forall_impl; [exact Hd|]. intros x Hx. now apply visitRule_spec.
Qed.

(** The engine on a fragment that parses, with a value that parses. *)
Lemma modifyCssContent_structured (css : jsstring) (ast : list cssnode) :
  parse css = Ret ast ->
  modifyCssContent change css
  = Ret (if existsb (ruleMatches change) ast
         then {| modified := true;
                 content := generate (map (afterWalk change v false) ast) |}
         else {| modified := false; content := css |}).
Proof.
  intros Hparse. unfold modifyCssContent. rewrite Hparse. cbn.
  rewrite walkRules_spec. cbn.
  destruct (existsb (ruleMatches change) ast); reflexivity.
Qed.

End WithValue.

(** ** The walk and the words of the specification

    The tree that the walk leaves is the tree of the specification when the
    property is declared, in the block of a rule with the selector, by the
    declarations of the block itself only. *)

Section BySpec.
Variable v : Value.

Lemma afterWalk_mutateBySpec (n : cssnode) :
  declaredInOwnBlock change n = true ->
  afterWalk change v false n = mutateBySpec change v n
  /\ (hasProperty change n = false ->
      afterWalk change v true n = mutateBySpec change v n).
Proof.
  induction n as [pre blk IH|nm pre blk IH|nm pre|imp p val|text] using node_nested_ind;
    cbn [declaredInOwnBlock afterWalk mutateBySpec hasProperty]; intros Hflat;
    try (split; [reflexivity | intros _; reflexivity]).
  - (* a rule *)
    apply andb_true_iff in Hflat as [Hown Hflat].
    rewrite forallb_forall in Hflat.
    assert (IHf : map (afterWalk change v false) blk = map (mutateBySpec change v) blk).
    { apply map_ext_Forall. rewrite Forall_forall in IH |- *. intros x Hx.
      apply (IH x Hx). apply Hflat. now apply list_elem_of_In. }
    assert (IHt : existsb (hasProperty change) blk = false ->
                  map (afterWalk change v true) blk = map (mutateBySpec change v) blk).
    { intros Hno. apply map_ext_Forall. rewrite Forall_forall in IH |- *. intros x Hx.
      apply (IH x Hx); [apply Hflat; now apply list_elem_of_In|].
      destruct (hasProperty change x) eqn:E; [|reflexivity].
      rewrite <- Hno. symmetry. apply existsb_exists. exists x.
      split; [now apply list_elem_of_In | exact E]. }
    destruct (selectorMatches change pre) eqn:Hm.
    + rewrite orb_true_r. cbn [orb andb].
      rewrite forallb_forall in Hown.
      assert (Hex : existsb (hasProperty change) blk = existsb (ownDeclaration change) blk).
      { clear IH IHf IHt Hflat. induction blk as [|x l IHl]; [reflexivity|].
        cbn [existsb]. rewrite IHl by (intros y Hy; apply Hown; now right). f_equal.
        specialize (Hown x (or_introl eq_refl)).
        destruct x as [pre' blk'|nm' pre' [blk'|]|imp' p' val'|text']; cbn in *;
          try reflexivity; now apply negb_true_iff in Hown. }
      assert (Hmap : map (afterWalk change v true) blk
                     = map (setOwn change v) (map (mutateBySpec change v) blk)).
      { rewrite map_map. apply map_ext_Forall. rewrite Forall_forall in IH |- *.
        intros x Hx. pose proof (Hown x (proj1 (list_elem_of_In _ _) Hx)) as Hx'.
        destruct x as [pre' blk'|nm' pre' [blk'|]|imp' p' val'|text'];
          try reflexivity.
        - apply negb_true_iff in Hx'.
          rewrite (proj2 (IH _ Hx (Hflat _ (proj1 (list_elem_of_In _ _) Hx))) Hx').
          reflexivity.
        - apply negb_true_iff in Hx'.
          rewrite (proj2 (IH _ Hx (Hflat _ (proj1 (list_elem_of_In _ _) Hx))) Hx').
          reflexivity. }
      assert (E : Rule pre (if negb (existsb (hasProperty change) blk)
                            then map (afterWalk change v true) blk
                                 ++ [Declaration NotImportant (property change) v]
                            else map (afterWalk change v true) blk)
                  = Rule pre (if existsb (ownDeclaration change) blk
                              then map (setOwn change v) (map (mutateBySpec change v) blk)
                              else map (mutateBySpec change v) blk
                                   ++ [Declaration NotImportant (property change) v])).
      { rewrite <- Hex. destruct (existsb (hasProperty change) blk) eqn:Hp; cbn [negb].
        - now rewrite Hmap.
        - now rewrite (IHt eq_refl). }
      split; [exact E | intros _; exact E].
    + rewrite orb_false_r. cbn [orb andb]. split; [now rewrite IHf|].
      intros Hno. now rewrite (IHt Hno).
  - (* an at-rule with a block *)
    rewrite forallb_forall in Hflat. split.
    + do 2 f_equal. apply map_ext_Forall. rewrite Forall_forall in IH |- *. intros x Hx.
      apply (IH x Hx). apply Hflat. now apply list_elem_of_In.
    + intros Hno. do 2 f_equal. apply map_ext_Forall. rewrite Forall_forall in IH |- *.
      intros x Hx. apply (IH x Hx); [apply Hflat; now apply list_elem_of_In|].
      destruct (hasProperty change x) eqn:E; [|reflexivity].
      rewrite <- Hno. symmetry. apply existsb_exists. exists x.
      split; [now apply list_elem_of_In | exact E].
  - (* a declaration *)
    split; [reflexivity|]. intros Hno. cbn [andb]. now rewrite Hno.
Qed.

End BySpec.

Lemma existsb_false_elem (blk : list cssnode) (x : cssnode) :
  existsb (ruleMatches change) blk = false -> x ∈ blk -> ruleMatches change x = false.
Proof.
  intros Hb Hx. destruct (ruleMatches change x) eqn:E; [|reflexivity].
  rewrite <- Hb. symmetry. apply existsb_exists. exists x.
  split; [now apply list_elem_of_In | assumption].
Qed.

Lemma visitRule_no_match (k : nat) (n : cssnode) :
  ruleMatches change n = false -> visitRule change k n = Ret (n, false).
Proof.
  revert n. induction k as [|k IH]; intros [pre blk|nm pre [blk|]|imp p val|text] Hn;
    cbn [ruleMatches] in Hn; cbn [visitRule]; try reflexivity.
  - apply orb_false_iff in Hn as [Hm _]. unfold enterRule. rewrite Hm. reflexivity.
  - apply orb_false_iff in Hn as [Hm Hb]. unfold enterRule. rewrite Hm. cbn.
    rewrite (walkList_unchanged _ blk); [reflexivity|].
    apply Forall_forall. intros x Hx. apply IH. now apply (existsb_false_elem blk).
  - rewrite (walkList_unchanged _ blk); [reflexivity|].
    apply Forall_forall. intros x Hx. apply IH. now apply (existsb_false_elem blk).
Qed.

Lemma walkRules_no_match (ast : list cssnode) :
  existsb (ruleMatches change) ast = false -> walkRules change ast = Ret (ast, false).
Proof.
  intros Hn. unfold walkRules. apply walkList_unchanged.
  apply Forall_forall. intros x Hx. apply visitRule_no_match.
  now apply (existsb_false_elem ast).
Qed.

End MutationProps.

Section MutationTheorems.
Context `{CssTree} `{RegExpEngine}.

(** C3, as the code has it.  On a fragment that parses, with a change
    whose value parses, and with the property declared, in the block of a
    rule with the selector, by the declarations of the block itself only
    (none inside a rule or at-rule nested in it): the mutation engine
    reports a modification exactly when some rule has the selector of the
    change up to normalisation, and the new content is the generated text of
    the tree in which every such rule (not only the first) is handled as the
    specification says: when its block has a declaration of the property,
    each of them gets the parsed value, and otherwise a new declaration of
    the property and value stands at the end of the block. *)
Theorem modifyCssContent_updates_every_matching_rule
    (change : CssChange) (css : jsstring) (ast : list cssnode) (v : Value) :
  parse css = Ret ast ->
  parseValue (value change) = Ret v ->
  forallb (declaredInOwnBlock change) ast = true ->
  modifyCssContent change css
  = Ret (if existsb (ruleMatches change) ast
         then {| modified := true;
                 content := generate (map (mutateBySpec change v) ast) |}
         else {| modified := false; content := css |}).
Proof.
  intros Hparse Hvalue Hown.
  rewrite (modifyCssContent_structured change v Hvalue css ast Hparse).
  destruct (existsb (ruleMatches change) ast); [|reflexivity].
  do 3 f_equal. apply map_ext_Forall. apply Forall_forall. intros x Hx.
  apply afterWalk_mutateBySpec. rewrite forallb_forall in Hown. apply Hown.
  now apply list_elem_of_In.
Qed.

(** C5. On a fragment that parses and in which no rule has the selector of
    the change up to normalisation, the mutation engine reports no
    modification and returns the fragment itself. *)
Theorem modifyCssContent_no_matching_rule
    (change : CssChange) (css : jsstring) (ast : list cssnode) :
  parse css = Ret ast ->
  existsb (ruleMatches change) ast = false ->
  modifyCssContent change css = Ret {| modified := false; content := css |}.
Proof.
  intros Hparse Hno. unfold modifyCssContent. rewrite Hparse. cbn.
  rewrite (walkRules_no_match change ast Hno). reflexivity.
Qed.

End MutationTheorems.

Lemma modifyCssContent_updates_every_matching_rule_witness :
  @modifyCssContent sampleCss sampleEngine (sampleChange "h1" "color" "red")
    (js "h1 {color: blue} p {margin: 0} h1{}")
  = Ret {| modified := true; content := js "h1{color:red;}p{margin:0;}h1{color:red;}" |}.
Proof.
  exact (@modifyCssContent_updates_every_matching_rule sampleCss sampleEngine
           (sampleChange "h1" "color" "red")
           (js "h1 {color: blue} p {margin: 0} h1{}") _ _ eq_refl eq_refl eq_refl).
Defined.

(** C3, as stated, fails for a value that css-tree rejects: the fragment
    parses and its rule has the selector of the change up to normalisation,
    but the walk throws at the value, the fallback looks for the selector
    as it is written, and the rule is left as it was. *)
Lemma modifyCssContent_value_rejected_leaves_rule :
  @parse sampleCss (js "ul>li{color:blue}")
  = Ret [Rule (js "ul>li") [Declaration NotImportant (js "color") (js "blue")]]
  /\ selectorEq (js "ul>li") (js "ul > li") = true
  /\ @modifyCssContent sampleCss sampleEngine
       (sampleChange "ul > li" "color" "red !important") (js "ul>li{color:blue}")
     = Ret {| modified := false; content := js "ul>li{color:blue}" |}.
Proof. repeat split; vm_compute; reflexivity. Qed.

Lemma modifyCssContent_no_matching_rule_witness :
  @modifyCssContent sampleCss sampleEngine (sampleChange "h2" "color" "red")
    (js "h1 {color: blue} p {margin: 0}")
  = Ret {| modified := false; content := js "h1 {color: blue} p {margin: 0}" |}.
Proof.
  exact (@modifyCssContent_no_matching_rule sampleCss sampleEngine
           (sampleChange "h2" "color" "red")
           (js "h1 {color: blue} p {margin: 0}") _ eq_refl eq_refl).
Defined.

(** The walk and nested rules: the walk over the declarations of a
    rule with the selector goes down into a rule nested in it, gives the
    declaration of that rule the new value, and then adds nothing to the
    block of the outer rule, where the specification adds a declaration to
    the block that has none of its own. *)
Example walkRules_reaches_nested_rule :
  @walkRules sampleCss (sampleChange "a" "color" "red")
    [Rule (js "a") [Rule (js "b") [Declaration NotImportant (js "color") (js "blue")]]]
  = Ret ([Rule (js "a") [Rule (js "b") [Declaration NotImportant (js "color") (js "red")]]],
         true)
  /\ map (@mutateBySpec sampleCss (sampleChange "a" "color" "red") (js "red"))
       [Rule (js "a") [Rule (js "b") [Declaration NotImportant (js "color") (js "blue")]]]
     = [Rule (js "a") [Rule (js "b") [Declaration NotImportant (js "color") (js "blue")];
                       Declaration NotImportant (js "color") (js "red")]].
Proof. split; vm_compute; reflexivity. Qed.

(** ** A value that css-tree rejects

    When the value of the change does not parse, the first rule with the
    selector of the change makes the walk throw, and the engine hands the
    fragment over to the fallback. *)

Lemma walkList_throws {A : Type} (f : A -> Exc (A * bool)) (h : A -> bool) (e : exn)
    (l : list A) :
  Forall (fun x => f x = if h x then Throw e else Ret (x, false)) l ->
  walkList f l = if existsb h l then Throw e else Ret (l, false).
Proof.
  induction 1 as [|x l Hx Hl IH]; [reflexivity|].
  cbn [walkList existsb]. rewrite Hx. destruct (h x); [reflexivity|].
  cbn. rewrite IH. now destruct (existsb h l).
Qed.

Section ValueRejected.
Context `{CssTree} `{RegExpEngine}.
Variable change : CssChange.
Variable e : exn.
Hypothesis value_rejected : parseValue (value change) = Throw e.

Lemma visitDeclaration_throws (n : cssnode) :
  visitDeclaration change n = if hasProperty change n then Throw e else Ret (n, false).
Proof.
  induction n as [pre blk IH|nm pre blk IH|nm pre|imp p val|text] using node_nested_ind;
    cbn [visitDeclaration hasProperty]; try reflexivity.
  - rewrite (walkList_throws _ (hasProperty change) e blk IH).
    now destruct (existsb (hasProperty change) blk).
  - rewrite (walkList_throws _ (hasProperty change) e blk IH).
    now destruct (existsb (hasProperty change) blk).
  - destruct (bool_decide (p = property change)); [|reflexivity].
    now rewrite value_rejected.
Qed.

Lemma enterRule_throws (pre : Prelude) (blk : list cssnode) :
  selectorMatches change pre = true -> enterRule change pre blk = Throw e.
Proof.
  intros Hm. unfold enterRule. rewrite Hm.
  rewrite (walkList_throws _ (hasProperty change) e blk).
  - destruct (existsb (hasProperty change) blk); [reflexivity|]. cbn.
    now rewrite value_rejected.
  - apply Forall_forall. intros x _. apply visitDeclaration_throws.
Qed.

Lemma visitRule_throws (k : nat) :
  forall n, (depth n <= k)%nat ->
    visitRule change k n = if ruleMatches change n then Throw e else Ret (n, false).
Proof.
  induction k as [|k IH]; intros [pre blk|nm pre [blk|]|imp p val|text] Hd;
    cbn [depth] in Hd; try lia; cbn [visitRule ruleMatches]; try reflexivity.
  - apply depth_children in Hd. destruct (selectorMatches change pre) eqn:Hm.
    + now rewrite enterRule_throws.
    + unfold enterRule. rewrite Hm. cbn.
      rewrite (walkList_throws _ (ruleMatches change) e blk).
      * now destruct (existsb (ruleMatches change) blk).
      * eapply Forall_impl; [exact Hd|]. intros x Hx. now apply IH.
  - apply depth_children in Hd.
    rewrite (walkList_throws _ (ruleMatches change) e blk).
    + now destruct (existsb (ruleMatches change) blk).
    + eapply Forall_impl; [exact Hd|]. intros x Hx. now apply IH.
Qed.

Lemma modifyCssContent_value_rejected (css : jsstring) (ast : list cssnode) :
  parse css = Ret ast ->
  existsb (ruleMatches change) ast = true ->
  modifyCssContent change css = applyWithRegex css change.
Proof.
  intros Hparse Hmatch. unfold modifyCssContent, walkRules. rewrite Hparse. cbn.
  rewrite (walkList_throws _ (ruleMatches change) e ast).
  - now rewrite Hmatch.
  - assert (Hd : Forall (fun x => (depth x <= list_max (map depth ast))%nat) ast).
    { apply (List.Forall_map depth (fun d => (d <= list_max (map depth ast))%nat)).
      now apply list_max_le. }
    eapply Forall_impl; [exact Hd|]. intros x Hx. now apply visitRule_throws.
Qed.

End ValueRejected.

(** ** Exceptions and lists *)

Lemma mapM_Exc_nil {A B : Type} (f : A -> Exc B) : mapM f [] = Ret [].
Proof. reflexivity. Qed.

Lemma mapM_Exc_cons {A B : Type} (f : A -> Exc B) (x : A) (l : list A) :
  mapM f (x :: l) = y ← f x; k ← mapM f l; Ret (y :: k).
Proof. reflexivity. Qed.

Lemma mapM_Exc_Ret {A B : Type} (f : A -> Exc B) (l : list A) (ys : list B) :
  mapM f l = Ret ys <-> Forall2 (fun x y => f x = Ret y) l ys.
Proof.
  revert ys. induction l as [|x l IH]; intros ys.
  - rewrite mapM_Exc_nil. split.
    + intros [= <-]. constructor.
    + intros Hys. inversion Hys. reflexivity.
  - rewrite mapM_Exc_cons. split.
    + destruct (f x) as [y|e] eqn:Ex; cbn; [|discriminate].
      destruct (mapM f l) as [k|e] eqn:El; cbn; [|discriminate].
      intros [= <-]. constructor; [assumption|]. now apply IH.
    + intros Hys. inversion Hys as [|? y ? k Hx Hl]; subst.
      rewrite Hx. cbn. apply IH in Hl. rewrite Hl. reflexivity.
Qed.

Lemma mapM_Exc_total {A B : Type} (f : A -> Exc B) (l : list A) :
  (forall x, exists y, f x = Ret y) -> exists ys, mapM f l = Ret ys.
Proof.
  intros Hf. induction l as [|x l [k IH]].
  - exists []. reflexivity.
  - destruct (Hf x) as [y Hy]. exists (y :: k).
    rewrite mapM_Exc_cons, Hy. cbn. rewrite IH. reflexivity.
Qed.

Lemma mapM_Exc_throws {A B : Type} (f : A -> Exc B) (l : list A) (x : A) :
  x ∈ l -> (exists e, f x = Throw e) -> exists e, mapM f l = Throw e.
Proof.
  intros Hx [e He]. induction l as [|y l IH]; [now apply elem_of_nil in Hx|].
  rewrite mapM_Exc_cons. destruct (f y) as [b|e'] eqn:Ey; cbn; [|eauto].
  apply elem_of_cons in Hx as [->|Hx]; [congruence|].
  destruct (IH Hx) as [e1 ->]. cbn. eauto.
Qed.

Lemma mapM_Exc_Throw {A B : Type} (f : A -> Exc B) (l : list A) (e : exn) :
  mapM f l = Throw e -> exists x, x ∈ l /\ f x = Throw e.
Proof.
  induction l as [|y l IH]; [discriminate|].
  rewrite mapM_Exc_cons. destruct (f y) as [b|e'] eqn:Ey; cbn.
  - destruct (mapM f l) as [k|e'] eqn:El; cbn; [discriminate|].
    intros [= ->]. destruct (IH eq_refl) as (x & Hx & Hfx). exists x. split; [now right | exact Hfx].
  - intros [= ->]. exists y. split; [now left | exact Ey].
Qed.

(** ** The fallback and the engine never throw on a plain property *)

Section NoThrow.
Context `{CssTree} `{RegExpEngine}.

Lemma patchPiece_total (change : CssChange) (p : piece) :
  plainPattern (property change) = true -> exists t, patchPiece change p = Ret t.
Proof.
  intros Hp. destruct p as [c|w g b a]; cbn; [eauto|].
  unfold patchBlock. rewrite Hp.
  destruct (regexTest _ _); eauto.
Qed.

Lemma applyWithRegex_total (change : CssChange) (css : jsstring) :
  plainPattern (property change) = true -> exists m, applyWithRegex css change = Ret m.
Proof.
  intros Hp. unfold applyWithRegex.
  destruct (mapM_Exc_total (patchPiece change) (scan (reSelectorBlock (selector change)) css))
    as [ts Hts].
  { intros p. now apply patchPiece_total. }
  rewrite Hts. cbn. eauto.
Qed.

Lemma modifyCssContent_total (change : CssChange) (css : jsstring) :
  plainPattern (property change) = true -> exists m, modifyCssContent change css = Ret m.
Proof.
  intros Hp. unfold modifyCssContent.
  destruct (applyWithRegex_total change css Hp) as [m Hm].
  destruct (parse css) as [ast|e]; cbn; [|eauto].
  destruct (walkRules change ast) as [[ast' b]|e]; cbn; [|eauto].
  destruct b; cbn; eauto.
Qed.

End NoThrow.

(** ** The application engine *)

Ltac run_io :=
  cbv [mbind IO_bind existsSync readFileSync liftExc writeFileSync mret IO_ret].

Section EngineProps.
Context `{CssTree} `{RegExpEngine} `{NodePath}.

(** [applyToCssFile], outcome by outcome. *)
Lemma applyToCssFile_cases (cssPath : jsstring) (change : CssChange) (w : world) :
  applyToCssFile cssPath change w
  = match files w !! resolve1 cssPath with
    | None => (Ret false, w)
    | Some en =>
        match readEntry cssPath (Some en) with
        | Throw e => (Throw e, w)
        | Ret css =>
            match modifyCssContent change css with
            | Throw e => (Throw e, w)
            | Ret r =>
                if modified r then
                  match writeError cssPath (Some en) with
                  | Some e => (Throw e, w)
                  | None => (Ret true, wrote cssPath (content r) w)
                  end
                else (Ret false, w)
            end
        end
    end.
Proof.
  unfold applyToCssFile. run_io.
  destruct (files w !! resolve1 cssPath) as [en|] eqn:E; cbn; rewrite ?E; [|reflexivity].
  destruct (readEntry cssPath (Some en)) as [css|e]; cbn; [|reflexivity].
  destruct (modifyCssContent change css) as [m|e]; cbn; [|reflexivity].
  destruct (modified m); cbn; [|reflexivity]. rewrite E.
  destruct (writeError cssPath (Some en)); reflexivity.
Qed.

(** A linked file is written at most once, and only when it is reported as
    modified; an exception leaves the files as they were. *)
Lemma applyToCssFile_writes (cssPath : jsstring) (change : CssChange) (w : world) :
  match applyToCssFile cssPath change w with
  | (Ret true, w') => exists text, w' = wrote cssPath text w
  | (Ret false, w') => w' = w
  | (Throw _, w') => w' = w
  end.
Proof.
  rewrite applyToCssFile_cases.
  destruct (files w !! resolve1 cssPath) as [en|]; [|reflexivity].
  destruct (readEntry cssPath (Some en)) as [css|e]; [|reflexivity].
  destruct (modifyCssContent change css) as [m|e]; [|reflexivity].
  destruct (modified m); [|reflexivity].
  destruct (writeError cssPath (Some en)); [reflexivity|]. now exists (content m).
Qed.

Lemma applyToLinked_writes (linkedCss : list jsstring) (change : CssChange) (w : world) :
  match applyToLinked linkedCss change w with
  | (Ret (Some cssFile), w') => exists text, w' = wrote cssFile text w
  | (Ret None, w') => w' = w
  | (Throw _, w') => w' = w
  end.
Proof.
  induction linkedCss as [|f rest IH]; [reflexivity|].
  cbn [applyToLinked]. cbv [mbind IO_bind mret IO_ret].
  pose proof (applyToCssFile_writes f change w) as Hf.
  destruct (applyToCssFile f change w) as [[[|]|e] w'].
  - exact Hf.
  - subst w'. exact IH.
  - exact Hf.
Qed.

(** The outcomes of [applyCssChange], one by one. *)
Lemma applyCssChange_cases (htmlPath : jsstring) (change : CssChange) (w : world) :
  match files w !! resolve1 (resolve1 htmlPath) with
  | None =>
      applyCssChange htmlPath change w
      = (Ret {| success := false;
                message := js "Archivo no encontrado: " ++ htmlPath;
                modifiedFile := None |}, w)
  | Some en =>
      match readEntry (resolve1 htmlPath) (Some en) with
      | Throw e => applyCssChange htmlPath change w = (Throw e, w)
      | Ret html =>
          match applyToInlineStyle html change with
          | Throw e => applyCssChange htmlPath change w = (Throw e, w)
          | Ret r =>
              if found r then
                match writeError (resolve1 htmlPath) (Some en) with
                | Some e => applyCssChange htmlPath change w = (Throw e, w)
                | None =>
                    applyCssChange htmlPath change w
                    = (Ret {| success := true;
                              message := js "CSS aplicado en <style> de "
                                         ++ basename htmlPath;
                              modifiedFile := Some (resolve1 htmlPath) |},
                       wrote (resolve1 htmlPath) (newHtml r) w)
                end
              else
                match applyToLinked (findLinkedCssFiles html (dirname (resolve1 htmlPath)))
                        change w with
                | (Throw e, w') => applyCssChange htmlPath change w = (Throw e, w')
                | (Ret (Some cssFile), w') =>
                    applyCssChange htmlPath change w
                    = (Ret {| success := true;
                              message := js "CSS aplicado en " ++ basename cssFile;
                              modifiedFile := Some cssFile |}, w')
                | (Ret None, _) =>
                    match writeError (resolve1 htmlPath) (Some en) with
                    | Some e => applyCssChange htmlPath change w = (Throw e, w)
                    | None =>
                        applyCssChange htmlPath change w
                        = (Ret {| success := true;
                                  message := js "Nuevo estilo a" ++ [241] ++ js "adido a "
                                             ++ basename htmlPath;
                                  modifiedFile := Some (resolve1 htmlPath) |},
                           wrote (resolve1 htmlPath) (addStyleBlock html change) w)
                    end
                end
          end
      end
  end.
Proof.
  unfold applyCssChange. run_io.
  destruct (files w !! resolve1 (resolve1 htmlPath)) as [en|] eqn:E; cbn; rewrite ?E;
    [|reflexivity].
  destruct (readEntry (resolve1 htmlPath) (Some en)) as [html|e]; cbn; [|reflexivity].
  destruct (applyToInlineStyle html change) as [r|e]; cbn; [|reflexivity].
  destruct (found r); cbn.
  { rewrite E. destruct (writeError (resolve1 htmlPath) (Some en)); reflexivity. }
  pose proof (applyToLinked_writes
                (findLinkedCssFiles html (dirname (resolve1 htmlPath))) change w) as Hl.
  destruct (applyToLinked _ change w) as [[[f|]|e] w']; try reflexivity.
  subst w'. rewrite E. destruct (writeError (resolve1 htmlPath) (Some en)); reflexivity.
Qed.

(** C2. [applyCssChange] returns a failure exactly when the document path
    does not resolve to an existing file; a failure writes nothing, and a
    success has made exactly one call of [writeFileSync], to the file it
    reports. *)
Theorem applyCssChange_fails_iff_missing_and_writes_once
    (htmlPath : jsstring) (change : CssChange) (w : world) :
  ((exists r w', applyCssChange htmlPath change w = (Ret r, w') /\ success r = false)
   <-> files w !! resolve1 (resolve1 htmlPath) = None)
  /\ (forall r w', applyCssChange htmlPath change w = (Ret r, w') ->
        success r = false -> w' = w)
  /\ (forall r w', applyCssChange htmlPath change w = (Ret r, w') ->
        success r = true ->
        exists p text, modifiedFile r = Some p /\ w' = wrote p text w).
Proof.
  pose proof (applyCssChange_cases htmlPath change w) as Hc.
  destruct (files w !! resolve1 (resolve1 htmlPath)) as [en|].
  - assert (Hsucc : forall r w', applyCssChange htmlPath change w = (Ret r, w') ->
              success r = true /\ exists p text, modifiedFile r = Some p /\ w' = wrote p text w).
    { intros r w' Hr. revert Hc.
      destruct (readEntry (resolve1 htmlPath) (Some en)) as [html|e];
        [|intros Hc; rewrite Hc in Hr; discriminate].
      pose proof (applyToLinked_writes
                    (findLinkedCssFiles html (dirname (resolve1 htmlPath))) change w) as Hl.
      revert Hl.
      destruct (applyToInlineStyle html change) as [ir|e];
        [destruct (found ir);
         [|destruct (applyToLinked _ change w) as [[[f|]|e] w1]]|];
        destruct (writeError (resolve1 htmlPath) (Some en));
        intros Hl Hc; rewrite Hc in Hr; try discriminate; injection Hr as <- <-;
        (split; [reflexivity|]);
        try match type of Hl with ex _ => destruct Hl as [text Hl]; subst end; eauto. }
    split; [split|split].
    + intros (r & w' & Hr & Hf). apply Hsucc in Hr as [Hs _]. congruence.
    + discriminate.
    + intros r w' Hr Hf. apply Hsucc in Hr as [Hs _]. congruence.
    + intros r w' Hr _. now apply Hsucc in Hr as [_ Hw].
  - split; [split|split].
    + reflexivity.
    + intros _. eexists _, w. split; [exact Hc | reflexivity].
    + intros r w' Hr _. rewrite Hc in Hr. now injection Hr as <- <-.
    + intros r w' Hr Hs. rewrite Hc in Hr. injection Hr as <- <-. discriminate.
Qed.

End EngineProps.

(** ** Matchers give back a suffix of the text *)

Definition suffixing (m : matcher) : Prop :=
  forall s g rest, m s = Some (g, rest) -> exists pre, s = pre ++ rest /\ pre <> [].

Lemma suffixing_progressive (m : matcher) : suffixing m -> progressive m.
Proof.
  intros Hm s g rest E. destruct (Hm s g rest E) as (pre & -> & Hpre).
  rewrite length_app. destruct pre; [contradiction|simpl; lia].
Qed.

Lemma consumed_app (pre rest : jsstring) : consumed (pre ++ rest) rest = pre.
Proof.
  unfold consumed. rewrite length_app.
  replace (length pre + length rest - length rest)%nat with (length pre) by lia.
  now rewrite take_app_length.
Qed.

Lemma scanFuel_text (m : matcher) :
  suffixing m ->
  forall n pre s, (length s <= n)%nat ->
    concat (map pieceText (scanFuel n m pre s)) = s.
Proof.
  intros Hm n. induction n as [|n IH]; intros pre s Hn.
  - destruct s; [reflexivity | simpl in Hn; lia].
  - destruct s as [|c t]; [reflexivity|]. cbn [scanFuel].
    destruct (m (c :: t)) as [[g rest]|] eqn:E.
    + destruct (Hm _ _ _ E) as (p & Hs & Hp). rewrite Hs, consumed_app.
      cbn [map concat pieceText]. f_equal. apply IH.
      apply (f_equal length) in Hs. rewrite length_app in Hs.
      destruct p; [contradiction|]. simpl in *. lia.
    + cbn [map concat pieceText]. cbn [app]. f_equal. apply IH. simpl in Hn. lia.
Qed.

Lemma scan_text (m : matcher) (s : jsstring) :
  suffixing m -> concat (map pieceText (scan m s)) = s.
Proof. intros Hm. now apply scanFuel_text. Qed.

Lemma stripPrefixBy_suffix (eqc : N -> N -> bool) (p s r : jsstring) :
  stripPrefixBy eqc p s = Some r ->
  exists pre, s = pre ++ r /\ Forall2 (fun a b => eqc a b = true) p pre.
Proof.
  revert s. induction p as [|a p IH]; intros s E.
  - destruct s; injection E as <-; exists []; split; auto.
  - destruct s as [|b s]; [discriminate|]. cbn in E.
    destruct (eqc a b) eqn:Eab; [|discriminate].
    destruct (IH s E) as (pre & -> & Hpre). exists (b :: pre). split; [reflexivity|].
    now constructor.
Qed.

Lemma spanClass_app (cls : N -> bool) (s : jsstring) :
  s = (spanClass cls s).1 ++ (spanClass cls s).2
  /\ Forall (fun c => cls c = true) (spanClass cls s).1
  /\ match (spanClass cls s).2 with
     | c :: _ => cls c = false
     | [] => True
     end.
Proof.
  induction s as [|c t (IH1 & IH2 & IH3)]; [cbn; auto|].
  cbn [spanClass]. destruct (cls c) eqn:E.
  - destruct (spanClass cls t) as [a b]. cbn in *. split; [now f_equal|]. split; auto.
  - cbn. auto.
Qed.

Lemma findSubBy_app (eqc : N -> N -> bool) (pat pre s b a : jsstring) :
  findSubBy eqc pat pre s = Some (b, a) ->
  exists t mid, b = pre ++ t /\ s = t ++ mid ++ a /\ Forall2 (fun x y => eqc x y = true) pat mid.
Proof.
  revert pre. induction s as [|c s IH]; intros pre E; cbn [findSubBy] in E.
  - destruct (stripPrefixBy eqc pat []) as [r|] eqn:Ep; [|discriminate].
    injection E as <- <-. destruct (stripPrefixBy_suffix _ _ _ _ Ep) as (mid & Hs & Hm).
    exists [], mid. rewrite app_nil_r. auto.
  - destruct (stripPrefixBy eqc pat (c :: s)) as [r|] eqn:Ep.
    + injection E as <- <-. destruct (stripPrefixBy_suffix _ _ _ _ Ep) as (mid & Hs & Hm).
      exists [], mid. rewrite app_nil_r. auto.
    + destruct (IH _ E) as (t & mid & -> & -> & Hm). exists (c :: t), mid.
      rewrite <- app_assoc. auto.
Qed.

Lemma scanFuel_hit (m : matcher) :
  suffixing m ->
  forall n pre s w g b a, (length s <= n)%nat ->
    Hit w g b a ∈ scanFuel n m pre s ->
    m (w ++ a) = Some (g, a) /\ pre ++ s = b ++ w ++ a.
Proof.
  intros Hm n. induction n as [|n IH]; intros pre s w g b a Hn Hin.
  - destruct s; cbn in Hin; now apply elem_of_nil in Hin.
  - destruct s as [|c t]; [cbn in Hin; now apply elem_of_nil in Hin|].
    cbn [scanFuel] in Hin. destruct (m (c :: t)) as [[g' rest]|] eqn:E.
    + destruct (Hm _ _ _ E) as (p & Hs & Hp). rewrite Hs, consumed_app in Hin.
      apply elem_of_cons in Hin as [Heq|Hin].
      * injection Heq as -> -> -> ->. rewrite <- Hs. auto.
      * apply IH in Hin as [H1 H2].
        -- split; [exact H1|]. rewrite <- H2, Hs. now rewrite <- app_assoc.
        -- apply (f_equal length) in Hs. rewrite length_app in Hs.
           destruct p; [contradiction|]. simpl in *. lia.
    + apply elem_of_cons in Hin as [Heq|Hin]; [discriminate|].
      apply IH in Hin as [H1 H2]; [|simpl in Hn; lia].
      split; [exact H1|]. rewrite <- H2. now rewrite <- app_assoc.
Qed.

Lemma scan_hit (m : matcher) (s w b a : jsstring) (g : list jsstring) :
  suffixing m -> Hit w g b a ∈ scan m s ->
  m (w ++ a) = Some (g, a) /\ s = b ++ w ++ a.
Proof. intros Hm Hin. now apply (scanFuel_hit m Hm (length s) [] s). Qed.

Lemma getSubstitution_no_dollar (matched before after repl : jsstring) :
  Forall (fun c => c <> 36) repl -> getSubstitution matched before after repl = repl.
Proof.
  induction 1 as [|c r Hc Hr IH]; [reflexivity|].
  cbn [getSubstitution]. apply N.eqb_neq in Hc. rewrite Hc. now rewrite IH.
Qed.

Lemma stripPrefixBy_eqb (pat s r : jsstring) :
  stripPrefixBy N.eqb pat s = Some r <-> s = pat ++ r.
Proof.
  revert s. induction pat as [|a pat IH]; intros s; cbn [stripPrefixBy app].
  - split; [now intros [= ->] | now intros ->].
  - destruct s as [|b s]; [split; discriminate|].
    destruct (N.eqb_spec a b) as [->|Hne].
    + rewrite IH. split; [now intros -> | now intros [= ->]].
    + split; [discriminate | intros [= <- _]; contradiction].
Qed.

Lemma findSubBy_first (pat s : jsstring) :
  forall pre,
    match findSubBy N.eqb pat pre s with
    | Some (b, a) =>
        exists t, b = pre ++ t /\ s = t ++ pat ++ a
                  /\ forall t' a', s = t' ++ pat ++ a' -> (length t <= length t')%nat
    | None => forall t a, s <> t ++ pat ++ a
    end.
Proof.
  induction s as [|c s IH]; intros pre; cbn [findSubBy].
  - destruct (stripPrefixBy N.eqb pat []) as [r|] eqn:E.
    + apply stripPrefixBy_eqb in E. exists []. rewrite app_nil_r.
      split; [reflexivity|]. split; [exact E|]. intros t' a' _. cbn. lia.
    + intros t a Hs. symmetry in Hs. apply app_eq_nil in Hs as [-> Hs].
      assert (E' : stripPrefixBy N.eqb pat [] = Some a) by (apply stripPrefixBy_eqb; now rewrite Hs).
      congruence.
  - destruct (stripPrefixBy N.eqb pat (c :: s)) as [r|] eqn:E.
    + apply stripPrefixBy_eqb in E. exists []. rewrite app_nil_r.
      split; [reflexivity|]. split; [exact E|]. intros t' a' _. cbn. lia.
    + assert (Hhead : forall t a, c :: s = t ++ pat ++ a -> exists t0, t = c :: t0
                                                            /\ s = t0 ++ pat ++ a).
      { intros [|c' t0] a Hs.
        - assert (E' : stripPrefixBy N.eqb pat (c :: s) = Some a)
            by (apply stripPrefixBy_eqb; exact Hs).
          congruence.
        - injection Hs as <- Hs. eauto. }
      specialize (IH (pre ++ [c])).
      destruct (findSubBy N.eqb pat (pre ++ [c]) s) as [[b a]|].
      * destruct IH as (t & -> & -> & Hfirst). exists (c :: t).
        split; [now rewrite <- app_assoc|]. split; [reflexivity|].
        intros t' a' Hs. apply Hhead in Hs as (t0 & -> & Hs). cbn.
        apply Hfirst in Hs. lia.
      * intros t a Hs. apply Hhead in Hs as (t0 & -> & Hs). now apply (IH t0 a).
Qed.

(** [s.replace(pat, rep)] puts [rep] at the place of [pat] when [rep]
    holds no dollar sign and [pat] does not occur before that place. *)
Lemma replaceFirst_in_place (pat rep s pre post : jsstring) :
  s = pre ++ pat ++ post ->
  Forall (fun c => c <> 36) rep ->
  (forall b a, s = b ++ pat ++ a -> (length pre <= length b)%nat) ->
  replaceFirst pat rep s = pre ++ rep ++ post.
Proof.
  intros Hs Hrep Hfirst. unfold replaceFirst, findSub.
  pose proof (findSubBy_first pat s []) as Hsub.
  destruct (findSubBy N.eqb pat [] s) as [[b a]|].
  - destruct Hsub as (t & -> & Ht & Hmin). cbn [app] in *.
    rewrite getSubstitution_no_dollar by assumption.
    pose proof (Hmin _ _ Hs) as Hle1. pose proof (Hfirst _ _ Ht) as Hle2.
    assert (Hlen : length t = length pre) by lia.
    rewrite Ht in Hs. apply app_inj_1 in Hs as [-> Hrest]; [|exact Hlen].
    apply app_inv_head in Hrest. now rewrite Hrest.
  - now destruct (Hsub _ _ Hs).
Qed.

Section InlineFirst.
Context `{CssTree} `{RegExpEngine} `{NodePath}.

Lemma reStyle_suffixing : suffixing reStyle.
Proof.
  intros s g rest. unfold reStyle.
  destruct (stripPrefixBy eqCI (js "<style") s) as [r1|] eqn:E1; [|discriminate].
  destruct (stripPrefixBy_suffix _ _ _ _ E1) as (p1 & -> & Hp1).
  destruct (spanClass_app notGt r1) as (Hr1 & _ & _).
  destruct (spanClass notGt r1) as [attrs r1'] eqn:Es. cbn [fst snd] in *.
  destruct r1' as [|c r2]; [discriminate|].
  destruct (c =? 62); [|discriminate].
  destruct (findSubBy eqCI (js "</style>") [] r2) as [[cssContent rest']|] eqn:E2;
    [|discriminate].
  intros [= <- <-]. destruct (findSubBy_app _ _ _ _ _ _ E2) as (t & mid & _ & -> & _).
  exists (p1 ++ attrs ++ c :: t ++ mid). split.
  - rewrite Hr1. now rewrite <- !app_assoc; cbn [app]; rewrite <- !app_assoc.
  - apply Forall2_length in Hp1. destruct p1; discriminate.
Qed.

(** What the style regex matches: an opening tag, from [<style] up to the
    first [>], the CSS text, and the first closing tag after it; group 1 is
    the CSS text. *)
Lemma reStyle_shape (s : jsstring) (g : list jsstring) (rest : jsstring) :
  reStyle s = Some (g, rest) ->
  exists tag attrs css close,
    s = ((tag ++ attrs ++ [62]) ++ css ++ close) ++ rest
    /\ g = [css]
    /\ Forall2 (fun x y => eqCI x y = true) (js "<style") tag
    /\ Forall (fun c => c <> 62) attrs
    /\ Forall2 (fun x y => eqCI x y = true) (js "</style>") close.
Proof.
  unfold reStyle.
  destruct (stripPrefixBy eqCI (js "<style") s) as [r1|] eqn:E1; [|discriminate].
  destruct (stripPrefixBy_suffix _ _ _ _ E1) as (tag & -> & Htag).
  destruct (spanClass_app notGt r1) as (Hr1 & Hattrs & _).
  destruct (spanClass notGt r1) as [attrs r1'] eqn:Es. cbn [fst snd] in *.
  destruct r1' as [|c r2]; [discriminate|].
  destruct (N.eqb_spec c 62) as [->|]; [|discriminate].
  destruct (findSubBy eqCI (js "</style>") [] r2) as [[cssContent rest']|] eqn:E2;
    [|discriminate].
  intros [= <- <-]. destruct (findSubBy_app _ _ _ _ _ _ E2) as (t & close & -> & -> & Hclose).
  exists tag, attrs, t, close. split; [|split; [reflexivity|split; [exact Htag|split]]].
  - rewrite Hr1. cbn [app]. rewrite <- !app_assoc. cbn [app]. reflexivity.
  - eapply Forall_impl; [exact Hattrs|]. intros x Hx ->. discriminate.
  - exact Hclose.
Qed.

Lemma inlineCallback_styleBlockEdit (change : CssChange) (html : jsstring) (p : piece)
    (r : jsstring * bool) :
  p ∈ scan reStyle html -> inlineCallback change p = Ret r -> styleBlockEdit change p r.1.
Proof.
  destruct p as [c|whole g b a]; intros Hin; cbn [inlineCallback styleBlockEdit].
  - now intros [= <-].
  - apply (scan_hit _ _ _ _ _ _ reStyle_suffixing) in Hin as [Hm _].
    apply reStyle_shape in Hm
      as (tag & attrs & css & close & Hw & -> & Htag & Hattrs & Hclose).
    apply app_inv_tail in Hw. change (default [] (head [css])) with css.
    destruct (modifyCssContent change css) as [m|e] eqn:Em; cbn; [|discriminate].
    intros Hr. exists tag, attrs, css, close, m.
    split; [exact Hw|]. split; [reflexivity|]. split; [exact Htag|].
    split; [exact Hattrs|]. split; [exact Hclose|]. split; [exact Em|].
    destruct (modified m); injection Hr as <-; cbn [fst]; split;
      try discriminate; try reflexivity.
    intros _ Hplain Hfirst. now apply replaceFirst_in_place.
Qed.

Lemma inlineCallback_total (change : CssChange) (p : piece) :
  plainPattern (property change) = true -> exists r, inlineCallback change p = Ret r.
Proof.
  intros Hp. destruct p as [c|whole g b a]; cbn; [eauto|].
  destruct (modifyCssContent_total change (default [] (head g)) Hp) as [m ->]. cbn.
  destruct (modified m); eauto.
Qed.

(** With a value that parses, the callback throws only on a style block
    that css-tree fails to parse, and the exception is the one of the regex
    built from the property. *)
Lemma inlineCallback_throws (change : CssChange) (v : Value) (p : piece) (e : exn) :
  parseValue (value change) = Ret v ->
  inlineCallback change p = Throw e ->
  plainPattern (property change) = false
  /\ dynCompile (property change ++ js "\s*:[^;]+;?") = Throw e
  /\ exists whole g b a e',
       p = Hit whole g b a /\ parse (default [] (head g)) = Throw e'.
Proof.
  intros Hv. destruct p as [c|whole g b a]; cbn [inlineCallback]; [discriminate|].
  destruct (modifyCssContent change (default [] (head g))) as [m|e0] eqn:Em; cbn;
    [destruct (modified m); discriminate|].
  intros [= ->]. revert Em. unfold modifyCssContent.
  destruct (parse (default [] (head g))) as [ast|e'] eqn:Ep; cbn.
  { rewrite (walkRules_spec change v Hv). cbn.
    destruct (existsb (ruleMatches change) ast); discriminate. }
  unfold applyWithRegex.
  destruct (mapM (patchPiece change) _) as [ts|e1] eqn:Ets; cbn; [discriminate|].
  intros [= ->]. apply mapM_Exc_Throw in Ets as ([c|w0 g0 b0 a0] & _ & Hx); cbn in Hx;
    [discriminate|].
  unfold patchBlock in Hx. destruct (plainPattern (property change)) eqn:Hp.
  { destruct (regexTest _ _); discriminate. }
  split; [reflexivity|]. split; [|eauto 8].
  destruct (dynCompile _) as [re|e1] eqn:Ed; cbn in Hx; [|congruence].
  destruct (dynTest re _); discriminate.
Qed.

(** C1, as the code has it.  The document can be read and written, has
    an embedded style block with a rule of the target selector and a linked
    local style sheet with such a rule, and css-tree parses the value of the
    change.  Then [applyCssChange] succeeds through the inline strategy:
    its one write is to the document, [modifiedFile] is the path of the
    document, the linked style sheet is left as it was, every character
    outside the style blocks is kept, and a style block that the engine
    modified holds the new content between its own tags (provided that the
    new content has no dollar sign and the old CSS text does not occur in
    the block before its own place).  The one other outcome is an exception
    before anything is written: the one of the regex built from a property
    with regex syntax characters, on a style block that css-tree fails to
    parse. *)
Theorem applyCssChange_inline_before_linked
    (htmlPath : jsstring) (change : CssChange) (w : world) (html : jsstring)
    (whole css before after : jsstring) (ast : list cssnode) (v : Value)
    (cssFile linkedText : jsstring) (linkedAst : list cssnode) :
  files w !! resolve1 (resolve1 htmlPath) = Some (File html) ->
  Hit whole [css] before after ∈ scan reStyle html ->
  parse css = Ret ast ->
  existsb (ruleMatches change) ast = true ->
  cssFile ∈ findLinkedCssFiles html (dirname (resolve1 htmlPath)) ->
  files w !! resolve1 cssFile = Some (File linkedText) ->
  parse linkedText = Ret linkedAst ->
  existsb (ruleMatches change) linkedAst = true ->
  parseValue (value change) = Ret v ->
  (exists r texts,
     applyToInlineStyle html change = Ret r
     /\ found r = true
     /\ applyCssChange htmlPath change w
        = (Ret {| success := true;
                  message := js "CSS aplicado en <style> de " ++ basename htmlPath;
                  modifiedFile := Some (resolve1 htmlPath) |},
           wrote (resolve1 htmlPath) (newHtml r) w)
     /\ html = concat (map pieceText (scan reStyle html))
     /\ newHtml r = concat texts
     /\ Forall2 (styleBlockEdit change) (scan reStyle html) texts
     /\ (resolve1 cssFile <> resolve1 (resolve1 htmlPath) ->
         files (wrote (resolve1 htmlPath) (newHtml r) w) !! resolve1 cssFile
         = Some (File linkedText)))
  \/ (exists e whole' g' b' a' e',
        applyCssChange htmlPath change w = (Throw e, w)
        /\ plainPattern (property change) = false
        /\ dynCompile (property change ++ js "\s*:[^;]+;?") = Throw e
        /\ Hit whole' g' b' a' ∈ scan reStyle html
        /\ parse (default [] (head g')) = Throw e').
Proof.
  intros Hfile Hhit Hparse Hmatch _ Hlinked _ _ Hvalue.
  pose proof (applyCssChange_cases htmlPath change w) as Hc. rewrite Hfile in Hc.
  unfold readEntry, writeError in Hc.
  destruct (mapM (inlineCallback change) (scan reStyle html)) as [rs|e] eqn:Hrs.
  - left. pose proof Hrs as Hall. apply mapM_Exc_Ret in Hall.
    assert (Hfound : existsb snd rs = true).
    { apply list_elem_of_lookup in Hhit as [i Hi].
      destruct (Forall2_lookup_l _ _ _ _ _ Hall Hi) as (r & Hr & Hcb).
      apply existsb_exists. exists r.
      split; [apply list_elem_of_In; eapply list_elem_of_lookup_2; eauto|].
      cbn in Hcb.
      rewrite (modifyCssContent_structured change v Hvalue css ast Hparse), Hmatch in Hcb.
      cbn in Hcb. now injection Hcb as <-. }
    exists {| found := existsb snd rs; newHtml := concat (map fst rs) |}, (map fst rs).
    assert (Hinline : applyToInlineStyle html change
                      = Ret {| found := existsb snd rs; newHtml := concat (map fst rs) |}).
    { unfold applyToInlineStyle. rewrite Hrs. reflexivity. }
    split; [exact Hinline|]. split; [exact Hfound|]. split.
    { rewrite Hinline in Hc. cbn [found] in Hc. rewrite Hfound in Hc. exact Hc. }
    split; [symmetry; apply scan_text, reStyle_suffixing|].
    split; [reflexivity|]. split.
    + apply Forall2_fmap_r. apply Forall2_same_length_lookup.
      split; [now apply Forall2_length in Hall|]. intros i p r Hp Hr.
      destruct (Forall2_lookup_l _ _ _ _ _ Hall Hp) as (r' & Hr' & Hcb).
      assert (r' = r) by congruence. subst r'.
      apply (inlineCallback_styleBlockEdit change html); [|exact Hcb].
      now apply list_elem_of_lookup_2 with i.
    + intros Hne. cbn. rewrite lookup_insert_ne by congruence. exact Hlinked.
  - right. pose proof Hrs as Hin. apply mapM_Exc_Throw in Hin as (p & Hp & Hthrow).
    destruct (inlineCallback_throws change v p e Hvalue Hthrow)
      as (Hplain & Hdyn & whole' & g' & b' & a' & e' & -> & Hbad).
    exists e, whole', g', b', a', e'.
    split; [|split; [exact Hplain|split; [exact Hdyn|split; [exact Hp | exact Hbad]]]].
    assert (Hinline : applyToInlineStyle html change = Throw e).
    { unfold applyToInlineStyle. now rewrite Hrs. }
    rewrite Hinline in Hc. exact Hc.
Qed.

End InlineFirst.

Lemma applyCssChange_inline_before_linked_witness :
  (@applyCssChange sampleCss sampleEngine samplePath (js "/site/index.html")
     (sampleChange "h1" "color" "red") sampleWorld).1
  = Ret {| success := true;
           message := js "CSS aplicado en <style> de index.html";
           modifiedFile := Some (js "/site/index.html") |}
  /\ writes (@applyCssChange sampleCss sampleEngine samplePath (js "/site/index.html")
               (sampleChange "h1" "color" "red") sampleWorld).2
     = [(js "/site/index.html",
         js "<head><link rel='stylesheet' href='a.css'><style>h1{color:red;}</style></head>")]
  /\ files sampleWorld !! js "/site/a.css" = Some (File (js "h1{color:green}")).
Proof.
  destruct (@applyCssChange_inline_before_linked sampleCss sampleEngine samplePath
              (js "/site/index.html") (sampleChange "h1" "color" "red") sampleWorld
              (js "<head><link rel='stylesheet' href='a.css'><style>h1{color:blue}</style></head>")
              (js "<style>h1{color:blue}</style>") (js "h1{color:blue}")
              (js "<head><link rel='stylesheet' href='a.css'>") (js "</head>")
              [Rule (js "h1") [Declaration NotImportant (js "color") (js "blue")]]
              (js "red") (js "/site/a.css") (js "h1{color:green}")
              [Rule (js "h1") [Declaration NotImportant (js "color") (js "green")]])
    as [(r & texts & Hr & _ & Happly & _)|(e & _ & _ & _ & _ & _ & _ & Hplain & _)].
  - vm_compute. reflexivity.
  - apply (list_elem_of_lookup_2 _ 42). vm_compute. reflexivity.
  - vm_compute. reflexivity.
  - vm_compute. reflexivity.
  - apply (list_elem_of_lookup_2 _ 0). vm_compute. reflexivity.
  - vm_compute. reflexivity.
  - vm_compute. reflexivity.
  - vm_compute. reflexivity.
  - vm_compute. reflexivity.
  - rewrite Happly. vm_compute in Hr. injection Hr as <-.
    split; [reflexivity|]. split; vm_compute; reflexivity.
  - vm_compute in Hplain. discriminate.
Defined.

(** A site whose style block writes the child selector without spaces and
    whose linked style sheet writes it with spaces, and a site whose
    document can only be read. *)
Definition childWorld : world :=
  {| files :=
       <[js "/site/index.html" :=
           File (js "<link rel='stylesheet' href='a.css'><style>ul>li{}</style>")]>
         (<[js "/site/a.css" := File (js "ul > li{}")]> ∅);
     writes := [] |}.

Definition readOnlyWorld : world :=
  {| files :=
       <[js "/site/index.html" :=
           ReadOnly (js "<link rel='stylesheet' href='a.css'><style>h1{color:blue}</style>")]>
         (<[js "/site/a.css" := File (js "h1{color:green}")]> ∅);
     writes := [] |}.

(** C1, as stated, fails.  With a value that css-tree rejects each fragment
    goes to the fallback, which looks for the selector as it is written:
    the style block of the document has a rule of the selector and stays as
    it is, and the linked style sheet is the file written and reported.
    And a document that can only be read makes the call throw at its
    write. *)
Lemma applyCssChange_rejected_value_writes_linked_sheet :
  Hit (js "<style>ul>li{}</style>") [js "ul>li{}"]
    (js "<link rel='stylesheet' href='a.css'>") []
    ∈ scan (@reStyle sampleEngine)
        (js "<link rel='stylesheet' href='a.css'><style>ul>li{}</style>")
  /\ @parse sampleCss (js "ul>li{}") = Ret [Rule (js "ul>li") []]
  /\ selectorEq (js "ul>li") (js "ul > li") = true
  /\ js "/site/a.css"
     ∈ @findLinkedCssFiles sampleEngine samplePath
         (js "<link rel='stylesheet' href='a.css'><style>ul>li{}</style>") (js "/site")
  /\ @parse sampleCss (js "ul > li{}") = Ret [Rule (js "ul > li") []]
  /\ (@applyCssChange sampleCss sampleEngine samplePath (js "/site/index.html")
        (sampleChange "ul > li" "color" "red !important") childWorld).1
     = Ret {| success := true;
              message := js "CSS aplicado en a.css";
              modifiedFile := Some (js "/site/a.css") |}
  /\ writes (@applyCssChange sampleCss sampleEngine samplePath (js "/site/index.html")
               (sampleChange "ul > li" "color" "red !important") childWorld).2
     = [(js "/site/a.css",
         js "ul > li{" ++ [NL] ++ js "  color: red !important;" ++ [NL] ++ js "}")]
  /\ @applyCssChange sampleCss sampleEngine samplePath (js "/site/index.html")
       (sampleChange "h1" "color" "red") readOnlyWorld
     = (Throw (EACCES (js "/site/index.html")), readOnlyWorld).
Proof.
  split; [apply (list_elem_of_lookup_2 _ 36); vm_compute; reflexivity|].
  split; [vm_compute; reflexivity|]. split; [vm_compute; reflexivity|].
  split; [apply (list_elem_of_lookup_2 _ 0); vm_compute; reflexivity|].
  repeat split; vm_compute; reflexivity.
Qed.

(** ** The synthesize step *)

(** The style block that [addStyleBlock] means to add. *)
Definition newStyleOf (change : CssChange) : jsstring :=
  [NL] ++ js "<style>" ++ [NL] ++ selector change ++ js " {" ++ [NL] ++ js "  "
  ++ property change ++ js ": " ++ value change ++ js ";" ++ [NL] ++ js "}" ++ [NL]
  ++ js "</style>".

(** Without a dollar in the selector, the property and the value, the new
    block goes right before the first closing head tag, or in front of the
    document when there is none. *)
Lemma addStyleBlock_literal (html : jsstring) (change : CssChange) :
  Forall (fun c => c <> 36) (selector change ++ property change ++ value change) ->
  match findSub (js "</head>") html with
  | Some (before, after) =>
      addStyleBlock html change
      = before ++ newStyleOf change ++ [NL] ++ js "</head>" ++ after
  | None => addStyleBlock html change = newStyleOf change ++ [NL] ++ html
  end.
Proof.
  intros Hd. unfold addStyleBlock, includes, replaceFirst. fold (newStyleOf change).
  destruct (findSub (js "</head>") html) as [[before after]|]; [|reflexivity].
  rewrite getSubstitution_no_dollar; [now rewrite <- !app_assoc|].
  apply Forall_app in Hd as [Hs Hd]. apply Forall_app in Hd as [Hp Hv].
  unfold newStyleOf. repeat (apply Forall_app; split); try assumption;
    repeat constructor; discriminate.
Qed.

Section Synthesize.
Context `{CssTree} `{RegExpEngine} `{NodePath}.

(** When neither the style blocks nor the linked files have the selector,
    the document is rewritten once with the result of [addStyleBlock], and
    the call succeeds. *)
Lemma applyCssChange_synthesizes (htmlPath : jsstring) (change : CssChange) (w : world)
    (html : jsstring) (r : InlineResult) :
  files w !! resolve1 (resolve1 htmlPath) = Some (File html) ->
  applyToInlineStyle html change = Ret r ->
  found r = false ->
  (applyToLinked (findLinkedCssFiles html (dirname (resolve1 htmlPath))) change w).1
  = Ret None ->
  applyCssChange htmlPath change w
  = (Ret {| success := true;
            message := js "Nuevo estilo a" ++ [241] ++ js "adido a " ++ basename htmlPath;
            modifiedFile := Some (resolve1 htmlPath) |},
     wrote (resolve1 htmlPath) (addStyleBlock html change) w).
Proof.
  intros Hfile Hinline Hfound Hlinked.
  pose proof (applyCssChange_cases htmlPath change w) as Hc.
  pose proof (applyToLinked_writes
                (findLinkedCssFiles html (dirname (resolve1 htmlPath))) change w) as Hw.
  rewrite Hfile in Hc. unfold readEntry, writeError in Hc.
  rewrite Hinline, Hfound in Hc.
  destruct (applyToLinked _ change w) as [[[f|]|e] w']; cbn in Hlinked; try discriminate.
  exact Hc.
Qed.

End Synthesize.

(** C4 (defect of the code). With a closing head tag in the document,
    [addStyleBlock] hands the new block to [replace] as a replacement text,
    so a dollar pattern in the change is expanded: for the value ['$&'] the
    block written holds the closing head tag instead of the requested
    value, while the branch without a head tag inserts the value as it
    is. *)
Theorem addStyleBlock_expands_dollar_patterns :
  addStyleBlock (js "<head></head>") (sampleChange "p" "content" "'$&'")
  = js "<head>" ++ [NL] ++ js "<style>" ++ [NL] ++ js "p {" ++ [NL]
    ++ js "  content: '</head>';" ++ [NL] ++ js "}" ++ [NL] ++ js "</style>" ++ [NL]
    ++ js "</head>"
  /\ includes (addStyleBlock (js "<head></head>") (sampleChange "p" "content" "'$&'"))
       (js "content: '$&';") = false
  /\ addStyleBlock (js "<body></body>") (sampleChange "p" "content" "'$&'")
     = [NL] ++ js "<style>" ++ [NL] ++ js "p {" ++ [NL]
       ++ js "  content: '$&';" ++ [NL] ++ js "}" ++ [NL] ++ js "</style>" ++ [NL]
       ++ js "<body></body>"
  /\ writes (@applyCssChange sampleCss sampleEngine samplePath (js "/page.html")
               (sampleChange "p" "content" "'$&'")
               {| files := {[ js "/page.html" := File (js "<head></head>") ]}; writes := [] |}).2
     = [(js "/page.html",
         js "<head>" ++ [NL] ++ js "<style>" ++ [NL] ++ js "p {" ++ [NL]
         ++ js "  content: '</head>';" ++ [NL] ++ js "}" ++ [NL] ++ js "</style>" ++ [NL]
         ++ js "</head>")].
Proof. repeat split; vm_compute; reflexivity. Qed.

Lemma applyCssChange_fails_iff_missing_and_writes_once_witness :
  files sampleWorld !! js "/site/missing.html" = None
  /\ exists r w',
       @applyCssChange sampleCss sampleEngine samplePath (js "/site/missing.html")
         (sampleChange "h1" "color" "red") sampleWorld = (Ret r, w')
       /\ success r = false.
Proof.
  split; [vm_compute; reflexivity|].
  apply (proj1 (@applyCssChange_fails_iff_missing_and_writes_once sampleCss sampleEngine
                  samplePath (js "/site/missing.html") (sampleChange "h1" "color" "red")
                  sampleWorld)).
  vm_compute. reflexivity.
Defined.
(** ** The style reader *)

Section Reader.
Context `{CssTree} `{RegExpEngine} `{NodePath}.

Lemma extractStylesFromCss_fragment (css targetSelector : jsstring) :
  extractStylesFromCss css targetSelector = Ret (fragmentStyles targetSelector css).
Proof. unfold extractStylesFromCss, fragmentStyles. now destruct (parse css). Qed.

Lemma extractStylesFromCss_total (css targetSelector : jsstring) :
  exists styles, extractStylesFromCss css targetSelector = Ret styles.
Proof. rewrite extractStylesFromCss_fragment. eauto. Qed.

Lemma extractStylesFromCss_parse_error (css targetSelector : jsstring) (e : exn) :
  parse css = Throw e -> extractStylesFromCss css targetSelector = Ret ∅.
Proof. intros Hp. unfold extractStylesFromCss. now rewrite Hp. Qed.

Lemma objectAssign_empty (styles : gmap jsstring jsstring) : objectAssign styles ∅ = styles.
Proof. unfold objectAssign. apply (left_id_L ∅ (∪)). Qed.

Lemma assignStyles_read (fragments : list jsstring) (targetSelector : jsstring) :
  forall styles,
    assignStyles fragments targetSelector styles
    = Ret (readFragments targetSelector fragments styles).
Proof.
  induction fragments as [|css rest IH]; intros styles; cbn [assignStyles]; [reflexivity|].
  rewrite extractStylesFromCss_fragment. cbn. apply IH.
Qed.

Lemma assignStyles_total (fragments : list jsstring) (targetSelector : jsstring)
    (styles : gmap jsstring jsstring) :
  exists styles', assignStyles fragments targetSelector styles = Ret styles'.
Proof. rewrite assignStyles_read. eauto. Qed.

Lemma readFragments_app (targetSelector : jsstring) (l1 l2 : list jsstring)
    (styles : gmap jsstring jsstring) :
  readFragments targetSelector (l1 ++ l2) styles
  = readFragments targetSelector l2 (readFragments targetSelector l1 styles).
Proof. unfold readFragments. apply fold_left_app. Qed.

Lemma readFragments_cons (targetSelector css : jsstring) (l : list jsstring)
    (styles : gmap jsstring jsstring) :
  readFragments targetSelector (css :: l) styles
  = readFragments targetSelector l (objectAssign styles (fragmentStyles targetSelector css)).
Proof. reflexivity. Qed.

Lemma readFragments_skips (targetSelector : jsstring) (before after : list jsstring)
    (bad : jsstring) (e : exn) (styles : gmap jsstring jsstring) :
  parse bad = Throw e ->
  readFragments targetSelector (before ++ bad :: after) styles
  = readFragments targetSelector (before ++ after) styles.
Proof.
  intros Hbad. rewrite !readFragments_app, readFragments_cons.
  unfold fragmentStyles. rewrite Hbad. now rewrite objectAssign_empty.
Qed.

(** The loop over the linked files reads the files that exist, in order,
    and stops at the first one that cannot be read. *)
Lemma assignLinked_read (linkedCss : list jsstring) (targetSelector : jsstring) (w : world) :
  forall styles,
    assignLinked linkedCss targetSelector styles w
    = match linkedTexts w linkedCss with
      | Ret texts => (Ret (readFragments targetSelector texts styles), w)
      | Throw e => (Throw e, w)
      end.
Proof.
  induction linkedCss as [|f rest IH]; intros styles; cbn [assignLinked linkedTexts];
    [reflexivity|].
  run_io. destruct (files w !! resolve1 f) as [en|] eqn:E; cbn; rewrite ?E; [|apply IH].
  destruct (readEntry f (Some en)) as [text|e]; cbn; [|reflexivity].
  rewrite extractStylesFromCss_fragment. cbn. rewrite IH.
  now destruct (linkedTexts w rest).
Qed.

(** C9, as the code has it.  [getStylesForSelector] throws nothing but
    the error of [readFileSync] on a path that exists and cannot be read as
    a file (the document, or a linked file, that is a directory or may not
    be read), and it leaves the files alone.  For a path that does not exist the
    result is the empty mapping.  Otherwise the result holds the entries of
    the style blocks of the document and then of the linked files that
    exist, in order, a later fragment winning over an earlier one; a
    fragment whose parse throws contributes no entry, and the fragments
    around it contribute theirs as if it were not there. *)
Theorem getStylesForSelector_throws_only_read_errors
    (htmlPath targetSelector : jsstring) (w : world) :
  match files w !! resolve1 htmlPath with
  | None => getStylesForSelector htmlPath targetSelector w = (Ret ∅, w)
  | Some en =>
      match readEntry htmlPath (Some en) with
      | Throw e => getStylesForSelector htmlPath targetSelector w = (Throw e, w)
      | Ret html =>
          match linkedTexts w (findLinkedCssFiles html (dirname htmlPath)) with
          | Throw e => getStylesForSelector htmlPath targetSelector w = (Throw e, w)
          | Ret texts =>
              getStylesForSelector htmlPath targetSelector w
              = (Ret (readFragments targetSelector (styleContents html ++ texts) ∅), w)
          end
      end
  end
  /\ (forall before bad after e styles,
        parse bad = Throw e ->
        readFragments targetSelector (before ++ bad :: after) styles
        = readFragments targetSelector (before ++ after) styles)
  /\ (forall before css after ast styles,
        parse css = Ret ast ->
        readFragments targetSelector (before ++ css :: after) styles
        = readFragments targetSelector after
            (objectAssign (readFragments targetSelector before styles)
               (fold_left (fun st x => collectRule targetSelector x st) ast ∅))).
Proof.
  split; [|split].
  - unfold getStylesForSelector. run_io.
    destruct (files w !! resolve1 htmlPath) as [en|] eqn:E; cbn; rewrite ?E; [|reflexivity].
    destruct (readEntry htmlPath (Some en)) as [html|e]; cbn; [|reflexivity].
    rewrite assignStyles_read. cbn. rewrite assignLinked_read.
    destruct (linkedTexts w _) as [texts|e]; [|reflexivity].
    now rewrite readFragments_app.
  - intros before bad after e styles. apply readFragments_skips.
  - intros before css after ast styles Hparse.
    rewrite readFragments_app, readFragments_cons.
    unfold fragmentStyles. now rewrite Hparse.
Qed.

End Reader.

(** A site with a directory where the document links a style sheet. *)
Definition directoryWorld : world :=
  {| files :=
       <[js "/site/index.html" :=
           File (js "<link rel='stylesheet' href='css'><style>h1{color:blue}</style>")]>
         (<[js "/site/css" := Directory]> (<[js "/site" := Directory]> ∅));
     writes := [] |}.

(** C9, as stated, fails: the path of a directory exists, and reading it
    throws; so does a linked path that is a directory. *)
Lemma getStylesForSelector_throws_on_directory :
  @getStylesForSelector sampleCss sampleEngine samplePath (js "/site") (js "h1")
    directoryWorld
  = (Throw (EISDIR (js "/site")), directoryWorld)
  /\ @getStylesForSelector sampleCss sampleEngine samplePath (js "/site/index.html")
       (js "h1") directoryWorld
     = (Throw (EISDIR (js "/site/css")), directoryWorld).
Proof. split; vm_compute; reflexivity. Qed.

(** On the sample site the reader returns the entry of the linked file. *)
Example getStylesForSelector_sample :
  @getStylesForSelector sampleCss sampleEngine samplePath (js "/site/index.html") (js "h1")
    sampleWorld
  = (Ret {[ js "color" := js "green" ]}, sampleWorld).
Proof. vm_compute. reflexivity. Qed.

(** ** The session state *)

Lemma settle_lookup (p q : nat) (s : settlement) (ps : gmap nat settlement) :
  settle p s ps !! q
  = match ps !! q with
    | Some s' => Some s'
    | None => if decide (p = q) then Some s else None
    end.
Proof.
  unfold settle. destruct (ps !! p) as [s'|] eqn:Ep.
  - destruct (ps !! q) eqn:Eq; [reflexivity|]. case_decide; [congruence | reflexivity].
  - rewrite lookup_insert. case_decide.
    + subst q. now rewrite Ep.
    + now destruct (ps !! q).
Qed.

Lemma settle_all_lookup (e : option SelectedElement) (l : list nat) (ps : gmap nat settlement)
    (q : nat) :
  fold_left (fun ps p => settle p (Resolved e) ps) l ps !! q
  = match ps !! q with
    | Some s => Some s
    | None => if decide (q ∈ l) then Some (Resolved e) else None
    end.
Proof.
  revert ps. induction l as [|p l IH]; intros ps; cbn [fold_left].
  - destruct (ps !! q); [reflexivity|]. rewrite decide_False; [reflexivity | apply not_elem_of_nil].
  - rewrite IH, settle_lookup. destruct (ps !! q) as [s|]; [reflexivity|].
    destruct (decide (p = q)) as [->|Hne].
    + rewrite decide_True; [reflexivity | left].
    + destruct (decide (q ∈ l)) as [Hin|Hnin].
      * rewrite decide_True; [reflexivity | now right].
      * rewrite decide_False; [reflexivity|]. rewrite elem_of_cons. intros [->|]; auto.
Qed.

Lemma indexOf_Some (p : nat) (l : list nat) (i : nat) :
  indexOf p l = Some i -> l !! i = Some p /\ forall j, (j < i)%nat -> l !! j <> Some p.
Proof.
  revert i. induction l as [|q l IH]; intros i; cbn [indexOf]; [discriminate|].
  case_bool_decide as Hq.
  - intros [= <-]. subst q. split; [reflexivity | intros j Hj; lia].
  - destruct (indexOf p l) as [k|]; cbn; [|discriminate].
    intros [= <-]. destruct (IH k eq_refl) as [Hk Hlt]. split; [exact Hk|].
    intros [|j] Hj; cbn; [congruence | apply Hlt; lia].
Qed.

Lemma indexOf_None (p : nat) (l : list nat) : indexOf p l = None -> p ∉ l.
Proof.
  induction l as [|q l IH]; cbn [indexOf]; [intros _; apply not_elem_of_nil|].
  case_bool_decide as Hq; [discriminate|].
  destruct (indexOf p l); cbn; [discriminate|].
  intros _. rewrite elem_of_cons. intros [->|Hin]; [congruence | now apply IH].
Qed.

Lemma elem_of_splice1 (l : list nat) (i p q : nat) :
  NoDup l -> l !! i = Some p -> (q ∈ splice1 i l <-> q ∈ l /\ q <> p).
Proof.
  intros Hnd Hi. unfold splice1.
  rewrite <- (take_drop_middle l i p Hi) in Hnd at 1.
  apply NoDup_app in Hnd as (_ & Hdisj & Hnd2). apply NoDup_cons in Hnd2 as [Hp _].
  rewrite <- (take_drop_middle l i p Hi) at 3.
  rewrite !elem_of_app, elem_of_cons. split.
  - intros [Hq|Hq]; (split; [tauto|]); intros ->.
    + apply (Hdisj p Hq). left.
    + contradiction.
  - intros [[Hq|[->|Hq]] Hne]; tauto.
Qed.

Lemma NoDup_splice1 (l : list nat) (i : nat) : NoDup l -> NoDup (splice1 i l).
Proof.
  intros Hnd. unfold splice1. apply (sublist_NoDup _ l Hnd).
  assert (Hs : take i l ++ drop (S i) l `sublist_of` take i l ++ drop i l).
  { apply sublist_app; [reflexivity|].
    replace (S i) with (i + 1)%nat by lia. rewrite <- drop_drop. apply sublist_drop. }
  now rewrite take_drop in Hs.
Qed.

Lemma broadcast_fields (m : outMessage) (st : session) :
  selectedElement (broadcast m st) = selectedElement st
  /\ currentHtml (broadcast m st) = currentHtml st
  /\ selectionResolvers (broadcast m st) = selectionResolvers st
  /\ promises (broadcast m st) = promises st
  /\ nextPromise (broadcast m st) = nextPromise st
  /\ timers (broadcast m st) = timers st
  /\ now (broadcast m st) = now st
  /\ disk (broadcast m st) = disk st.
Proof.
  unfold broadcast. generalize (connectedClients st) at 1 2 3 4 5 6 7 8.
  intros cs. revert st. induction cs as [|[c o] cs IH]; intros st; cbn [fold_left].
  - repeat split.
  - destruct (IH (if (o : bool) then send c m st else st)) as (E1&E2&E3&E4&E5&E6&E7&E8).
    cbn [fst snd]. rewrite E1, E2, E3, E4, E5, E6, E7, E8.
    destruct o; repeat split.
Qed.

Section CoordinatorProps.
Context `{CssTree} `{RegExpEngine} `{NodePath}.

(** A message other than a selection leaves the waiters, the promises and
    the selection as they are. *)
Lemma handleMessage_waiters (m : inbound) (ws : nat) (st : session) :
  (forall payload, m <> ElementSelected payload) ->
  selectionResolvers (handleMessage m ws st).2 = selectionResolvers st
  /\ promises (handleMessage m ws st).2 = promises st
  /\ nextPromise (handleMessage m ws st).2 = nextPromise st
  /\ selectedElement (handleMessage m ws st).2 = selectedElement st.
Proof.
  intros Hm. destruct m as [payload| | |[doc|]|[change|]|type]; cbn [handleMessage].
  - now destruct (Hm payload).
  - repeat split.
  - destruct (currentHtml st); repeat split.
  - destruct (broadcast_fields (OutLoadHtml doc) (setDocument (Some doc) (disk st) st))
      as (E1&_&E3&E4&E5&_). cbn [snd]. rewrite E1, E3, E4, E5. repeat split.
  - repeat split.
  - destruct (currentHtml st) as [doc|]; [|repeat split].
    destruct (applyCssChange (filePath doc) change (disk st)) as [[result|e] w1];
      [|repeat split].
    destruct (success result); [|repeat split].
    destruct (readFileSync (filePath doc) w1) as [[text|e] w2]; [|repeat split].
    cbn [snd].
    match goal with |- context [broadcast ?a (broadcast ?b ?s)] =>
      destruct (broadcast_fields a (broadcast b s)) as (E1&_&E3&E4&E5&_);
      destruct (broadcast_fields b s) as (F1&_&F3&F4&F5&_) end.
    rewrite E1, E3, E4, E5, F1, F3, F4, F5. repeat split.
  - repeat split.
  - repeat split.
Qed.

Lemma onMessage_waiters (m : inbound) (ws : nat) (st : session) :
  (forall payload, m <> ElementSelected payload) ->
  selectionResolvers (onMessage m ws st) = selectionResolvers st
  /\ promises (onMessage m ws st) = promises st
  /\ nextPromise (onMessage m ws st) = nextPromise st
  /\ selectedElement (onMessage m ws st) = selectedElement st.
Proof.
  intros Hm. pose proof (handleMessage_waiters m ws st Hm) as Hh. unfold onMessage.
  destruct (handleMessage m ws st) as [[[]|e] st']; exact Hh.
Qed.

Lemma step_waitersInOrder (st : session) (e : event) :
  waitersInOrder st -> waitersInOrder (step st e).
Proof.
  intros (Hnd & Hq & Hfresh).
  destruct e as [ws|ws|ws m|timeoutMs|ms|p]; cbn [step].
  - exact (conj Hnd (conj Hq Hfresh)).
  - exact (conj Hnd (conj Hq Hfresh)).
  - destruct m as [payload| | | | | ].
    2-6: (match goal with |- waitersInOrder (onMessage ?m ?c ?s) =>
            destruct (onMessage_waiters m c s ltac:(discriminate)) as (E1&E2&E3&_) end;
          unfold waitersInOrder; rewrite E1, E2, E3; exact (conj Hnd (conj Hq Hfresh))).
    unfold onMessage, handleMessage, waitersInOrder. cbn.
    split; [constructor|]. split; [intros p Hp; now apply elem_of_nil in Hp|].
    intros p Hp. rewrite settle_all_lookup, (Hfresh p Hp).
    rewrite decide_False; [reflexivity|]. intros Hin. apply Hq in Hin as [Hlt _]. lia.
  - unfold waitForSelection, waitersInOrder. destruct (selectedElement st) as [el|]; cbn.
    + split; [assumption|]. split.
      * intros p Hp. destruct (Hq p Hp) as [Hlt Hnone]. split; [lia|].
        rewrite settle_lookup, Hnone. rewrite decide_False; [reflexivity | lia].
      * intros p Hp. rewrite settle_lookup, (Hfresh p) by lia.
        rewrite decide_False; [reflexivity | lia].
    + split; [|split].
      * apply NoDup_app. split; [assumption|]. split; [|apply NoDup_singleton].
        intros p Hp Hp'. apply list_elem_of_singleton in Hp'. subst p.
        apply Hq in Hp as [Hlt _]. lia.
      * intros p Hp. apply elem_of_app in Hp as [Hp|Hp].
        -- destruct (Hq p Hp). split; [lia | assumption].
        -- apply list_elem_of_singleton in Hp. subst p. split; [lia | apply Hfresh; lia].
      * intros p Hp. apply Hfresh. lia.
  - exact (conj Hnd (conj Hq Hfresh)).
  - destruct (isDue p st); [|exact (conj Hnd (conj Hq Hfresh))].
    unfold onTimeout. cbn [selectionResolvers disarm].
    destruct (indexOf p (selectionResolvers st)) as [i|] eqn:Ei;
      [|exact (conj Hnd (conj Hq Hfresh))].
    destruct (indexOf_Some _ _ _ Ei) as [Hi _]. unfold waitersInOrder. cbn.
    split; [now apply NoDup_splice1|]. split.
    + intros q Hin. apply (elem_of_splice1 _ _ p q Hnd Hi) in Hin as [Hin Hne].
      destruct (Hq q Hin) as [Hlt Hnone]. split; [assumption|].
      rewrite settle_lookup, Hnone. rewrite decide_False; [reflexivity | congruence].
    + intros q Hge. rewrite settle_lookup, (Hfresh q Hge).
      rewrite decide_False; [reflexivity|]. intros ->.
      assert (Hin : q ∈ selectionResolvers st) by (eapply list_elem_of_lookup_2; eauto).
      apply Hq in Hin as [Hlt _]. lia.
Qed.

Lemma run_waitersInOrder (st : session) (es : list event) :
  waitersInOrder st -> waitersInOrder (run st es).
Proof.
  revert st. induction es as [|e es IH]; intros st Hst; [assumption|].
  cbn. apply IH. now apply step_waitersInOrder.
Qed.

Lemma initial_waitersInOrder (w : world) : waitersInOrder (initial w).
Proof.
  unfold waitersInOrder, initial. cbn. split; [constructor|]. split.
  - intros p Hp. now apply elem_of_nil in Hp.
  - intros p _. apply lookup_empty.
Qed.

(** A settled promise stays settled as it was. *)
Lemma step_settled (st : session) (e : event) (p : nat) (s : settlement) :
  promises st !! p = Some s -> promises (step st e) !! p = Some s.
Proof.
  intros Hp. destruct e as [ws|ws|ws m|timeoutMs|ms|q]; cbn [step]; try assumption.
  - destruct m as [payload| | | | | ].
    2-6: (match goal with |- promises (onMessage ?m ?c ?s) !! _ = _ =>
            destruct (onMessage_waiters m c s ltac:(discriminate)) as (_&E2&_) end;
          now rewrite E2).
    unfold onMessage, handleMessage. cbn. now rewrite settle_all_lookup, Hp.
  - unfold waitForSelection. destruct (selectedElement st); cbn; [|assumption].
    now rewrite settle_lookup, Hp.
  - destruct (isDue q st); [|assumption]. unfold onTimeout. cbn [selectionResolvers disarm].
    destruct (indexOf q (selectionResolvers st)); cbn; [|assumption].
    now rewrite settle_lookup, Hp.
Qed.

Lemma run_settled (st : session) (es : list event) (p : nat) (s : settlement) :
  promises st !! p = Some s -> promises (run st es) !! p = Some s.
Proof.
  revert st. induction es as [|e es IH]; intros st Hp; [assumption|].
  cbn. apply IH. now apply step_settled.
Qed.

(** C6. In every state the session can reach:
    - an [element-selected] message resolves every waiter of the queue with
      its payload, makes the payload the selection and empties the queue;
    - [waitForSelection] with a selection present resolves at once with it,
      and adds neither a waiter nor a timer;
    - [waitForSelection] without a selection queues a new waiter and arms
      its timer;
    - when the timer of a waiter still in the queue fires, the waiter leaves
      the queue, its promise is rejected, and the other waiters stay;
    - a waiter is in the queue at most once and only while its promise is
      not settled, and a settled promise keeps its outcome and never comes
      back to the queue. *)
Theorem waiters_resolved_or_timed_out_once (st : session) :
  reachable st ->
  (forall ws payload,
      selectedElement (step st (Receive ws (ElementSelected payload))) = payload
      /\ selectionResolvers (step st (Receive ws (ElementSelected payload))) = []
      /\ forall p, p ∈ selectionResolvers st ->
           promises (step st (Receive ws (ElementSelected payload))) !! p
           = Some (Resolved payload))
  /\ (forall el timeoutMs p st',
        selectedElement st = Some el ->
        waitForSelection timeoutMs st = (p, st') ->
        promises st' !! p = Some (Resolved (Some el))
        /\ selectionResolvers st' = selectionResolvers st
        /\ timers st' = timers st)
  /\ (forall timeoutMs p st',
        selectedElement st = None ->
        waitForSelection timeoutMs st = (p, st') ->
        selectionResolvers st' = selectionResolvers st ++ [p]
        /\ (p ∉ selectionResolvers st)
        /\ promises st' !! p = None
        /\ timers st' = timers st ++ [(p, now st + timeoutMs)])
  /\ (forall p,
        p ∈ selectionResolvers st ->
        isDue p st = true ->
        (p ∉ selectionResolvers (step st (Fire p)))
        /\ promises (step st (Fire p)) !! p = Some Rejected
        /\ forall q, q <> p ->
             (q ∈ selectionResolvers (step st (Fire p)) <-> q ∈ selectionResolvers st))
  /\ NoDup (selectionResolvers st)
  /\ (forall p, p ∈ selectionResolvers st -> promises st !! p = None)
  /\ (forall p s es,
        promises st !! p = Some s ->
        promises (run st es) !! p = Some s
        /\ (p ∉ selectionResolvers (run st es))).
Proof.
  intros (w & es & ->).
  pose proof (run_waitersInOrder _ es (initial_waitersInOrder w)) as Hinv.
  set (st := run (initial w) es) in *. destruct Hinv as (Hnd & Hq & Hfresh).
  split; [|split; [|split; [|split; [|split; [|split]]]]].
  - intros ws payload. unfold step, onMessage, handleMessage. cbn.
    split; [reflexivity|]. split; [reflexivity|].
    intros p Hp. rewrite settle_all_lookup. destruct (Hq p Hp) as [_ ->].
    now rewrite decide_True.
  - intros el timeoutMs p st' Hsel. unfold waitForSelection. rewrite Hsel.
    intros [= <- <-]. cbn. split; [|split; reflexivity].
    rewrite settle_lookup, (Hfresh (nextPromise st)) by lia. now rewrite decide_True.
  - intros timeoutMs p st' Hsel. unfold waitForSelection. rewrite Hsel.
    intros [= <- <-]. cbn. split; [reflexivity|]. split; [|split; [|reflexivity]].
    + intros Hin. apply Hq in Hin as [Hlt _]. lia.
    + apply Hfresh. lia.
  - intros p Hp Hdue. cbn [step]. rewrite Hdue. unfold onTimeout.
    cbn [selectionResolvers disarm].
    destruct (indexOf p (selectionResolvers st)) as [i|] eqn:Ei.
    + destruct (indexOf_Some _ _ _ Ei) as [Hi _]. cbn. split; [|split].
      * intros Hin. apply (elem_of_splice1 _ _ p p Hnd Hi) in Hin as [_ Hne]. congruence.
      * rewrite settle_lookup. destruct (Hq p Hp) as [_ ->]. now rewrite decide_True.
      * intros q Hne. rewrite (elem_of_splice1 _ _ p q Hnd Hi). tauto.
    + apply indexOf_None in Ei. contradiction.
  - exact Hnd.
  - intros p Hp. now destruct (Hq p Hp).
  - intros p s es' Hp. split; [now apply run_settled|].
    pose proof (run_waitersInOrder st es' (conj Hnd (conj Hq Hfresh))) as (_ & Hq' & _).
    intros Hin. destruct (Hq' p Hin) as [_ Hnone].
    rewrite (run_settled st es' p s Hp) in Hnone. discriminate.
Qed.

(** C10. An [apply-css] message that arrives when no document is loaded, or
    without a payload, changes nothing: no file is written, no message is
    sent, and the document, the selection and the waiters stay as they
    are. *)
Theorem handleMessage_apply_css_ignored
    (payload : option CssChange) (ws : nat) (st : session) :
  currentHtml st = None \/ payload = None ->
  handleMessage (ApplyCss payload) ws st = (Ret tt, st).
Proof.
  intros [Hdoc | ->]; [|reflexivity].
  destruct payload; cbn [handleMessage]; [now rewrite Hdoc | reflexivity].
Qed.

End CoordinatorProps.

Lemma handleMessage_apply_css_ignored_witness :
  @handleMessage sampleCss sampleEngine samplePath
    (ApplyCss (Some (sampleChange "h1" "color" "red"))) 0 (initial sampleWorld)
  = (Ret tt, initial sampleWorld).
Proof.
  apply (@handleMessage_apply_css_ignored sampleCss sampleEngine samplePath).
  left. reflexivity.
Defined.

Definition sampleElement : SelectedElement :=
  {| elSelector := js "h1"; tag := js "h1"; line := 3%Z; styles := ∅ |}.

(** Two callers wait, then a view reports a selection: both are resolved
    with it. *)
Definition sampleSession : session :=
  @run sampleCss sampleEngine samplePath (initial sampleWorld) [Wait 50; Wait 70].

Lemma waiters_resolved_or_timed_out_once_witness :
  selectionResolvers sampleSession = [0%nat; 1%nat]
  /\ promises (@step sampleCss sampleEngine samplePath sampleSession
                 (Receive 7 (ElementSelected (Some sampleElement)))) !! 1%nat
     = Some (Resolved (Some sampleElement)).
Proof.
  split; [reflexivity|].
  apply (@waiters_resolved_or_timed_out_once sampleCss sampleEngine samplePath sampleSession).
  - exists sampleWorld, [Wait 50; Wait 70]. reflexivity.
  - right. left.
Defined.

(** ** The fallback text patcher *)

Lemma skipSpaces_split (s : jsstring) :
  exists ws, s = ws ++ skipSpaces s /\ allSpace ws.
Proof.
  induction s as [|c t (ws & Ht & Hws)]; [exists []; split; [reflexivity | apply allSpace_nil]|].
  cbn [skipSpaces]. destruct (isSpace c) eqn:E.
  - exists (c :: ws). split; [cbn; now f_equal | now apply allSpace_cons].
  - exists []. split; [reflexivity | apply allSpace_nil].
Qed.

Section FallbackProps.
Context `{RegExpEngine}.

(** What the selector regex matches: the selector up to case, white space,
    an opening brace, characters other than a closing brace, and a closing
    brace; group 1 is the match without the closing brace. *)
Lemma reSelectorBlock_shape (sel s rest : jsstring) (g : list jsstring) :
  reSelectorBlock sel s = Some (g, rest) ->
  exists m ws body,
    s = (m ++ ws ++ [123] ++ body ++ [125]) ++ rest
    /\ Forall2 (fun x y => eqCI x y = true) sel m
    /\ allSpace ws
    /\ Forall (fun c => c <> 125) body
    /\ g = [m ++ ws ++ [123] ++ body].
Proof.
  unfold reSelectorBlock.
  destruct (stripPrefixBy eqCI sel s) as [r1|] eqn:E1; [|discriminate].
  destruct (stripPrefixBy_suffix _ _ _ _ E1) as (m & -> & Hm).
  destruct (skipSpaces_split r1) as (ws & Hr1 & Hws).
  destruct (skipSpaces r1) as [|c r2]; [discriminate|].
  destruct (N.eqb_spec c 123) as [->|]; [|discriminate].
  destruct (spanClass_app (fun d => negb (d =? 125)) r2) as (Hr2 & Hbody & _).
  destruct (spanClass (fun d => negb (d =? 125)) r2) as [body r3]. cbn [fst snd] in *.
  destruct r3 as [|d r4]; [discriminate|].
  destruct (N.eqb_spec d 125) as [->|]; [|discriminate].
  intros [= <- <-]. exists m, ws, body.
  assert (Hs : m ++ r1 = (m ++ ws ++ [123] ++ body ++ [125]) ++ r4).
  { rewrite Hr1, Hr2. now rewrite <- !app_assoc. }
  split; [exact Hs|]. split; [exact Hm|]. split; [exact Hws|]. split.
  - eapply Forall_impl; [exact Hbody|]. intros x Hx ->. discriminate.
  - f_equal.
    assert (Hs' : m ++ r1 = (m ++ ws ++ [123] ++ body) ++ 125 :: r4).
    { rewrite Hr1, Hr2. now rewrite <- !app_assoc. }
    rewrite Hs'. apply consumed_app.
Qed.

Lemma reSelectorBlock_suffixing (sel : jsstring) : suffixing (reSelectorBlock sel).
Proof.
  intros s g rest E. destruct (reSelectorBlock_shape _ _ _ _ E) as (m & ws & body & -> & _).
  eexists. split; [reflexivity|]. destruct m; [destruct ws|]; discriminate.
Qed.

(** What the fallback rewrites.  It cuts the fragment into characters it
    keeps and blocks it rewrites.  A block is rewritten only where the text
    reads, without regard to case, as the selector of the change, then
    white space, an opening brace, characters other than a closing brace,
    and a closing brace; the match may start inside a longer selector.  The
    selector is not normalised: for the selectors [.x >.y] and [.x > .y],
    which the structured engine takes as equal, the fallback finds no
    block. *)
Lemma applyWithRegex_rewrites_only_selector_blocks (css : jsstring) (change : CssChange) :
  css = concat (map pieceText (scan (reSelectorBlock (selector change)) css))
  /\ (forall w g b a,
        Hit w g b a ∈ scan (reSelectorBlock (selector change)) css ->
        css = b ++ w ++ a
        /\ exists m ws body,
             w = m ++ ws ++ [123] ++ body ++ [125]
             /\ Forall2 (fun x y => eqCI x y = true) (selector change) m
             /\ allSpace ws
             /\ Forall (fun c => c <> 125) body
             /\ g = [m ++ ws ++ [123] ++ body])
  /\ (forall result,
        applyWithRegex css change = Ret result ->
        modified result = existsb isHit (scan (reSelectorBlock (selector change)) css)
        /\ exists texts,
             content result = concat texts
             /\ Forall2 (fun p t => patchPiece change p = Ret t)
                  (scan (reSelectorBlock (selector change)) css) texts)
  /\ selectorEq (js ".x >.y") (js ".x > .y") = true
  /\ applyWithRegex (js ".x >.y{color:red}") (sampleChange ".x > .y" "color" "blue")
     = Ret {| modified := false; content := js ".x >.y{color:red}" |}.
Proof.
  split; [|split; [|split; [|split]]].
  - symmetry. apply scan_text, reSelectorBlock_suffixing.
  - intros w g b a Hin.
    apply (scan_hit _ _ _ _ _ _ (reSelectorBlock_suffixing _)) in Hin as [Hm Hs].
    split; [exact Hs|].
    destruct (reSelectorBlock_shape _ _ _ _ Hm) as (m & ws & body & Hw & Hrest).
    apply app_inv_tail in Hw. eauto.
  - intros result. unfold applyWithRegex.
    destruct (mapM (patchPiece change) _) as [texts|e] eqn:E; cbn; [|discriminate].
    intros [= <-]. cbn. split; [reflexivity|]. exists texts. split; [reflexivity|].
    now apply mapM_Exc_Ret.
  - vm_compute. reflexivity.
  - vm_compute. reflexivity.
Qed.

End FallbackProps.

(** A document whose style block has a rule for [.data] and one for [a]. *)
Definition dataWorld : world :=
  {| files :=
       {[ js "/page.html" := File (js "<style>.data{color:red} a{color:red}</style>") ]};
     writes := [] |}.

(** C7 (defect of the code).  The fragment [.data{color:red} a{color:red}]
    parses, and only its second rule has the selector [a].  With a value
    that css-tree rejects the walk throws at that rule and the fragment
    goes to the fallback, whose regex is not anchored at the start of a
    selector: it finds [a{color:red}] inside [.data{color:red}] and
    rewrites the block of [.data], whose selector text is not the selector
    of the change.  On the same fragment with a value that parses, the
    structured engine changes the rule of [a] alone.  Through
    [applyCssChange] the rewritten block is written to the document. *)
Theorem applyWithRegex_rewrites_other_selector_text :
  @parse sampleCss (js ".data{color:red} a{color:red}")
  = Ret [Rule (js ".data") [Declaration NotImportant (js "color") (js "red")];
         Rule (js "a") [Declaration NotImportant (js "color") (js "red")]]
  /\ selectorEq (js ".data") (js "a") = false
  /\ @parseValue sampleCss (js "blue !important") = Throw SyntaxError
  /\ @modifyCssContent sampleCss sampleEngine (sampleChange "a" "color" "blue !important")
       (js ".data{color:red} a{color:red}")
     = @applyWithRegex sampleEngine (js ".data{color:red} a{color:red}")
         (sampleChange "a" "color" "blue !important")
  /\ @applyWithRegex sampleEngine (js ".data{color:red} a{color:red}")
       (sampleChange "a" "color" "blue !important")
     = Ret {| modified := true;
              content := js ".data{color: blue !important;} a{color: blue !important;}" |}
  /\ @modifyCssContent sampleCss sampleEngine (sampleChange "a" "color" "blue")
       (js ".data{color:red} a{color:red}")
     = Ret {| modified := true; content := js ".data{color:red;}a{color:blue;}" |}
  /\ writes (@applyCssChange sampleCss sampleEngine samplePath (js "/page.html")
               (sampleChange "a" "color" "blue !important") dataWorld).2
     = [(js "/page.html",
         js "<style>.data{color: blue !important;} a{color: blue !important;}</style>")].
Proof. repeat split; vm_compute; reflexivity. Qed.

(** ** Every scan of the source makes progress

    The matchers not met above give back a proper suffix too, so the
    length of the text is enough fuel for each scan of the source. *)

Lemma greedyPlus_suffix {R : Type} (cls : N -> bool) (k : jsstring -> option (R * jsstring))
    (s rest : jsstring) (r : R) :
  (forall t r' rest', k t = Some (r', rest') -> exists p, t = p ++ rest') ->
  greedyPlus cls k s = Some (r, rest) -> exists p, s = p ++ rest /\ p <> [].
Proof.
  intros Hk. induction s as [|c t IH]; cbn [greedyPlus]; [discriminate|].
  destruct (cls c); [|discriminate].
  destruct (greedyPlus cls k t) as [[r0 rest0]|] eqn:E.
  - intros [= -> ->]. destruct (IH eq_refl) as (p & -> & _). now exists (c :: p).
  - intros Hkt. destruct (Hk _ _ _ Hkt) as (p & ->). now exists (c :: p).
Qed.

Section Progress.
Context `{RegExpEngine}.

Lemma rePropertyDecl_suffixing (prop : jsstring) : suffixing (rePropertyDecl prop).
Proof.
  intros s g rest. unfold rePropertyDecl.
  destruct (stripPrefixBy eqCI prop s) as [r1|] eqn:E1; [|discriminate].
  destruct (stripPrefixBy_suffix _ _ _ _ E1) as (m & -> & _).
  destruct (skipSpaces_split r1) as (ws & Hr1 & _).
  destruct (skipSpaces r1) as [|c r2]; [discriminate|].
  destruct (c =? 58); [|discriminate].
  destruct (spanClass_app (fun d => negb (d =? 59)) r2) as (Hr2 & _ & _).
  destruct (spanClass (fun d => negb (d =? 59)) r2) as [[|x xs] r3]; [discriminate|].
  cbn [fst snd] in Hr2. destruct r3 as [|d r4]; intros [= <- <-].
  - exists (m ++ r1). split; [now rewrite app_nil_r|]. rewrite Hr1.
    destruct m; [destruct ws|]; discriminate.
  - exists (m ++ ws ++ c :: (x :: xs) ++ [d]). split.
    + rewrite Hr1, Hr2. now rewrite <- !app_assoc; cbn [app]; rewrite <- !app_assoc.
    + destruct m; [destruct ws|]; discriminate.
Qed.

Lemma reLinkHref_suffix (s : jsstring) (g : list jsstring) (rest : jsstring) :
  reLinkHref s = Some (g, rest) -> exists p, s = p ++ rest.
Proof.
  unfold reLinkHref.
  destruct (stripPrefixBy eqCI (js "href=") s) as [[|q r1]|] eqn:E1; try discriminate.
  destruct (stripPrefixBy_suffix _ _ _ _ E1) as (m & -> & _).
  destruct (isQuote q); [|discriminate].
  destruct (spanClass_app (fun c => negb (isQuote c)) r1) as (Hr1 & _ & _).
  destruct (spanClass (fun c => negb (isQuote c)) r1) as [[|h hs] [|q' rest']];
    try discriminate.
  cbn [fst snd] in Hr1. intros [= <- <-].
  exists (m ++ q :: (h :: hs) ++ [q']). rewrite Hr1.
  now rewrite <- !app_assoc; cbn [app]; rewrite <- !app_assoc.
Qed.

Lemma reLinkRel_suffix (s : jsstring) (g : list jsstring) (rest : jsstring) :
  reLinkRel s = Some (g, rest) -> exists p, s = p ++ rest.
Proof.
  unfold reLinkRel.
  destruct (stripPrefixBy eqCI (js "rel=") s) as [[|q r1]|] eqn:E1; try discriminate.
  destruct (stripPrefixBy_suffix _ _ _ _ E1) as (m & -> & _).
  destruct (isQuote q); [|discriminate].
  destruct (stripPrefixBy eqCI (js "stylesheet") r1) as [[|q' r2]|] eqn:E2; try discriminate.
  destruct (stripPrefixBy_suffix _ _ _ _ E2) as (m2 & -> & _).
  destruct (isQuote q'); [|discriminate].
  intros Hg. destruct (greedyPlus_suffix _ _ _ _ _ reLinkHref_suffix Hg) as (p & -> & _).
  exists (m ++ q :: m2 ++ q' :: p). now rewrite <- !app_assoc; cbn [app]; rewrite <- !app_assoc.
Qed.

Lemma reLink_suffixing : suffixing reLink.
Proof.
  intros s g rest. unfold reLink.
  destruct (stripPrefixBy eqCI (js "<link") s) as [r1|] eqn:E1; [|discriminate].
  destruct (stripPrefixBy_suffix _ _ _ _ E1) as (m & -> & _).
  intros Hg. destruct (greedyPlus_suffix _ _ _ _ _ reLinkRel_suffix Hg) as (p & -> & Hp).
  exists (m ++ p). split; [now rewrite <- app_assoc|].
  destruct m; [assumption | discriminate].
Qed.

End Progress.

(** * Part III: further properties of the code *)

(** ** Selector normalisation and white space *)

Lemma unparseL_app (l1 l2 : list (jsstring * N)) (tl : jsstring) :
  unparseL (l1 ++ l2) tl = unparseL l1 (unparseL l2 tl).
Proof.
  induction l1 as [|[w y] l1 IH]; [reflexivity|]. cbn [app unparseL]. now rewrite IH.
Qed.

Lemma unparseL_tail_app (l : list (jsstring * N)) (tl x : jsstring) :
  unparseL l tl ++ x = unparseL l (tl ++ x).
Proof.
  induction l as [|[w y] l IH]; [reflexivity|]. cbn [unparseL].
  rewrite <- app_assoc. cbn [app]. now rewrite IH.
Qed.

Lemma mapPrev_app g prev (l1 l2 : list (jsstring * N)) :
  mapPrev g prev (l1 ++ l2) = mapPrev g prev l1 ++ mapPrev g (lastOr prev l1) l2.
Proof.
  revert prev. induction l1 as [|[w y] l1 IH]; intros prev; [reflexivity|].
  cbn [app mapPrev lastOr]. now rewrite IH.
Qed.

(** A run of white space put in front of a cut string joins the run of its
    first character, or the final run when there is no character. *)
Definition glueL (w : jsstring) (l : list (jsstring * N)) : list (jsstring * N) :=
  match l with
  | [] => []
  | (w0, y) :: l' => (w ++ w0, y) :: l'
  end.

Definition glueT (w : jsstring) (l : list (jsstring * N)) (tl : jsstring) : jsstring :=
  match l with
  | [] => w ++ tl
  | _ :: _ => tl
  end.

Lemma unparseL_glue (w : jsstring) (l : list (jsstring * N)) (tl : jsstring) :
  w ++ unparseL l tl = unparseL (glueL w l) (glueT w l tl).
Proof. destruct l as [|[w0 y] l]; [reflexivity|]. cbn. now rewrite <- app_assoc. Qed.

Lemma glueL_wf (w : jsstring) (l : list (jsstring * N)) :
  allSpace w -> Forall wfEntry l -> Forall wfEntry (glueL w l).
Proof.
  intros Hw Hl. destruct Hl as [|[w0 y] l [Hw0 Hy] Hl]; [constructor|].
  constructor; [|assumption]. split; [now apply allSpace_app | assumption].
Qed.

Lemma glueT_allSpace (w : jsstring) (l : list (jsstring * N)) (tl : jsstring) :
  allSpace w -> allSpace tl -> allSpace (glueT w l tl).
Proof. intros Hw Htl. destruct l; [now apply allSpace_app | assumption]. Qed.

(** A string as its cut. *)
Lemma cut_string (s : jsstring) :
  exists l tl, s = unparseL l tl /\ Forall wfEntry l /\ allSpace tl.
Proof.
  exists (parseL [] s), (parseT [] s).
  destruct (parse_wf s [] allSpace_nil) as [Hl Htl].
  split; [symmetry; apply (unparse_parse s []) | split; assumption].
Qed.

(** The result depends on the cut through [gNorm] only. *)
Lemma normalizeSelector_cong (l l' : list (jsstring * N)) (tl tl' : jsstring) :
  Forall wfEntry l -> allSpace tl -> Forall wfEntry l' -> allSpace tl' ->
  mapPrev gNorm None l = mapPrev gNorm None l' ->
  normalizeSelector (unparseL l tl) = normalizeSelector (unparseL l' tl').
Proof.
  intros Hl Htl Hl' Htl' E.
  rewrite (normalizeSelector_segs l tl Hl Htl), (normalizeSelector_segs l' tl' Hl' Htl').
  rewrite <- (lastOr_mapPrev gNorm None l), <- (lastOr_mapPrev gNorm None l'). now rewrite E.
Qed.

Lemma gNorm_collapse (prev : option N) (y : N) (w w' : jsstring) :
  collapseRun w = collapseRun w' -> gNorm prev y w = gNorm prev y w'.
Proof. intros E. unfold gNorm, gTrim. destruct prev; [now rewrite E | reflexivity]. Qed.

Lemma mapPrev_gNorm_glue_first (w : jsstring) (l : list (jsstring * N)) :
  mapPrev gNorm None (glueL w l) = mapPrev gNorm None l.
Proof. destruct l as [|[w0 y] l]; reflexivity. Qed.

Lemma collapseRun_middle (a w b : jsstring) : w <> [] -> collapseRun (a ++ w ++ b) = [SP].
Proof. intros Hw. destruct a; [destruct w; [contradiction|]|]; reflexivity. Qed.

(** X1. White space at the ends of a selector does not count, and any run of
    white space inside it counts as one space: the selector with white space
    put around it and with a run of white space in place of one space has
    the same normal form. *)
Theorem normalizeSelector_ignores_amount_of_space (a b w1 w w2 : jsstring) :
  allSpace w1 -> allSpace w -> w <> [] -> allSpace w2 ->
  normalizeSelector (w1 ++ a ++ w ++ b ++ w2) = normalizeSelector (a ++ SP :: b).
Proof.
  intros Hw1 Hw Hne Hw2.
  destruct (cut_string a) as (la & ta & -> & Hla & Hta).
  destruct (cut_string b) as (lb & tb & -> & Hlb & Htb).
  assert (Hsp : allSpace [SP]) by reflexivity.
  assert (E1 : w1 ++ unparseL la ta ++ w ++ unparseL lb tb ++ w2
               = unparseL (glueL w1 (la ++ glueL ta (glueL w lb)))
                   (glueT w1 (la ++ glueL ta (glueL w lb))
                      (glueT ta (glueL w lb) (glueT w lb (tb ++ w2))))).
  { rewrite (unparseL_tail_app lb), (unparseL_glue w), (unparseL_tail_app la),
      (unparseL_glue ta), <- unparseL_app. apply unparseL_glue. }
  assert (E2 : unparseL la ta ++ SP :: unparseL lb tb
               = unparseL (la ++ glueL ta (glueL [SP] lb))
                   (glueT ta (glueL [SP] lb) (glueT [SP] lb tb))).
  { change (SP :: unparseL lb tb) with ([SP] ++ unparseL lb tb).
    rewrite (unparseL_glue [SP]), (unparseL_tail_app la), (unparseL_glue ta).
    now rewrite <- unparseL_app. }
  rewrite E1, E2. apply normalizeSelector_cong.
  - apply glueL_wf; [assumption|]. apply Forall_app. split; [assumption|].
    repeat apply glueL_wf; assumption.
  - repeat apply glueT_allSpace; try assumption. now apply allSpace_app.
  - apply Forall_app. split; [assumption|]. repeat apply glueL_wf; assumption.
  - repeat apply glueT_allSpace; assumption.
  - rewrite mapPrev_gNorm_glue_first, !mapPrev_app. f_equal.
    destruct lb as [|[w0 y] lb]; [reflexivity|]. cbn [glueL mapPrev]. f_equal. f_equal.
    apply gNorm_collapse.
    rewrite (collapseRun_middle ta w w0 Hne).
    now rewrite (collapseRun_middle ta [SP] w0).
Qed.

Lemma normalizeSelector_ignores_amount_of_space_witness :
  normalizeSelector (js "  " ++ js "ul" ++ [9; 10; 32] ++ js "li" ++ js " ")
  = normalizeSelector (js "ul" ++ SP :: js "li").
Proof.
  apply (normalizeSelector_ignores_amount_of_space (js "ul") (js "li") (js "  ") [9; 10; 32]
           (js " ")); try reflexivity; discriminate.
Defined.

Lemma gNorm_at_combinator (x : N) (prev : option N) (w w' : jsstring) :
  x = GT \/ x = COMMA -> gNorm prev x w = gNorm prev x w'.
Proof.
  intros [-> | ->]; unfold gNorm, gAround, gTrim;
    destruct prev as [p|]; repeat case_decide; try congruence; reflexivity.
Qed.

Lemma gNorm_after_combinator (x y : N) (w w' : jsstring) :
  x = GT \/ x = COMMA -> gNorm (Some x) y w = gNorm (Some x) y w'.
Proof.
  intros [-> | ->]; unfold gNorm, gAround, gTrim;
    repeat case_decide; try congruence;
    destruct (N.eqb_spec y GT); destruct (N.eqb_spec y COMMA); subst;
    try discriminate; reflexivity.
Qed.

(** X2. White space around a child combinator or around a comma does not
    count: with or without it, before or after, the selector has the same
    normal form. *)
Theorem normalizeSelector_ignores_space_around_combinators (x : N) (a b w1 w2 : jsstring) :
  x = GT \/ x = COMMA -> allSpace w1 -> allSpace w2 ->
  normalizeSelector (a ++ w1 ++ x :: w2 ++ b) = normalizeSelector (a ++ x :: b).
Proof.
  intros Hx Hw1 Hw2.
  assert (Hxs : isSpace x = false) by (destruct Hx as [-> | ->]; reflexivity).
  destruct (cut_string a) as (la & ta & -> & Hla & Hta).
  destruct (cut_string b) as (lb & tb & -> & Hlb & Htb).
  assert (E1 : unparseL la ta ++ w1 ++ x :: w2 ++ unparseL lb tb
               = unparseL (la ++ (ta ++ w1, x) :: glueL w2 lb) (glueT w2 lb tb)).
  { rewrite (unparseL_glue w2), unparseL_app. cbn [unparseL].
    rewrite (unparseL_tail_app la). now rewrite <- app_assoc. }
  assert (E2 : unparseL la ta ++ x :: unparseL lb tb
               = unparseL (la ++ (ta, x) :: lb) tb).
  { rewrite unparseL_app. cbn [unparseL]. now rewrite (unparseL_tail_app la). }
  rewrite E1, E2. apply normalizeSelector_cong.
  - apply Forall_app. split; [assumption|]. constructor.
    + split; [now apply allSpace_app | assumption].
    + now apply glueL_wf.
  - now apply glueT_allSpace.
  - apply Forall_app. split; [assumption|]. constructor; [split|]; assumption.
  - assumption.
  - rewrite !mapPrev_app. f_equal. cbn [mapPrev]. f_equal.
    + f_equal. now apply gNorm_at_combinator.
    + destruct lb as [|[w0 y] lb]; [reflexivity|]. cbn [glueL mapPrev]. f_equal. f_equal.
      now apply gNorm_after_combinator.
Qed.

Lemma normalizeSelector_ignores_space_around_combinators_witness :
  normalizeSelector (js "ul" ++ js "  " ++ GT :: [9] ++ js "li")
  = normalizeSelector (js "ul" ++ GT :: js "li").
Proof.
  apply (normalizeSelector_ignores_space_around_combinators GT (js "ul") (js "li") (js "  ") [9]);
    [now left | reflexivity | reflexivity].
Defined.

(** The characters of a string that are not white space. *)
Definition nonSpace (s : jsstring) : jsstring := List.filter (fun c => negb (isSpace c)) s.

Lemma nonSpace_allSpace (w : jsstring) : allSpace w -> nonSpace w = [].
Proof.
  induction w as [|c w IH]; [reflexivity|]. intros Hw.
  apply allSpace_cons in Hw as [Hc Hw]. unfold nonSpace in *. cbn. rewrite Hc. cbn. auto.
Qed.

Lemma nonSpace_unparseL (l : list (jsstring * N)) (tl : jsstring) :
  Forall wfEntry l -> allSpace tl -> nonSpace (unparseL l tl) = map snd l.
Proof.
  intros Hl Htl. induction Hl as [|[w y] l [Hw Hy] Hl IH]; cbn [unparseL map snd].
  - now apply nonSpace_allSpace.
  - unfold nonSpace in *. rewrite List.filter_app. fold (nonSpace w).
    rewrite (nonSpace_allSpace w Hw). cbn. cbn in Hy. rewrite Hy. cbn. now rewrite IH.
Qed.

Lemma map_snd_mapPrev g prev (l : list (jsstring * N)) : map snd (mapPrev g prev l) = map snd l.
Proof. revert prev. induction l as [|[w y] l IH]; intros prev; cbn; [auto|]. now rewrite IH. Qed.

Definition plainSpaces (w : jsstring) : Prop := Forall (fun c => c = SP) w.

Lemma gNorm_plainSpaces (prev : option N) (y : N) (w : jsstring) : plainSpaces (gNorm prev y w).
Proof.
  unfold gNorm, gAround, gTrim, collapseRun, plainSpaces.
  destruct prev as [p|]; repeat case_decide; destruct (y =? GT); destruct (y =? COMMA);
    destruct w; cbn; repeat constructor.
Qed.

Lemma tNorm_plainSpaces (last : option N) : plainSpaces (tNorm last).
Proof.
  unfold tNorm, tAround, plainSpaces. repeat case_decide; repeat constructor.
Qed.

Lemma mapPrev_gNorm_plainSpaces (prev : option N) (l : list (jsstring * N)) :
  Forall wfEntry l ->
  Forall (fun e => plainSpaces e.1 /\ isSpace e.2 = false) (mapPrev gNorm prev l).
Proof.
  intros Hl. revert prev. induction Hl as [|[w y] l [Hw Hy] Hl IH]; intros prev; cbn.
  - constructor.
  - constructor; [split; [apply gNorm_plainSpaces | assumption] | apply IH].
Qed.

Lemma unparseL_plainSpaces (l : list (jsstring * N)) (tl : jsstring) :
  Forall (fun e => plainSpaces e.1 /\ isSpace e.2 = false) l -> plainSpaces tl ->
  Forall (fun c => isSpace c = true -> c = SP) (unparseL l tl).
Proof.
  intros Hl Htl. induction Hl as [|[w y] l [Hw Hy] Hl IH]; cbn [unparseL].
  - eapply Forall_impl; [exact Htl|]. auto.
  - apply Forall_app. split.
    + eapply Forall_impl; [exact Hw|]. auto.
    + constructor; [|exact IH]. cbn in Hy. intros Hs. congruence.
Qed.

(** X3. Normalisation touches white space only: the characters that are not
    white space are kept, in their order, and every white space character of
    the result is a plain space.  Hence two selectors that the engine takes
    as equal have the same characters apart from white space. *)
Theorem normalizeSelector_keeps_non_space (s : jsstring) :
  nonSpace (normalizeSelector s) = nonSpace s
  /\ Forall (fun c => isSpace c = true -> c = SP) (normalizeSelector s)
  /\ forall t, selectorEq s t = true -> nonSpace s = nonSpace t.
Proof.
  assert (Hkeep : forall u, nonSpace (normalizeSelector u) = nonSpace u).
  { intros u. destruct (cut_string u) as (l & tl & -> & Hl & Htl).
    rewrite (normalizeSelector_segs l tl Hl Htl).
    rewrite nonSpace_unparseL;
      [| apply mapPrev_wf; [apply gNorm_allSpace | assumption] | apply tNorm_allSpace].
    rewrite map_snd_mapPrev. symmetry. now apply nonSpace_unparseL. }
  split; [apply Hkeep|]. split.
  - destruct (cut_string s) as (l & tl & -> & Hl & Htl).
    rewrite (normalizeSelector_segs l tl Hl Htl).
    apply unparseL_plainSpaces; [now apply mapPrev_gNorm_plainSpaces | apply tNorm_plainSpaces].
  - intros t Ht. unfold selectorEq in Ht. apply bool_decide_eq_true in Ht.
    rewrite <- (Hkeep s), <- (Hkeep t). now rewrite Ht.
Qed.

(** ** The mutation engine: what an unmodified result means, a second
    application, and reading back *)

Section FallbackUnmodified.
Context `{RegExpEngine}.

Lemma patchPiece_no_hit (change : CssChange) (pieces : list piece) (texts : list jsstring) :
  existsb isHit pieces = false ->
  Forall2 (fun p t => patchPiece change p = Ret t) pieces texts ->
  concat texts = concat (map pieceText pieces).
Proof.
  intros Hno Hall. induction Hall as [|p t pieces texts Hp Hall IH]; [reflexivity|].
  cbn [existsb] in Hno. apply orb_false_iff in Hno as [Hp0 Hno].
  destruct p as [c|w g b a]; [|discriminate]. cbn in Hp. injection Hp as <-.
  cbn [map concat pieceText]. now rewrite (IH Hno).
Qed.

Lemma applyWithRegex_unmodified (css : jsstring) (change : CssChange) (r : Mutation) :
  applyWithRegex css change = Ret r -> modified r = false -> content r = css.
Proof.
  unfold applyWithRegex.
  destruct (mapM (patchPiece change) _) as [texts|e] eqn:E; cbn; [|discriminate].
  intros [= <-]. cbn. intros Hno. apply mapM_Exc_Ret in E.
  rewrite (patchPiece_no_hit change _ texts Hno E).
  apply scan_text, reSelectorBlock_suffixing.
Qed.

End FallbackUnmodified.

Section MutationMore.
Context `{CssTree} `{RegExpEngine}.

(** X4. When the mutation engine reports no modification, the content it
    returns is the fragment it was given, character for character, be the
    answer from the structured walk or from the fallback. *)
Theorem modifyCssContent_unmodified_returns_input
    (change : CssChange) (css : jsstring) (r : Mutation) :
  modifyCssContent change css = Ret r -> modified r = false -> content r = css.
Proof.
  unfold modifyCssContent.
  destruct (parse css) as [ast|e]; cbn; [|apply applyWithRegex_unmodified].
  destruct (walkRules change ast) as [[ast' m]|e]; cbn; [|apply applyWithRegex_unmodified].
  destruct m; cbn; intros [= <-]; [discriminate | reflexivity].
Qed.

Variable change : CssChange.
Variable v : Value.

Lemma ruleMatches_afterWalk (n : cssnode) :
  forall under, ruleMatches change (afterWalk change v under n) = ruleMatches change n.
Proof.
  induction n as [pre blk IH|nm pre blk IH|nm pre|imp p val|text] using node_nested_ind;
    intros under; cbn [afterWalk ruleMatches]; try reflexivity.
  - f_equal.
    assert (E : existsb (ruleMatches change)
                  (map (afterWalk change v (under || selectorMatches change pre)) blk)
                = existsb (ruleMatches change) blk).
    { induction IH as [|x l Hx Hl IHl]; [reflexivity|]. cbn. now rewrite Hx, IHl. }
    destruct (selectorMatches change pre && negb (existsb (hasProperty change) blk));
      [|exact E].
    rewrite existsb_app, E. cbn. now rewrite !orb_false_r.
  - induction IH as [|x l Hx Hl IHl]; [reflexivity|]. cbn. now rewrite Hx, IHl.
  - now destruct (under && bool_decide (p = property change)).
Qed.

Lemma hasProperty_afterWalk (n : cssnode) :
  forall under, hasProperty change n = true ->
    hasProperty change (afterWalk change v under n) = true.
Proof.
  induction n as [pre blk IH|nm pre blk IH|nm pre|imp p val|text] using node_nested_ind;
    intros under; cbn [afterWalk hasProperty]; try discriminate.
  - intros Hb.
    assert (E : existsb (hasProperty change)
                  (map (afterWalk change v (under || selectorMatches change pre)) blk)
                = true).
    { induction IH as [|x l Hx Hl IHl]; [discriminate|]. cbn in *.
      apply orb_true_iff in Hb as [Hb|Hb]; [rewrite (Hx _ Hb) | rewrite (IHl Hb), orb_true_r];
        reflexivity. }
    destruct (selectorMatches change pre && negb (existsb (hasProperty change) blk));
      [|exact E].
    rewrite existsb_app, E. reflexivity.
  - intros Hb. induction IH as [|x l Hx Hl IHl]; [discriminate|]. cbn in *.
    apply orb_true_iff in Hb as [Hb|Hb]; [rewrite (Hx _ Hb) | rewrite (IHl Hb), orb_true_r];
      reflexivity.
  - intros Hp. destruct (under && bool_decide (p = property change)); exact Hp.
Qed.

Lemma existsb_hasProperty_afterWalk (under : bool) (blk : list cssnode) :
  existsb (hasProperty change) blk = true ->
  existsb (hasProperty change) (map (afterWalk change v under) blk) = true.
Proof.
  induction blk as [|x l IH]; [discriminate|]. cbn. intros Hb.
  apply orb_true_iff in Hb as [Hb|Hb].
  - now rewrite (hasProperty_afterWalk x under Hb).
  - rewrite (IH Hb). apply orb_true_r.
Qed.

Lemma afterWalk_idem (n : cssnode) :
  forall under,
    afterWalk change v under (afterWalk change v under n) = afterWalk change v under n.
Proof.
  induction n as [pre blk IH|nm pre blk IH|nm pre|imp p val|text] using node_nested_ind;
    intros under; cbn [afterWalk]; try reflexivity.
  - assert (E : forall u, map (afterWalk change v u) (map (afterWalk change v u) blk)
                          = map (afterWalk change v u) blk).
    { intros u. rewrite map_map. apply map_ext_Forall.
      eapply Forall_impl; [exact IH|]. intros x Hx. apply Hx. }
    destruct (selectorMatches change pre) eqn:Hm; cbn [andb].
    + rewrite orb_true_r.
      destruct (existsb (hasProperty change) blk) eqn:Hb; cbn [negb].
      * rewrite (existsb_hasProperty_afterWalk true blk Hb). cbn [negb]. now rewrite E.
      * rewrite existsb_app. cbn [existsb hasProperty].
        rewrite bool_decide_eq_true_2 by reflexivity. rewrite orb_true_r. cbn [negb].
        rewrite map_app, E. cbn [map afterWalk andb].
        now rewrite bool_decide_eq_true_2 by reflexivity.
    + now rewrite E.
  - do 2 f_equal. rewrite map_map. apply map_ext_Forall.
    eapply Forall_impl; [exact IH|]. intros x Hx. apply Hx.
  - destruct (under && bool_decide (p = property change)) eqn:E; cbn [afterWalk];
      now rewrite E.
Qed.

Hypothesis value_parses : parseValue (value change) = Ret v.

Lemma walkRules_again (ast ast' : list cssnode) (m : bool) :
  walkRules change ast = Ret (ast', m) -> walkRules change ast' = Ret (ast', m).
Proof.
  rewrite (walkRules_spec change v value_parses ast). intros [= <- <-].
  rewrite (walkRules_spec change v value_parses). f_equal. f_equal.
  - rewrite map_map. apply map_ext. intros x. apply afterWalk_idem.
  - induction ast as [|x l IH]; [reflexivity|]. cbn. now rewrite ruleMatches_afterWalk, IH.
Qed.

End MutationMore.

Section SecondApplication.
Context `{CssTree} `{RegExpEngine}.

(** X5. Applying a change a second time changes nothing more.  With a value
    that parses, the walk over the tree it has produced gives that tree
    again; and when css-tree reads the generated text back as the tree it
    was generated from, the engine on its own output returns the same
    result: the same text, reported as modified again. *)
Theorem modifyCssContent_second_application
    (change : CssChange) (v : Value) (css : jsstring) (ast ast' : list cssnode) (m : bool) :
  parseValue (value change) = Ret v ->
  parse css = Ret ast ->
  walkRules change ast = Ret (ast', m) ->
  walkRules change ast' = Ret (ast', m)
  /\ (m = true -> parse (generate ast') = Ret ast' ->
      exists r, modifyCssContent change css = Ret r
                /\ modifyCssContent change (content r) = Ret r).
Proof.
  intros Hv Hparse Hwalk. pose proof (walkRules_again change v Hv ast ast' m Hwalk) as Hagain.
  split; [exact Hagain|]. intros -> Hback.
  exists {| modified := true; content := generate ast' |}.
  unfold modifyCssContent. rewrite Hparse. cbn. rewrite Hwalk. cbn.
  split; [reflexivity|]. rewrite Hback. cbn. rewrite Hagain. reflexivity.
Qed.

End SecondApplication.

Lemma modifyCssContent_unmodified_returns_input_witness :
  content {| modified := false; content := js "h2 {color: blue" |} = js "h2 {color: blue".
Proof.
  apply (@modifyCssContent_unmodified_returns_input sampleCss sampleEngine
           (sampleChange "h1" "color" "red") (js "h2 {color: blue")
           {| modified := false; content := js "h2 {color: blue" |});
    vm_compute; reflexivity.
Defined.

Lemma modifyCssContent_second_application_witness :
  exists r,
    @modifyCssContent sampleCss sampleEngine (sampleChange "h1" "color" "red")
      (js "h1 {color: blue} p {margin: 0}") = Ret r
    /\ @modifyCssContent sampleCss sampleEngine (sampleChange "h1" "color" "red") (content r)
       = Ret r.
Proof.
  apply (proj2 (@modifyCssContent_second_application sampleCss sampleEngine
                  (sampleChange "h1" "color" "red") (js "red")
                  (js "h1 {color: blue} p {margin: 0}")
                  [Rule (js "h1") [Declaration NotImportant (js "color") (js "blue")];
                   Rule (js "p") [Declaration NotImportant (js "margin") (js "0")]]
                  [Rule (js "h1") [Declaration NotImportant (js "color") (js "red")];
                   Rule (js "p") [Declaration NotImportant (js "margin") (js "0")]]
                  true eq_refl eq_refl eq_refl));
    vm_compute; reflexivity.
Defined.

(** ** The style reader on a tree *)

Section ReaderTree.
Context `{CssTree}.

(** A declaration [k: x] somewhere in the node, at any depth. *)
Fixpoint declares (k x : jsstring) (n : cssnode) : bool :=
  match n with
  | Declaration _ p val => bool_decide (p = k) && bool_decide (generateValue val = x)
  | Rule _ blk => existsb (declares k x) blk
  | Atrule _ _ (Some blk) => existsb (declares k x) blk
  | _ => false
  end.

(** A declaration [k: x] below a rule whose selector equals [sel] up to
    normalisation. *)
Fixpoint declaredUnder (sel k x : jsstring) (n : cssnode) : bool :=
  match n with
  | Rule pre blk =>
      (selectorEq (generatePrelude pre) sel && existsb (declares k x) blk)
      || existsb (declaredUnder sel k x) blk
  | Atrule _ _ (Some blk) => existsb (declaredUnder sel k x) blk
  | _ => false
  end.

(** Some rule of the node, at any depth, has the selector [sel] up to
    normalisation. *)
Fixpoint ruleSelected (sel : jsstring) (n : cssnode) : bool :=
  match n with
  | Rule pre blk => selectorEq (generatePrelude pre) sel || existsb (ruleSelected sel) blk
  | Atrule _ _ (Some blk) => existsb (ruleSelected sel) blk
  | _ => false
  end.

Lemma fold_sound (f : cssnode -> gmap jsstring jsstring -> gmap jsstring jsstring)
    (d : cssnode -> bool) (k x : jsstring) (blk : list cssnode) :
  Forall (fun n => forall st, f n st !! k = Some x -> st !! k = Some x \/ d n = true) blk ->
  forall st, fold_left (fun st n => f n st) blk st !! k = Some x ->
    st !! k = Some x \/ existsb d blk = true.
Proof.
  induction 1 as [|n l Hn Hl IH]; intros st; cbn [fold_left existsb]; [auto|].
  intros Hx. apply IH in Hx as [Hx|Hx]; [|rewrite Hx, orb_true_r; auto].
  apply Hn in Hx as [Hx|Hx]; [auto | rewrite Hx; auto].
Qed.

Lemma collectDeclaration_sound (k x : jsstring) (n : cssnode) :
  forall st, collectDeclaration n st !! k = Some x -> st !! k = Some x \/ declares k x n = true.
Proof.
  induction n as [pre blk IH|nm pre blk IH|nm pre|imp p val|text] using node_nested_ind;
    intros st; cbn [collectDeclaration declares]; auto.
  - now apply fold_sound.
  - now apply fold_sound.
  - unfold setStyle. case_bool_decide as Hproto; [auto|].
    destruct (decide (p = k)) as [->|Hne].
    + rewrite lookup_insert_eq. intros [= <-]. right.
      now rewrite !bool_decide_eq_true_2.
    + rewrite lookup_insert_ne by assumption. auto.
Qed.

Lemma collectRule_sound (sel k x : jsstring) (n : cssnode) :
  forall st, collectRule sel n st !! k = Some x ->
    st !! k = Some x \/ declaredUnder sel k x n = true.
Proof.
  induction n as [pre blk IH|nm pre blk IH|nm pre|imp p val|text] using node_nested_ind;
    intros st; cbn [collectRule declaredUnder]; auto.
  - intros Hx. apply (fold_sound _ _ _ _ _ IH) in Hx as [Hx|Hx];
      [|rewrite Hx, orb_true_r; auto].
    destruct (selectorEq (generatePrelude pre) sel); [|auto].
    apply (fold_sound collectDeclaration (declares k x)) in Hx as [Hx|Hx];
      [auto | rewrite Hx; auto |].
    apply Forall_forall. intros y _. apply collectDeclaration_sound.
  - now apply fold_sound.
Qed.

Lemma collectRule_not_selected (sel : jsstring) (n : cssnode) :
  ruleSelected sel n = false -> forall st, collectRule sel n st = st.
Proof.
  induction n as [pre blk IH|nm pre blk IH|nm pre|imp p val|text] using node_nested_ind;
    cbn [collectRule ruleSelected]; auto.
  - intros Hn st. apply orb_false_iff in Hn as [-> Hb].
    revert st. induction IH as [|y l Hy Hl IHl]; intros st; [reflexivity|].
    cbn in Hb. apply orb_false_iff in Hb as [Hb1 Hb2]. cbn [fold_left].
    rewrite (Hy Hb1). now apply IHl.
  - intros Hb st.
    revert st. induction IH as [|y l Hy Hl IHl]; intros st; [reflexivity|].
    cbn in Hb. apply orb_false_iff in Hb as [Hb1 Hb2]. cbn [fold_left].
    rewrite (Hy Hb1). now apply IHl.
Qed.

Lemma fold_not_selected (sel : jsstring) (blk : list cssnode) :
  existsb (ruleSelected sel) blk = false ->
  forall st, fold_left (fun st x => collectRule sel x st) blk st = st.
Proof.
  induction blk as [|y l IHl]; intros Hb st; [reflexivity|].
  cbn in Hb. apply orb_false_iff in Hb as [Hb1 Hb2]. cbn [fold_left].
  rewrite (collectRule_not_selected sel y Hb1). now apply IHl.
Qed.

(** The key [__proto__] is never set. *)
Definition protoFree (st : gmap jsstring jsstring) : Prop := st !! js "__proto__" = None.

Lemma fold_protoFree (f : cssnode -> gmap jsstring jsstring -> gmap jsstring jsstring)
    (blk : list cssnode) :
  Forall (fun n => forall st, protoFree st -> protoFree (f n st)) blk ->
  forall st, protoFree st -> protoFree (fold_left (fun st n => f n st) blk st).
Proof. induction 1 as [|n l Hn Hl IH]; intros st Hst; cbn [fold_left]; auto. Qed.

Lemma collectDeclaration_protoFree (n : cssnode) :
  forall st, protoFree st -> protoFree (collectDeclaration n st).
Proof.
  induction n as [pre blk IH|nm pre blk IH|nm pre|imp p val|text] using node_nested_ind;
    intros st Hst; cbn [collectDeclaration]; auto.
  - now apply fold_protoFree.
  - now apply fold_protoFree.
  - unfold setStyle, protoFree. case_bool_decide as Hp; [assumption|].
    now rewrite lookup_insert_ne.
Qed.

Lemma collectRule_protoFree (sel : jsstring) (n : cssnode) :
  forall st, protoFree st -> protoFree (collectRule sel n st).
Proof.
  induction n as [pre blk IH|nm pre blk IH|nm pre|imp p val|text] using node_nested_ind;
    intros st Hst; cbn [collectRule]; auto.
  - apply fold_protoFree; [exact IH|].
    destruct (selectorEq (generatePrelude pre) sel); [|assumption].
    apply fold_protoFree; [|assumption].
    apply Forall_forall. intros y _. apply collectDeclaration_protoFree.
  - now apply fold_protoFree.
Qed.

(** X6. On a fragment that parses, the reader reports only what the rules of
    the selector declare: every entry [k: x] of its result is a declaration
    of the text below a rule whose selector equals the target up to
    normalisation; when no rule has that selector the result is empty.  A
    property named [__proto__] is never reported. *)
Theorem extractStylesFromCss_reports_declared
    (css sel : jsstring) (ast : list cssnode) :
  parse css = Ret ast ->
  exists styles,
    extractStylesFromCss css sel = Ret styles
    /\ (forall k x, styles !! k = Some x -> existsb (declaredUnder sel k x) ast = true)
    /\ (existsb (ruleSelected sel) ast = false -> styles = ∅)
    /\ styles !! js "__proto__" = None.
Proof.
  intros Hparse. unfold extractStylesFromCss. rewrite Hparse. cbn.
  eexists. split; [reflexivity|]. split; [|split].
  - intros k x Hx.
    apply (fold_sound (collectRule sel) (declaredUnder sel k x)) in Hx as [Hx|Hx];
      [now rewrite lookup_empty in Hx | exact Hx |].
    apply Forall_forall. intros y _. apply collectRule_sound.
  - intros Hb. now apply fold_not_selected.
  - apply (fold_protoFree (collectRule sel)); [|apply lookup_empty].
    apply Forall_forall. intros y _. apply collectRule_protoFree.
Qed.

End ReaderTree.

Lemma extractStylesFromCss_reports_declared_witness :
  exists styles,
    @extractStylesFromCss sampleCss (js "h1 {color: blue} p {margin: 0}") (js "h1")
    = Ret styles
    /\ (forall k x, styles !! k = Some x ->
          existsb (@declaredUnder sampleCss (js "h1") k x)
            [Rule (js "h1") [Declaration NotImportant (js "color") (js "blue")];
             Rule (js "p") [Declaration NotImportant (js "margin") (js "0")]] = true)
    /\ (existsb (@ruleSelected sampleCss (js "h1"))
          [Rule (js "h1") [Declaration NotImportant (js "color") (js "blue")];
           Rule (js "p") [Declaration NotImportant (js "margin") (js "0")]] = false ->
        styles = ∅)
    /\ styles !! js "__proto__" = None.
Proof.
  apply (@extractStylesFromCss_reports_declared sampleCss
           (js "h1 {color: blue} p {margin: 0}") (js "h1")).
  vm_compute. reflexivity.
Defined.

(** ** Reading back what the engine wrote *)

Section RoundTrip.
Context `{CssTree} `{RegExpEngine}.
Variable change : CssChange.
Variable v : Value.
Hypothesis property_plain : property change <> js "__proto__".

(** The mapping reports the new value for the property of the change. *)
Definition reads (st : gmap jsstring jsstring) : Prop :=
  st !! property change = Some (generateValue v).

Lemma fold_reads (f : cssnode -> gmap jsstring jsstring -> gmap jsstring jsstring)
    (d : cssnode -> bool) (blk : list cssnode) :
  Forall (fun n => forall st,
            f n st !! property change
            = if d n then Some (generateValue v) else st !! property change) blk ->
  forall st, fold_left (fun st n => f n st) blk st !! property change
             = if existsb d blk then Some (generateValue v) else st !! property change.
Proof.
  induction 1 as [|n l Hn Hl IH]; intros st; cbn [fold_left existsb]; [reflexivity|].
  rewrite IH, Hn. destruct (d n); cbn; [now destruct (existsb d l) | reflexivity].
Qed.

Lemma newDeclaration_reads (imp : importance) (st : gmap jsstring jsstring) :
  reads (collectDeclaration (Declaration imp (property change) v) st).
Proof.
  unfold reads. cbn. unfold setStyle. rewrite bool_decide_eq_false_2 by assumption.
  apply lookup_insert_eq.
Qed.

Lemma collectDeclaration_afterWalk (n : cssnode) :
  forall st,
    collectDeclaration (afterWalk change v true n) st !! property change
    = if hasProperty change (afterWalk change v true n)
      then Some (generateValue v) else st !! property change.
Proof.
  induction n as [pre blk IH|nm pre blk IH|nm pre|imp p val|text] using node_nested_ind;
    intros st; cbn [afterWalk collectDeclaration hasProperty orb andb]; try reflexivity.
  - apply (fold_reads collectDeclaration (hasProperty change)).
    destruct (selectorMatches change pre && negb (existsb (hasProperty change) blk)).
    + apply Forall_app. split; [apply Forall_map; exact IH|].
      constructor; [|constructor]. intros st0. rewrite newDeclaration_reads.
      cbn. now rewrite bool_decide_eq_true_2.
    + apply Forall_map. exact IH.
  - apply (fold_reads collectDeclaration (hasProperty change)). apply Forall_map. exact IH.
  - case_bool_decide as Hp; cbn [hasProperty].
    + subst p. rewrite newDeclaration_reads. now rewrite bool_decide_eq_true_2.
    + cbn. unfold setStyle. rewrite (bool_decide_eq_false_2 _ Hp).
      case_bool_decide; [reflexivity|]. now rewrite lookup_insert_ne.
Qed.

Lemma existsb_ruleMatches_afterWalk (under : bool) (blk : list cssnode) :
  existsb (ruleMatches change) (map (afterWalk change v under) blk)
  = existsb (ruleMatches change) blk.
Proof.
  induction blk as [|x l IH]; [reflexivity|]. cbn. now rewrite ruleMatches_afterWalk, IH.
Qed.

Lemma collectRule_afterWalk (n : cssnode) :
  forall under st,
    collectRule (selector change) (afterWalk change v under n) st !! property change
    = if ruleMatches change n then Some (generateValue v) else st !! property change.
Proof.
  induction n as [pre blk IH|nm pre blk IH|nm pre|imp p val|text] using node_nested_ind;
    intros under st; cbn [afterWalk collectRule ruleMatches]; try reflexivity.
  - fold (selectorMatches change pre).
    assert (IH' : forall u, Forall (fun n' => forall st0,
                     collectRule (selector change) n' st0 !! property change
                     = if ruleMatches change n' then Some (generateValue v)
                       else st0 !! property change)
                    (map (afterWalk change v u) blk)).
    { intros u. apply Forall_map. eapply Forall_impl; [exact IH|]. intros y Hy st0. cbn.
      now rewrite Hy, ruleMatches_afterWalk. }
    destruct (selectorMatches change pre) eqn:Hm; cbn [orb andb].
    + rewrite orb_true_r.
      set (B := if negb (existsb (hasProperty change) blk)
                then map (afterWalk change v true) blk
                     ++ [Declaration NotImportant (property change) v]
                else map (afterWalk change v true) blk).
      assert (HB : Forall (fun n' => forall st0,
                      collectRule (selector change) n' st0 !! property change
                      = if ruleMatches change n' then Some (generateValue v)
                        else st0 !! property change) B).
      { unfold B. destruct (negb (existsb (hasProperty change) blk)); [|apply IH'].
        apply Forall_app. split; [apply IH'|]. constructor; [|constructor].
        intros st0. reflexivity. }
      rewrite (fold_reads (collectRule (selector change)) (ruleMatches change) B HB).
      rewrite (fold_reads collectDeclaration (hasProperty change) B).
      * assert (E : existsb (hasProperty change) B = true);
          [|rewrite E; now destruct (existsb (ruleMatches change) B)].
        unfold B. destruct (existsb (hasProperty change) blk) eqn:Hb; cbn [negb].
        -- now apply existsb_hasProperty_afterWalk.
        -- rewrite existsb_app. cbn. rewrite bool_decide_eq_true_2 by reflexivity.
           apply orb_true_r.
      * unfold B. destruct (negb (existsb (hasProperty change) blk)).
        -- apply Forall_app. split.
           ++ apply Forall_map. apply Forall_forall. intros y _.
              apply collectDeclaration_afterWalk.
           ++ constructor; [|constructor]. intros st0. rewrite newDeclaration_reads.
              cbn. now rewrite bool_decide_eq_true_2.
        -- apply Forall_map. apply Forall_forall. intros y _.
           apply collectDeclaration_afterWalk.
    + rewrite orb_false_r.
      rewrite (fold_reads (collectRule (selector change)) (ruleMatches change) _ (IH' under)).
      now rewrite existsb_ruleMatches_afterWalk.
  - assert (IH' : Forall (fun n' => forall st0,
                     collectRule (selector change) n' st0 !! property change
                     = if ruleMatches change n' then Some (generateValue v)
                       else st0 !! property change)
                    (map (afterWalk change v under) blk)).
    { apply Forall_map. eapply Forall_impl; [exact IH|]. intros y Hy st0. cbn.
      now rewrite Hy, ruleMatches_afterWalk. }
    rewrite (fold_reads (collectRule (selector change)) (ruleMatches change) _ IH').
    now rewrite existsb_ruleMatches_afterWalk.
  - now destruct (under && bool_decide (p = property change)).
Qed.

Hypothesis value_parses : parseValue (value change) = Ret v.

Lemma extract_after_walk (ast ast' : list cssnode) :
  walkRules change ast = Ret (ast', true) ->
  reads (fold_left (fun st x => collectRule (selector change) x st) ast' ∅).
Proof.
  rewrite (walkRules_spec change v value_parses ast). intros [= <- Hm]. unfold reads.
  rewrite (fold_reads (collectRule (selector change)) (ruleMatches change)).
  - now rewrite existsb_ruleMatches_afterWalk, Hm.
  - apply Forall_map. apply Forall_forall. intros y _ st. cbn.
    now rewrite collectRule_afterWalk, ruleMatches_afterWalk.
Qed.

End RoundTrip.

Section RoundTripTheorem.
Context `{CssTree} `{RegExpEngine}.

(** X7. What the engine writes, the reader reads.  When the structured walk
    modifies the tree of a fragment, with a value that parses and a property
    not named [__proto__], and css-tree reads the generated text back as the
    tree it was generated from, then the reader, asked for the selector of
    the change in the new content, reports the new value for the property
    of the change. *)
Theorem extractStylesFromCss_reads_the_change
    (change : CssChange) (v : Value) (css : jsstring) (ast ast' : list cssnode) :
  parse css = Ret ast ->
  parseValue (value change) = Ret v ->
  property change <> js "__proto__" ->
  walkRules change ast = Ret (ast', true) ->
  parse (generate ast') = Ret ast' ->
  exists r styles,
    modifyCssContent change css = Ret r
    /\ modified r = true
    /\ extractStylesFromCss (content r) (selector change) = Ret styles
    /\ styles !! property change = Some (generateValue v).
Proof.
  intros Hparse Hv Hp Hwalk Hback.
  exists {| modified := true; content := generate ast' |}. eexists.
  split; [|split; [reflexivity|split]].
  - unfold modifyCssContent. rewrite Hparse. cbn. rewrite Hwalk. reflexivity.
  - cbn [content]. unfold extractStylesFromCss. rewrite Hback. reflexivity.
  - now apply (extract_after_walk change v Hp Hv ast ast').
Qed.

End RoundTripTheorem.

Lemma extractStylesFromCss_reads_the_change_witness :
  exists r styles,
    @modifyCssContent sampleCss sampleEngine (sampleChange "h1" "color" "red")
      (js "h1 {color: blue} p {margin: 0} h1{}") = Ret r
    /\ modified r = true
    /\ @extractStylesFromCss sampleCss (content r) (js "h1") = Ret styles
    /\ styles !! js "color" = Some (js "red").
Proof.
  apply (@extractStylesFromCss_reads_the_change sampleCss sampleEngine
           (sampleChange "h1" "color" "red") (js "red")
           (js "h1 {color: blue} p {margin: 0} h1{}")
           [Rule (js "h1") [Declaration NotImportant (js "color") (js "blue")];
            Rule (js "p") [Declaration NotImportant (js "margin") (js "0")];
            Rule (js "h1") []]
           [Rule (js "h1") [Declaration NotImportant (js "color") (js "red")];
            Rule (js "p") [Declaration NotImportant (js "margin") (js "0")];
            Rule (js "h1") [Declaration NotImportant (js "color") (js "red")]]);
    try (vm_compute; reflexivity).
  discriminate.
Defined.

(** ** The application engine, strategy by strategy *)

Section InlineMore.
Context `{CssTree} `{RegExpEngine} `{NodePath}.

Lemma inlineCallback_not_found (change : CssChange) (pieces : list piece)
    (rs : list (jsstring * bool)) :
  Forall2 (fun p r => inlineCallback change p = Ret r) pieces rs ->
  existsb snd rs = false ->
  concat (map fst rs) = concat (map pieceText pieces).
Proof.
  intros Hall. induction Hall as [|p r pieces rs Hp Hall IH]; [reflexivity|].
  cbn [existsb]. intros Hno. apply orb_false_iff in Hno as [Hr Hno].
  cbn [map concat]. rewrite (IH Hno). f_equal.
  destruct p as [c|whole g b a]; cbn in Hp.
  - now injection Hp as <-.
  - destruct (modifyCssContent change (default [] (head g))) as [m|e]; cbn in Hp;
      [|discriminate].
    destruct (modified m); injection Hp as <-; [discriminate | reflexivity].
Qed.

(** X8. When the inline strategy reports that it found nothing, the document
    text it returns is the document it was given: a style block in which
    the engine modified nothing is put back character for character. *)
Theorem applyToInlineStyle_not_found_returns_input
    (html : jsstring) (change : CssChange) (r : InlineResult) :
  applyToInlineStyle html change = Ret r -> found r = false -> newHtml r = html.
Proof.
  unfold applyToInlineStyle.
  destruct (mapM (inlineCallback change) (scan reStyle html)) as [rs|e] eqn:E; cbn;
    [|discriminate].
  intros [= <-]. cbn. intros Hno. apply mapM_Exc_Ret in E.
  rewrite (inlineCallback_not_found change _ rs E Hno).
  apply scan_text, reStyle_suffixing.
Qed.

End InlineMore.

Lemma applyToInlineStyle_not_found_returns_input_witness :
  newHtml {| found := false; newHtml := js "<style>p{color:blue}</style><p>x</p>" |}
  = js "<style>p{color:blue}</style><p>x</p>".
Proof.
  apply (@applyToInlineStyle_not_found_returns_input sampleCss sampleEngine
           (js "<style>p{color:blue}</style><p>x</p>") (sampleChange "h1" "color" "red")
           {| found := false; newHtml := js "<style>p{color:blue}</style><p>x</p>" |});
    vm_compute; reflexivity.
Defined.

(** ** Linked style sheets *)

Lemma greedyPlus_inv {R : Type} (cls : N -> bool) (k : jsstring -> option R)
    (s : jsstring) (r : R) :
  greedyPlus cls k s = Some r ->
  exists p t, s = p ++ t /\ p <> [] /\ k t = Some r.
Proof.
  induction s as [|c t IH]; cbn [greedyPlus]; [discriminate|].
  destruct (cls c); [|discriminate].
  destruct (greedyPlus cls k t) as [r0|] eqn:E.
  - intros [= ->]. destruct (IH eq_refl) as (p & t' & -> & _ & Hk).
    exists (c :: p), t'. split; [reflexivity|]. split; [discriminate | exact Hk].
  - intros Hk. exists [c], t. split; [reflexivity|]. split; [discriminate | exact Hk].
Qed.

Section LinkedFiles.
Context `{CssTree} `{RegExpEngine} `{NodePath}.

Lemma reLinkHref_shape (s : jsstring) (g : list jsstring) (rest : jsstring) :
  reLinkHref s = Some (g, rest) ->
  exists pre href q,
    s = pre ++ href ++ q :: rest /\ g = [href] /\ href <> []
    /\ Forall (fun c => isQuote c = false) href /\ isQuote q = true.
Proof.
  unfold reLinkHref.
  destruct (stripPrefixBy eqCI (js "href=") s) as [[|q r1]|] eqn:E1; try discriminate.
  destruct (stripPrefixBy_suffix _ _ _ _ E1) as (m & -> & _).
  destruct (isQuote q); [|discriminate].
  destruct (spanClass_app (fun c => negb (isQuote c)) r1) as (Hr1 & Hcls & Hnext).
  destruct (spanClass (fun c => negb (isQuote c)) r1) as [[|h hs] [|q' rest']];
    try discriminate.
  cbn [fst snd] in *. intros [= <- <-].
  exists (m ++ [q]), (h :: hs), q'. split; [|split; [reflexivity|split; [discriminate|split]]].
  - rewrite Hr1. now rewrite <- !app_assoc.
  - eapply Forall_impl; [exact Hcls|]. intros c Hc. now apply negb_true_iff.
  - now apply negb_false_iff.
Qed.

Lemma reLink_shape (s : jsstring) (g : list jsstring) (rest : jsstring) :
  reLink s = Some (g, rest) ->
  exists pre href q,
    s = pre ++ href ++ q :: rest /\ g = [href] /\ href <> []
    /\ Forall (fun c => isQuote c = false) href /\ isQuote q = true.
Proof.
  unfold reLink.
  destruct (stripPrefixBy eqCI (js "<link") s) as [r1|] eqn:E1; [|discriminate].
  destruct (stripPrefixBy_suffix _ _ _ _ E1) as (m1 & -> & _).
  intros Hg. apply greedyPlus_inv in Hg as (p1 & t1 & -> & _ & Hrel).
  unfold reLinkRel in Hrel.
  destruct (stripPrefixBy eqCI (js "rel=") t1) as [[|q1 r2]|] eqn:E2; try discriminate.
  destruct (stripPrefixBy_suffix _ _ _ _ E2) as (m2 & -> & _).
  destruct (isQuote q1); [|discriminate].
  destruct (stripPrefixBy eqCI (js "stylesheet") r2) as [[|q2 r3]|] eqn:E3; try discriminate.
  destruct (stripPrefixBy_suffix _ _ _ _ E3) as (m3 & -> & _).
  destruct (isQuote q2); [|discriminate].
  apply greedyPlus_inv in Hrel as (p2 & t2 & -> & _ & Hhref).
  apply reLinkHref_shape in Hhref as (pre & href & q & -> & -> & Hne & Hq & Hq').
  exists (m1 ++ p1 ++ m2 ++ q1 :: m3 ++ q2 :: p2 ++ pre), href, q.
  split; [|auto]. now rewrite <- !app_assoc; cbn [app]; rewrite <- !app_assoc;
    cbn [app]; rewrite <- !app_assoc.
Qed.

Lemma findLinkedCssFiles_hrefs (html baseDir p : jsstring) :
  p ∈ findLinkedCssFiles html baseDir ->
  exists href before after,
    p = resolve2 baseDir href
    /\ html = before ++ href ++ after
    /\ href <> []
    /\ Forall (fun c => isQuote c = false) href
    /\ startsWith href (js "http://") = false
    /\ startsWith href (js "https://") = false
    /\ startsWith href (js "//") = false.
Proof.
  unfold findLinkedCssFiles. intros Hp. apply list_elem_of_In, in_flat_map in Hp.
  destruct Hp as ([c|w g b a] & Hin & Hp); [now apply in_nil in Hp|].
  apply list_elem_of_In in Hin.
  apply (scan_hit _ _ _ _ _ _ reLink_suffixing) in Hin as [Hm Hs].
  apply reLink_shape in Hm as (pre & href & q & Hw & -> & Hne & Hq & _).
  change (default [] (head [href])) with href in Hp.
  revert Hp. destruct (isLocalHref href) eqn:Hloc; intros Hp; [|now apply in_nil in Hp].
  apply in_inv in Hp as [<-|Hp]; [|now apply in_nil in Hp].
  assert (Hw' : w = pre ++ href ++ [q]).
  { apply (app_inv_tail a). rewrite Hw. now rewrite <- !app_assoc. }
  exists href, (b ++ pre), (q :: a).
  split; [reflexivity|]. split.
  { rewrite Hs, Hw'. now rewrite <- !app_assoc. }
  split; [exact Hne|]. split; [exact Hq|].
  unfold isLocalHref in Hloc. apply andb_true_iff in Hloc as [Hloc Hc].
  apply andb_true_iff in Hloc as [Ha Hb].
  repeat split; now apply negb_true_iff.
Qed.

(** X9. Every path that [findLinkedCssFiles] returns is [path.resolve] of
    the base directory and an href that stands in the document between
    quotes: the href is not empty, holds no quote, and does not start with
    [http://], [https://] or [//].  A style sheet behind a URL is never
    among the files to edit or to read. *)
Theorem findLinkedCssFiles_local_hrefs (html baseDir p : jsstring) :
  p ∈ findLinkedCssFiles html baseDir ->
  exists href before after,
    p = resolve2 baseDir href
    /\ html = before ++ href ++ after
    /\ href <> []
    /\ Forall (fun c => isQuote c = false) href
    /\ startsWith href (js "http://") = false
    /\ startsWith href (js "https://") = false
    /\ startsWith href (js "//") = false.
Proof. apply findLinkedCssFiles_hrefs. Qed.

Lemma applyToLinked_first (l1 l2 : list jsstring) (f : jsstring) (change : CssChange)
    (w w' : world) :
  Forall (fun g => applyToCssFile g change w = (Ret false, w)) l1 ->
  applyToCssFile f change w = (Ret true, w') ->
  applyToLinked (l1 ++ f :: l2) change w = (Ret (Some f), w').
Proof.
  intros Hl1 Hf. induction Hl1 as [|g l1 Hg Hl1 IH]; cbn [app applyToLinked];
    cbv [mbind IO_bind mret IO_ret].
  - now rewrite Hf.
  - rewrite Hg. exact IH.
Qed.

(** X10. The linked strategy takes the first linked style sheet, in the
    order of the document, in which the engine modifies something.  When no
    style block of the document is modified, the linked files before it are
    missing or left unmodified, and that file is modified, the only write
    is the new content of that file, which is the file reported, whatever
    the linked files after it hold; the document is not rewritten. *)
Theorem applyCssChange_first_modified_linked_file
    (htmlPath : jsstring) (change : CssChange) (w : world) (html : jsstring)
    (ir : InlineResult) (l1 l2 : list jsstring) (f css : jsstring) (r : Mutation) :
  files w !! resolve1 (resolve1 htmlPath) = Some (File html) ->
  applyToInlineStyle html change = Ret ir ->
  found ir = false ->
  findLinkedCssFiles html (dirname (resolve1 htmlPath)) = l1 ++ f :: l2 ->
  (forall g, g ∈ l1 ->
     files w !! resolve1 g = None
     \/ exists text m, files w !! resolve1 g = Some (File text)
                       /\ modifyCssContent change text = Ret m /\ modified m = false) ->
  files w !! resolve1 f = Some (File css) ->
  modifyCssContent change css = Ret r ->
  modified r = true ->
  applyCssChange htmlPath change w
  = (Ret {| success := true;
            message := js "CSS aplicado en " ++ basename f;
            modifiedFile := Some f |},
     wrote f (content r) w)
  /\ writes (wrote f (content r) w) = writes w ++ [(f, content r)]
  /\ (resolve1 f <> resolve1 (resolve1 htmlPath) ->
      files (wrote f (content r) w) !! resolve1 (resolve1 htmlPath) = Some (File html)).
Proof.
  intros Hfile Hinline Hfound Hlinked Hbefore Hf Hcss Hmod.
  split; [|split; [reflexivity|]].
  - pose proof (applyCssChange_cases htmlPath change w) as Hc.
    rewrite Hfile in Hc. unfold readEntry in Hc.
    rewrite Hinline, Hfound, Hlinked in Hc.
    rewrite (applyToLinked_first l1 l2 f change w (wrote f (content r) w)) in Hc;
      [exact Hc | |].
    + apply Forall_forall. intros g Hg. rewrite applyToCssFile_cases.
      destruct (Hbefore g Hg) as [-> | (text & m & -> & Hm & Hno)]; [reflexivity|].
      unfold readEntry. now rewrite Hm, Hno.
    + rewrite applyToCssFile_cases, Hf. unfold readEntry, writeError.
      now rewrite Hcss, Hmod.
  - intros Hne. cbn. rewrite lookup_insert_ne by assumption. exact Hfile.
Qed.

End LinkedFiles.

Lemma findLinkedCssFiles_local_hrefs_witness :
  exists href before after,
    js "/site/a.css" = @resolve2 samplePath (js "/site") href
    /\ js "<link rel='stylesheet' href='a.css'><link rel='stylesheet' href='//cdn/b.css'>"
       = before ++ href ++ after
    /\ href <> []
    /\ Forall (fun c => isQuote c = false) href
    /\ startsWith href (js "http://") = false
    /\ startsWith href (js "https://") = false
    /\ startsWith href (js "//") = false.
Proof.
  apply (@findLinkedCssFiles_local_hrefs sampleEngine samplePath).
  apply (list_elem_of_lookup_2 _ 0). vm_compute. reflexivity.
Defined.

(** A document whose style block has no rule for [h1], with two linked
    style sheets: the first has no rule for [h1] either, the second has. *)
Definition linkedWorld : world :=
  {| files :=
       <[js "/site/index.html" :=
           File (js "<link rel='stylesheet' href='a.css'><link rel='stylesheet' href='b.css'><style>p{margin:0}</style>")]>
         (<[js "/site/a.css" := File (js "p{color:green}")]>
            (<[js "/site/b.css" := File (js "h1{color:green}")]> ∅));
     writes := [] |}.

Lemma applyCssChange_first_modified_linked_file_witness :
  @applyCssChange sampleCss sampleEngine samplePath (js "/site/index.html")
    (sampleChange "h1" "color" "red") linkedWorld
  = (Ret {| success := true;
            message := js "CSS aplicado en " ++ @basename samplePath (js "/site/b.css");
            modifiedFile := Some (js "/site/b.css") |},
     @wrote samplePath (js "/site/b.css")
       (content {| modified := true; content := js "h1{color:red;}" |}) linkedWorld).
Proof.
  apply (@applyCssChange_first_modified_linked_file sampleCss sampleEngine samplePath
           (js "/site/index.html") (sampleChange "h1" "color" "red") linkedWorld
           (js "<link rel='stylesheet' href='a.css'><link rel='stylesheet' href='b.css'><style>p{margin:0}</style>")
           {| found := false;
              newHtml := js "<link rel='stylesheet' href='a.css'><link rel='stylesheet' href='b.css'><style>p{margin:0}</style>" |}
           [js "/site/a.css"] [] (js "/site/b.css") (js "h1{color:green}")
           {| modified := true; content := js "h1{color:red;}" |}).
  - vm_compute. reflexivity.
  - vm_compute. reflexivity.
  - reflexivity.
  - vm_compute. reflexivity.
  - intros g Hg. apply list_elem_of_singleton in Hg. subst g. right.
    exists (js "p{color:green}"), {| modified := false; content := js "p{color:green}" |}.
    repeat split; vm_compute; reflexivity.
  - vm_compute. reflexivity.
  - vm_compute. reflexivity.
  - reflexivity.
Defined.

(** ** The new style block *)

(** X11. With no dollar sign in the selector, the property and the value,
    [addStyleBlock] keeps the whole document and puts the new block, then a
    line break, right before the first [</head>] of the text (the tag is
    looked for as written, in lower case); a document without that text
    gets the block and a line break in front of it. *)
Theorem addStyleBlock_inserts_before_first_head_end (html : jsstring) (change : CssChange) :
  Forall (fun c => c <> 36) (selector change ++ property change ++ value change) ->
  (exists before after,
     html = before ++ js "</head>" ++ after
     /\ (forall b' a', html = b' ++ js "</head>" ++ a' -> (length before <= length b')%nat)
     /\ addStyleBlock html change
        = before ++ newStyleOf change ++ [NL] ++ js "</head>" ++ after)
  \/ ((forall b a, html <> b ++ js "</head>" ++ a)
      /\ addStyleBlock html change = newStyleOf change ++ [NL] ++ html).
Proof.
  intros Hd. pose proof (addStyleBlock_literal html change Hd) as Hlit.
  pose proof (findSubBy_first (js "</head>") html []) as Hfirst.
  unfold findSub in Hlit.
  destruct (findSubBy N.eqb (js "</head>") [] html) as [[before after]|].
  - left. destruct Hfirst as (t & -> & Hs & Hmin). exists t, after. cbn [app] in *. auto.
  - right. auto.
Qed.

Lemma addStyleBlock_inserts_before_first_head_end_witness :
  (exists before after,
     js "<head></head><!-- </head> -->" = before ++ js "</head>" ++ after
     /\ (forall b' a', js "<head></head><!-- </head> -->" = b' ++ js "</head>" ++ a' ->
           (length before <= length b')%nat)
     /\ addStyleBlock (js "<head></head><!-- </head> -->") (sampleChange "p" "color" "red")
        = before ++ newStyleOf (sampleChange "p" "color" "red") ++ [NL] ++ js "</head>" ++ after)
  \/ ((forall b a, js "<head></head><!-- </head> -->" <> b ++ js "</head>" ++ a)
      /\ addStyleBlock (js "<head></head><!-- </head> -->") (sampleChange "p" "color" "red")
         = newStyleOf (sampleChange "p" "color" "red") ++ [NL]
           ++ js "<head></head><!-- </head> -->").
Proof.
  apply (addStyleBlock_inserts_before_first_head_end (js "<head></head><!-- </head> -->")
           (sampleChange "p" "color" "red")).
  vm_compute. repeat constructor; discriminate.
Defined.

(** ** The inline strategy rewrites a style block in place *)

Section InPlace.
Context `{CssTree} `{RegExpEngine} `{NodePath}.

(** X12. The inline strategy puts the new CSS in the place of the old one.
    A style block of the document reads as an opening tag, its CSS text and
    a closing tag; when the engine modifies the CSS text, the block is
    replaced by the same opening tag, the new content and the same closing
    tag, provided that the new content holds no dollar sign and that the
    CSS text does not stand in the block before its own place (in the
    opening tag): [replace] takes the new content as a replacement text
    and acts on the first occurrence of the CSS text in the block. *)
Theorem inlineCallback_replaces_css_in_place
    (change : CssChange) (html whole before after : jsstring) (g : list jsstring) :
  Hit whole g before after ∈ scan reStyle html ->
  exists tag attrs css close,
    whole = (tag ++ attrs ++ [62]) ++ css ++ close
    /\ g = [css]
    /\ Forall2 (fun x y => eqCI x y = true) (js "<style") tag
    /\ Forall (fun c => c <> 62) attrs
    /\ Forall2 (fun x y => eqCI x y = true) (js "</style>") close
    /\ forall r,
         modifyCssContent change css = Ret r ->
         modified r = true ->
         Forall (fun c => c <> 36) (content r) ->
         (forall b a, whole = b ++ css ++ a ->
            (length (tag ++ attrs ++ [62%N]) <= length b)%nat) ->
         inlineCallback change (Hit whole g before after)
         = Ret ((tag ++ attrs ++ [62]) ++ content r ++ close, true).
Proof.
  intros Hin. apply (scan_hit _ _ _ _ _ _ reStyle_suffixing) in Hin as [Hm _].
  apply reStyle_shape in Hm as (tag & attrs & css & close & Hw & -> & Htag & Hattrs & Hclose).
  apply app_inv_tail in Hw. exists tag, attrs, css, close.
  split; [exact Hw|]. split; [reflexivity|]. split; [exact Htag|]. split; [exact Hattrs|].
  split; [exact Hclose|]. intros r Hr Hmod Hplain Hfirst.
  unfold inlineCallback. change (default [] (head [css])) with css.
  rewrite Hr. cbn. rewrite Hmod. do 2 f_equal.
  unfold replaceFirst, findSub.
  pose proof (findSubBy_first css whole []) as Hsub.
  destruct (findSubBy N.eqb css [] whole) as [[b a]|].
  - destruct Hsub as (t & -> & Ht & Hmin). cbn [app] in *.
    rewrite getSubstitution_no_dollar by assumption.
    pose proof (Hmin _ _ Hw) as Hle1. pose proof (Hfirst _ _ Ht) as Hle2.
    assert (Hlen : length t = length (tag ++ attrs ++ [62])) by lia.
    rewrite Ht in Hw. apply app_inj_1 in Hw as [-> Hrest]; [|exact Hlen].
    apply app_inv_head in Hrest. now rewrite Hrest.
  - now destruct (Hsub _ _ Hw).
Qed.

End InPlace.

Lemma inlineCallback_replaces_css_in_place_witness :
  exists tag attrs css close,
    js "<style media='all'>h1{color:blue}</style>" = (tag ++ attrs ++ [62]) ++ css ++ close
    /\ [js "h1{color:blue}"] = [css]
    /\ Forall2 (fun x y => @eqCI sampleEngine x y = true) (js "<style") tag
    /\ Forall (fun c => c <> 62) attrs
    /\ Forall2 (fun x y => @eqCI sampleEngine x y = true) (js "</style>") close
    /\ forall r,
         @modifyCssContent sampleCss sampleEngine (sampleChange "h1" "color" "red") css = Ret r ->
         modified r = true ->
         Forall (fun c => c <> 36) (content r) ->
         (forall b a, js "<style media='all'>h1{color:blue}</style>" = b ++ css ++ a ->
            (length (tag ++ attrs ++ [62%N]) <= length b)%nat) ->
         @inlineCallback sampleCss sampleEngine (sampleChange "h1" "color" "red")
           (Hit (js "<style media='all'>h1{color:blue}</style>") [js "h1{color:blue}"]
              (js "<p>x</p>") [])
         = Ret ((tag ++ attrs ++ [62]) ++ content r ++ close, true).
Proof.
  apply (@inlineCallback_replaces_css_in_place sampleCss sampleEngine
           (sampleChange "h1" "color" "red")
           (js "<p>x</p><style media='all'>h1{color:blue}</style>")).
  apply (list_elem_of_lookup_2 _ 8). vm_compute. reflexivity.
Defined.

(** The block of the witness after the change, and a block whose opening
    tag holds the CSS text: there the first occurrence is in the tag, and
    it is the tag that is rewritten. *)
Example inlineCallback_in_place :
  @inlineCallback sampleCss sampleEngine (sampleChange "h1" "color" "red")
    (Hit (js "<style media='all'>h1{color:blue}</style>") [js "h1{color:blue}"] [] [])
  = Ret (js "<style media='all'>h1{color:red;}</style>", true).
Proof. vm_compute. reflexivity. Qed.

Example inlineCallback_first_occurrence :
  @inlineCallback sampleCss sampleEngine (sampleChange "h1" "color" "red")
    (Hit (js "<style title='h1{}'>h1{}</style>") [js "h1{}"] [] [])
  = Ret (js "<style title='h1{color:red;}'>h1{}</style>", true).
Proof. vm_compute. reflexivity. Qed.

(** ** The style reader: which fragment wins *)

Section ReaderOrder.
Context `{CssTree} `{RegExpEngine} `{NodePath}.

Lemma assignLinked_frame (k sel : jsstring) (w : world) (l : list jsstring) :
  (forall g en text m, g ∈ l -> files w !! resolve1 g = Some en ->
     readEntry g (Some en) = Ret text ->
     extractStylesFromCss text sel = Ret m -> m !! k = None) ->
  forall st r, assignLinked l sel st w = (Ret r, w) -> r !! k = st !! k.
Proof.
  induction l as [|g l IH]; intros Hl st r; cbn [assignLinked].
  - cbv [mret IO_ret]. now intros [= <-].
  - run_io. destruct (files w !! resolve1 g) as [en|] eqn:E; cbn; rewrite ?E.
    + destruct (readEntry g (Some en)) as [text|e] eqn:Er; cbn; [|discriminate].
      destruct (extractStylesFromCss_total text sel) as [m Hm]. rewrite Hm. cbn.
      intros Hr. apply IH in Hr; [|intros g' en' t' m' Hg'; apply Hl; now right].
      rewrite Hr. unfold objectAssign. apply lookup_union_r.
      apply (Hl g en text m); [left | assumption..].
    + apply IH. intros g' en' t' m' Hg'. apply Hl. now right.
Qed.

Lemma assignLinked_app (l1 l2 : list jsstring) (sel : jsstring) (w : world) :
  forall st, assignLinked (l1 ++ l2) sel st w
             = match assignLinked l1 sel st w with
               | (Ret st1, _) => assignLinked l2 sel st1 w
               | (Throw e, w') => (Throw e, w')
               end.
Proof.
  induction l1 as [|g l1 IH]; intros st; cbn [app assignLinked]; [reflexivity|].
  run_io. destruct (files w !! resolve1 g) as [en|] eqn:E; cbn; rewrite ?E; [|apply IH].
  destruct (readEntry g (Some en)) as [text|e]; cbn; [|reflexivity].
  destruct (extractStylesFromCss text sel) as [m|e]; cbn; [apply IH | reflexivity].
Qed.

(** The loop over linked files that are missing or text files returns. *)
Lemma assignLinked_total (linkedCss : list jsstring) (targetSelector : jsstring) (w : world) :
  (forall g, g ∈ linkedCss ->
     files w !! resolve1 g = None \/ exists text, files w !! resolve1 g = Some (File text)) ->
  forall styles, exists styles',
    assignLinked linkedCss targetSelector styles w = (Ret styles', w).
Proof.
  induction linkedCss as [|f rest IH]; intros Hl styles; cbn [assignLinked].
  - eexists. reflexivity.
  - assert (Hrest : forall g, g ∈ rest ->
              files w !! resolve1 g = None
              \/ exists text, files w !! resolve1 g = Some (File text))
      by (intros g Hg; apply Hl; now right).
    run_io. destruct (Hl f (list_elem_of_here _ _)) as [E|[text E]]; rewrite E; cbn;
      rewrite ?E; [now apply IH|].
    unfold readEntry. cbn.
    destruct (extractStylesFromCss_total text targetSelector) as [m ->]. cbn.
    now apply IH.
Qed.

(** X13. In the result of [getStylesForSelector] a linked style sheet wins
    over every style block of the document and over the linked sheets before
    it: an entry [k: x] that the reader finds in a linked file of the
    document is the entry of the result for [k], unless a linked file
    further down the list has an entry for [k] too.  The document and the
    linked files that exist are text files. *)
Theorem getStylesForSelector_later_linked_file_wins
    (htmlPath sel : jsstring) (w : world) (html : jsstring)
    (before after : list jsstring) (f css k x : jsstring) (m : gmap jsstring jsstring) :
  files w !! resolve1 htmlPath = Some (File html) ->
  findLinkedCssFiles html (dirname htmlPath) = before ++ f :: after ->
  (forall g, g ∈ before ++ after ->
     files w !! resolve1 g = None \/ exists text, files w !! resolve1 g = Some (File text)) ->
  files w !! resolve1 f = Some (File css) ->
  extractStylesFromCss css sel = Ret m ->
  m !! k = Some x ->
  (forall g text m', g ∈ after -> files w !! resolve1 g = Some (File text) ->
     extractStylesFromCss text sel = Ret m' -> m' !! k = None) ->
  exists styles,
    getStylesForSelector htmlPath sel w = (Ret styles, w) /\ styles !! k = Some x.
Proof.
  intros Hfile Hlinked Hfiles Hf Hm Hk Hafter.
  unfold getStylesForSelector. run_io. rewrite Hfile. cbn. rewrite Hfile.
  unfold readEntry. cbn.
  destruct (assignStyles_total (styleContents html) sel ∅) as [st0 ->]. cbn.
  rewrite Hlinked, assignLinked_app.
  destruct (assignLinked_total before sel w) with (styles := st0) as [st1 ->].
  { intros g Hg. apply Hfiles. apply elem_of_app. now left. }
  cbn [assignLinked]. run_io. rewrite Hf. cbn. rewrite Hf. unfold readEntry. cbn.
  rewrite Hm. cbn.
  destruct (assignLinked_total after sel w) with (styles := objectAssign st1 m)
    as [st2 Hst2].
  { intros g Hg. apply Hfiles. apply elem_of_app. now right. }
  exists st2. split; [exact Hst2|].
  rewrite (assignLinked_frame k sel w after) with (st := objectAssign st1 m) (r := st2);
    [|intros g en text m' Hg Hen Hread; apply (Hafter g text m' Hg)|exact Hst2].
  - unfold objectAssign. now apply lookup_union_Some_l.
  - destruct (Hfiles g) as [E|[t E]]; [apply elem_of_app; now right|congruence|].
    rewrite E in Hen. injection Hen as <-. unfold readEntry in Hread. congruence.
Qed.

End ReaderOrder.

Lemma getStylesForSelector_later_linked_file_wins_witness :
  exists styles,
    @getStylesForSelector sampleCss sampleEngine samplePath (js "/site/index.html") (js "h1")
      sampleWorld = (Ret styles, sampleWorld)
    /\ styles !! js "color" = Some (js "green").
Proof.
  apply (@getStylesForSelector_later_linked_file_wins sampleCss sampleEngine samplePath
           (js "/site/index.html") (js "h1") sampleWorld
           (js "<head><link rel='stylesheet' href='a.css'><style>h1{color:blue}</style></head>")
           [] [] (js "/site/a.css") (js "h1{color:green}") (js "color") (js "green")
           {[ js "color" := js "green" ]}).
  - vm_compute. reflexivity.
  - vm_compute. reflexivity.
  - intros g Hg. now apply elem_of_nil in Hg.
  - vm_compute. reflexivity.
  - vm_compute. reflexivity.
  - vm_compute. reflexivity.
  - intros g text m' Hg. now apply elem_of_nil in Hg.
Defined.

(** ** Exceptions of the engine *)

Section EngineTotal.
Context `{CssTree} `{RegExpEngine} `{NodePath}.

(** The errors of [fs] on a path that exists. *)
Definition isFileError (e : exn) : Prop := exists p, e = EISDIR p \/ e = EACCES p.

Lemma readEntry_error (p : jsstring) (en : entry) (e : exn) :
  readEntry p (Some en) = Throw e -> isFileError e.
Proof. unfold readEntry, isFileError. destruct en; intros [= <-]; eauto. Qed.

Lemma writeError_error (p : jsstring) (en : option entry) (e : exn) :
  writeError p en = Some e -> isFileError e.
Proof.
  unfold writeError, isFileError. destruct en as [[| | |]|]; intros [= <-]; eauto.
Qed.

Lemma applyToCssFile_throws (f : jsstring) (change : CssChange) (w w' : world) (e : exn) :
  plainPattern (property change) = true ->
  applyToCssFile f change w = (Throw e, w') -> isFileError e.
Proof.
  intros Hp. rewrite applyToCssFile_cases.
  destruct (files w !! resolve1 f) as [en|]; [|discriminate].
  destruct (readEntry f (Some en)) as [css|e0] eqn:Er;
    [|intros [= <- _]; now apply readEntry_error in Er].
  destruct (modifyCssContent_total change css Hp) as [m ->].
  destruct (modified m); [|discriminate].
  destruct (writeError f (Some en)) as [e0|] eqn:Ew; [|discriminate].
  intros [= <- _]. now apply writeError_error in Ew.
Qed.

Lemma applyToLinked_throws (linkedCss : list jsstring) (change : CssChange) (w w' : world)
    (e : exn) :
  plainPattern (property change) = true ->
  applyToLinked linkedCss change w = (Throw e, w') -> isFileError e.
Proof.
  intros Hp. induction linkedCss as [|f rest IH]; cbn [applyToLinked];
    cbv [mbind IO_bind mret IO_ret]; [discriminate|].
  pose proof (applyToCssFile_writes f change w) as Hw.
  pose proof (applyToCssFile_throws f change w) as Ht.
  destruct (applyToCssFile f change w) as [[[|]|e0] w1]; [discriminate| |].
  - subst w1. exact IH.
  - intros [= <- <-]. now apply (Ht w1 e0).
Qed.

(** X14. What [applyCssChange] throws.  Whatever it throws, nothing has
    been written.  With a property free of regex syntax characters it
    throws nothing but an error of [fs] on a path that exists (a document
    or linked file that is a directory or may not be read, a file that may
    not be written).  With a property from which no regex can be built it
    throws as soon as the fallback meets a block for the selector: so when
    css-tree rejects the value of the change and a style block of the
    document has a rule for the selector that also reads, as it is
    written, as the selector, white space and a braced block. *)
Theorem applyCssChange_throws_before_writing
    (htmlPath : jsstring) (change : CssChange) (w : world) :
  (forall e w', applyCssChange htmlPath change w = (Throw e, w') -> w' = w)
  /\ (plainPattern (property change) = true ->
      forall e w', applyCssChange htmlPath change w = (Throw e, w') -> isFileError e)
  /\ (forall html whole css before after ast e e' wh g b a,
        plainPattern (property change) = false ->
        dynCompile (property change ++ js "\s*:[^;]+;?") = Throw e ->
        readEntry (resolve1 htmlPath) (files w !! resolve1 (resolve1 htmlPath)) = Ret html ->
        Hit whole [css] before after ∈ scan reStyle html ->
        parse css = Ret ast ->
        existsb (ruleMatches change) ast = true ->
        parseValue (value change) = Throw e' ->
        Hit wh g b a ∈ scan (reSelectorBlock (selector change)) css ->
        exists e'', applyCssChange htmlPath change w = (Throw e'', w)).
Proof.
  pose proof (applyCssChange_cases htmlPath change w) as Hc.
  split; [|split].
  - intros e w' Hr.
    destruct (files w !! resolve1 (resolve1 htmlPath)) as [en|];
      [|rewrite Hc in Hr; discriminate].
    destruct (readEntry (resolve1 htmlPath) (Some en)) as [html|e0];
      [|rewrite Hc in Hr; now injection Hr as _ <-].
    destruct (applyToInlineStyle html change) as [ir|e0];
      [|rewrite Hc in Hr; now injection Hr as _ <-].
    destruct (found ir).
    { destruct (writeError (resolve1 htmlPath) (Some en)); rewrite Hc in Hr;
        [now injection Hr as _ <- | discriminate]. }
    pose proof (applyToLinked_writes
                  (findLinkedCssFiles html (dirname (resolve1 htmlPath))) change w) as Hw.
    destruct (applyToLinked _ change w) as [[[f|]|e0] w1].
    + rewrite Hc in Hr. discriminate.
    + destruct (writeError (resolve1 htmlPath) (Some en)); rewrite Hc in Hr;
        [now injection Hr as _ <- | discriminate].
    + rewrite Hc in Hr. injection Hr as _ <-. exact Hw.
  - intros Hp e w' Hr.
    destruct (files w !! resolve1 (resolve1 htmlPath)) as [en|];
      [|rewrite Hc in Hr; discriminate].
    destruct (readEntry (resolve1 htmlPath) (Some en)) as [html|e0] eqn:Er;
      [|rewrite Hc in Hr; injection Hr as <- _; now apply readEntry_error in Er].
    assert (Hin : exists r, applyToInlineStyle html change = Ret r).
    { unfold applyToInlineStyle.
      destruct (mapM_Exc_total (inlineCallback change) (scan reStyle html)) as [rs ->];
        [intros p; now apply inlineCallback_total | cbn; eauto]. }
    destruct Hin as [ir Hir]. rewrite Hir in Hc.
    destruct (found ir).
    { destruct (writeError (resolve1 htmlPath) (Some en)) as [e0|] eqn:Ew;
        rewrite Hc in Hr; [|discriminate].
      injection Hr as <- _. now apply writeError_error in Ew. }
    pose proof (applyToLinked_throws
                  (findLinkedCssFiles html (dirname (resolve1 htmlPath))) change w) as Ht.
    destruct (applyToLinked _ change w) as [[[f|]|e0] w1].
    + rewrite Hc in Hr. discriminate.
    + destruct (writeError (resolve1 htmlPath) (Some en)) as [e0|] eqn:Ew;
        rewrite Hc in Hr; [|discriminate].
      injection Hr as <- _. now apply writeError_error in Ew.
    + rewrite Hc in Hr. injection Hr as <- _. now apply (Ht w1 e0).
  - intros html whole css before after ast e e' wh g b a Hp Hdyn Hfile Hstyle Hparse
      Hmatch Hvalue Hblock.
    destruct (files w !! resolve1 (resolve1 htmlPath)) as [en|]; [|discriminate].
    rewrite Hfile in Hc.
    assert (Hfb : exists e1, applyWithRegex css change = Throw e1).
    { unfold applyWithRegex.
      destruct (mapM_Exc_throws (patchPiece change) _ _ Hblock) as [e1 ->]; [|cbn; eauto].
      cbn. unfold patchBlock. rewrite Hp, Hdyn. cbn. eauto. }
    assert (Hin : exists e1, applyToInlineStyle html change = Throw e1).
    { unfold applyToInlineStyle.
      destruct (mapM_Exc_throws (inlineCallback change) _ _ Hstyle) as [e1 ->]; [|cbn; eauto].
      cbn. rewrite (modifyCssContent_value_rejected change e' Hvalue css ast Hparse Hmatch).
      destruct Hfb as [e1 ->]. cbn. eauto. }
    destruct Hin as [e1 Hin]. rewrite Hin in Hc. eauto.
Qed.

Lemma applyToLinked_member (linkedCss : list jsstring) (change : CssChange) (w w' : world)
    (f : jsstring) :
  applyToLinked linkedCss change w = (Ret (Some f), w') -> f ∈ linkedCss.
Proof.
  induction linkedCss as [|g rest IH]; cbn [applyToLinked]; cbv [mbind IO_bind mret IO_ret];
    [discriminate|].
  pose proof (applyToCssFile_writes g change w) as Hg.
  destruct (applyToCssFile g change w) as [[[|]|e] w1]; [| |discriminate].
  - intros [= <- _]. left.
  - subst w1. intros Hrest. right. now apply IH.
Qed.

(** X15. [applyCssChange] writes to the document or to a linked local style
    sheet, and to nothing else: a success has made its one write to the
    file it reports, which is the resolved path of the document or one of
    the paths of [findLinkedCssFiles], that is [path.resolve] of the
    directory of the document and an href that does not start with
    [http://], [https://] or [//]. *)
Theorem applyCssChange_writes_document_or_local_sheet
    (htmlPath : jsstring) (change : CssChange) (w w' : world) (r : ApplyResult) :
  applyCssChange htmlPath change w = (Ret r, w') ->
  success r = true ->
  exists html p text,
    readEntry (resolve1 htmlPath) (files w !! resolve1 (resolve1 htmlPath)) = Ret html
    /\ modifiedFile r = Some p
    /\ w' = wrote p text w
    /\ (p = resolve1 htmlPath
        \/ (p ∈ findLinkedCssFiles html (dirname (resolve1 htmlPath))
            /\ exists href,
                 p = resolve2 (dirname (resolve1 htmlPath)) href
                 /\ isLocalHref href = true)).
Proof.
  intros Hr Hs. pose proof (applyCssChange_cases htmlPath change w) as Hc.
  destruct (files w !! resolve1 (resolve1 htmlPath)) as [en|];
    [|rewrite Hc in Hr; injection Hr as <- <-; discriminate].
  destruct (readEntry (resolve1 htmlPath) (Some en)) as [html|e];
    [|rewrite Hc in Hr; discriminate].
  exists html.
  destruct (applyToInlineStyle html change) as [ir|e]; [|rewrite Hc in Hr; discriminate].
  destruct (found ir).
  { destruct (writeError (resolve1 htmlPath) (Some en)); rewrite Hc in Hr; [discriminate|].
    injection Hr as <- <-. eexists _, _. repeat split. now left. }
  pose proof (applyToLinked_writes
                (findLinkedCssFiles html (dirname (resolve1 htmlPath))) change w) as Hw.
  pose proof (applyToLinked_member
                (findLinkedCssFiles html (dirname (resolve1 htmlPath))) change w) as Hmem.
  destruct (applyToLinked _ change w) as [[[f|]|e] w1].
  - rewrite Hc in Hr. injection Hr as <- <-.
    destruct Hw as [text ->]. exists f, text. repeat split. right.
    pose proof (Hmem _ f eq_refl) as Hin. split; [exact Hin|].
    destruct (findLinkedCssFiles_hrefs _ _ _ Hin)
      as (href & b & a & -> & _ & _ & _ & Ha & Hb & Hd).
    exists href. split; [reflexivity|]. unfold isLocalHref. now rewrite Ha, Hb, Hd.
  - destruct (writeError (resolve1 htmlPath) (Some en)); rewrite Hc in Hr; [discriminate|].
    injection Hr as <- <-. eexists _, _. repeat split. now left.
  - rewrite Hc in Hr. discriminate.
Qed.

End EngineTotal.

(** A document whose style block has a rule for [h1]. *)
Definition headingWorld : world :=
  {| files := {[ js "/page.html" := File (js "<style>h1{}</style>") ]}; writes := [] |}.

Lemma applyCssChange_throws_before_writing_witness :
  exists e,
    @applyCssChange sampleCss sampleEngine samplePath (js "/page.html")
      (sampleChange "h1" "a(" "red !important") headingWorld = (Throw e, headingWorld).
Proof.
  apply (proj2 (proj2 (@applyCssChange_throws_before_writing sampleCss sampleEngine
                         samplePath (js "/page.html")
                         (sampleChange "h1" "a(" "red !important") headingWorld))
           (js "<style>h1{}</style>") (js "<style>h1{}</style>") (js "h1{}")
           [] [] [Rule (js "h1") []] SyntaxError SyntaxError (js "h1{}") [js "h1{"] [] []).
  - vm_compute. reflexivity.
  - vm_compute. reflexivity.
  - vm_compute. reflexivity.
  - apply (list_elem_of_lookup_2 _ 0). vm_compute. reflexivity.
  - vm_compute. reflexivity.
  - vm_compute. reflexivity.
  - vm_compute. reflexivity.
  - apply (list_elem_of_lookup_2 _ 0). vm_compute. reflexivity.
Defined.

Lemma applyCssChange_writes_document_or_local_sheet_witness :
  exists html p text,
    @readEntry (js "/site/index.html") (files linkedWorld !! js "/site/index.html") = Ret html
    /\ Some (js "/site/b.css") = Some p
    /\ @wrote samplePath (js "/site/b.css") (js "h1{color:red;}") linkedWorld
       = @wrote samplePath p text linkedWorld
    /\ (p = js "/site/index.html"
        \/ (p ∈ @findLinkedCssFiles sampleEngine samplePath html (js "/site")
            /\ exists href,
                 p = js "/site" ++ js "/" ++ href /\ isLocalHref href = true)).
Proof.
  apply (@applyCssChange_writes_document_or_local_sheet sampleCss sampleEngine samplePath
           (js "/site/index.html") (sampleChange "h1" "color" "red") linkedWorld
           (@wrote samplePath (js "/site/b.css") (js "h1{color:red;}") linkedWorld)
           {| success := true; message := js "CSS aplicado en b.css";
              modifiedFile := Some (js "/site/b.css") |}).
  - vm_compute. reflexivity.
  - reflexivity.
Defined.

(** ** The session: who is sent a message, and what an event touches *)

(** The clients a broadcast reaches: the connected ones whose socket is
    open, in the order they connected. *)
Definition recipients (st : session) : list nat :=
  map fst (List.filter snd (connectedClients st)).

Definition withSent (l : list (nat * outMessage)) (st : session) : session :=
  {| selectedElement := selectedElement st; currentHtml := currentHtml st;
     selectionResolvers := selectionResolvers st; connectedClients := connectedClients st;
     disk := disk st; sent := l; promises := promises st;
     nextPromise := nextPromise st; timers := timers st; now := now st;
     consoleErrors := consoleErrors st |}.

Lemma broadcast_fold (m : outMessage) (cs : list (nat * bool)) :
  forall st,
    fold_left (fun s client => if (client.2 : bool) then send client.1 m s else s) cs st
    = withSent (sent st ++ map (fun ws => (ws, m)) (map fst (List.filter snd cs))) st.
Proof.
  induction cs as [|[c o] cs IH]; intros st; cbn [fold_left List.filter map fst snd].
  - rewrite app_nil_r. now destruct st.
  - rewrite IH. destruct o; cbn [List.filter map fst snd]; [|reflexivity].
    unfold withSent, send. cbn. now rewrite <- app_assoc.
Qed.

Lemma broadcast_withSent (m : outMessage) (st : session) :
  broadcast m st = withSent (sent st ++ map (fun ws => (ws, m)) (recipients st)) st.
Proof. apply broadcast_fold. Qed.

Lemma setDocument_same (st : session) : setDocument (currentHtml st) (disk st) st = st.
Proof. now destruct st. Qed.

Section SessionFrame.
Context `{CssTree} `{RegExpEngine} `{NodePath}.

(** No message touches the timers, the clock or the set of clients. *)
Lemma onMessage_clock (m : inbound) (ws : nat) (st : session) :
  timers (onMessage m ws st) = timers st
  /\ now (onMessage m ws st) = now st
  /\ connectedClients (onMessage m ws st) = connectedClients st.
Proof.
  unfold onMessage.
  destruct m as [payload| | |[doc|]|[change|]|type]; cbn [handleMessage];
    rewrite ?broadcast_withSent; try (repeat split; reflexivity).
  - destruct (currentHtml st); repeat split.
  - destruct (currentHtml st) as [doc|]; [|repeat split].
    destruct (applyCssChange (filePath doc) change (disk st)) as [[result|e] w1];
      [|repeat split].
    destruct (success result); [|repeat split].
    destruct (readFileSync (filePath doc) w1) as [[text|e] w2]; [|repeat split].
    rewrite !broadcast_withSent. repeat split.
Qed.

Lemma onMessage_disk (m : inbound) (ws : nat) (st : session) :
  (forall c, m <> ApplyCss (Some c)) -> disk (onMessage m ws st) = disk st.
Proof.
  intros Hm. unfold onMessage.
  destruct m as [payload| | |[doc|]|[change|]|type]; cbn [handleMessage];
    rewrite ?broadcast_withSent; try reflexivity.
  - now destruct (currentHtml st).
  - now destruct (Hm change).
Qed.

Lemma onMessage_document (m : inbound) (ws : nat) (st : session) :
  (forall c, m <> ApplyCss (Some c)) -> (forall d, m <> LoadHtml (Some d)) ->
  currentHtml (onMessage m ws st) = currentHtml st.
Proof.
  intros Hm Hd. unfold onMessage.
  destruct m as [payload| | |[doc|]|[change|]|type]; cbn [handleMessage];
    rewrite ?broadcast_withSent; try reflexivity.
  - destruct (currentHtml st) eqn:E; cbn; now rewrite ?E.
  - now destruct (Hd doc).
  - now destruct (Hm change).
Qed.

Lemma step_quiet (st : session) (e : event) :
  (forall ws m, e <> Receive ws m) ->
  selectedElement (step st e) = selectedElement st
  /\ disk (step st e) = disk st
  /\ currentHtml (step st e) = currentHtml st.
Proof.
  intros He. destruct e as [ws|ws|ws m|timeoutMs|ms|p]; cbn [step];
    try (repeat split; reflexivity).
  - now destruct (He ws m).
  - unfold waitForSelection. destruct (selectedElement st); repeat split.
  - destruct (isDue p st); [|repeat split]. unfold onTimeout.
    destruct (indexOf p (selectionResolvers (disarm p st))); repeat split.
Qed.

Lemma run_selection_frame (st : session) (es : list event) :
  Forall (fun e => forall ws payload, e <> Receive ws (ElementSelected payload)) es ->
  selectedElement (run st es) = selectedElement st.
Proof.
  intros Hes. revert st. induction Hes as [|e es He Hes IH]; intros st; [reflexivity|].
  cbn [run fold_left]. fold (run (step st e) es). rewrite IH.
  destruct e as [ws|ws|ws m|timeoutMs|ms|p];
    try (apply step_quiet; intros ? ?; discriminate).
  cbn [step]. apply onMessage_waiters. intros payload ->. now apply (He ws payload).
Qed.

Lemma run_disk_frame (st : session) (es : list event) :
  Forall (fun e => forall ws c, e <> Receive ws (ApplyCss (Some c))) es ->
  disk (run st es) = disk st.
Proof.
  intros Hes. revert st. induction Hes as [|e es He Hes IH]; intros st; [reflexivity|].
  cbn [run fold_left]. fold (run (step st e) es). rewrite IH.
  destruct e as [ws|ws|ws m|timeoutMs|ms|p];
    try (apply step_quiet; intros ? ?; discriminate).
  cbn [step]. apply onMessage_disk. intros c ->. now apply (He ws c).
Qed.

Lemma run_document_frame (st : session) (es : list event) :
  Forall (fun e => forall ws c d, e <> Receive ws (ApplyCss (Some c))
                                  /\ e <> Receive ws (LoadHtml (Some d))) es ->
  currentHtml (run st es) = currentHtml st.
Proof.
  intros Hes. revert st. induction Hes as [|e es He Hes IH]; intros st; [reflexivity|].
  cbn [run fold_left]. fold (run (step st e) es). rewrite IH.
  destruct e as [ws|ws|ws m|timeoutMs|ms|p];
    try (apply step_quiet; intros ? ?; discriminate).
  cbn [step]. apply onMessage_document.
  - intros c ->. now apply (proj1 (He ws c {| filePath := []; docContent := [] |})).
  - intros d ->. now apply (proj2 (He ws {| selector := []; property := []; value := [] |} d)).
Qed.

(** X16. What each part of the session state depends on.  Over any sequence
    of events: without an [element-selected] message the selection stays as
    it is (no time-out, new document or style edit clears it); without an
    [apply-css] message that has a payload the files and the record of
    writes stay as they are; without such a message and without a
    [load-html] message that has a payload the document stays as it is. *)
Theorem session_state_changes_only_by_its_messages (st : session) (es : list event) :
  (Forall (fun e => forall ws payload, e <> Receive ws (ElementSelected payload)) es ->
   selectedElement (run st es) = selectedElement st)
  /\ (Forall (fun e => forall ws c, e <> Receive ws (ApplyCss (Some c))) es ->
      disk (run st es) = disk st)
  /\ (Forall (fun e => forall ws c d, e <> Receive ws (ApplyCss (Some c))
                                      /\ e <> Receive ws (LoadHtml (Some d))) es ->
      currentHtml (run st es) = currentHtml st).
Proof.
  split; [apply run_selection_frame | split; [apply run_disk_frame | apply run_document_frame]].
Qed.

(** X17. A view that says [ready] is sent the current document, and nothing
    else is sent.  After a [load-html] message with a document, and then any
    events other than a further [load-html] or [apply-css] with a payload
    (clients that connect or close, selections, waits, time-outs), a [ready]
    message from a client is answered with one [load-html] message to that
    client, carrying that document. *)
Theorem ready_is_answered_with_the_current_document
    (st : session) (doc : HtmlDoc) (loader client : nat) (es : list event) :
  Forall (fun e => forall ws c d, e <> Receive ws (ApplyCss (Some c))
                                  /\ e <> Receive ws (LoadHtml (Some d))) es ->
  sent (run st (Receive loader (LoadHtml (Some doc)) :: es ++ [Receive client Ready]))
  = sent (run st (Receive loader (LoadHtml (Some doc)) :: es))
    ++ [(client, OutLoadHtml doc)].
Proof.
  intros Hes. rewrite app_comm_cons. unfold run at 1. rewrite fold_left_app.
  fold (run st (Receive loader (LoadHtml (Some doc)) :: es)). cbn [fold_left step].
  assert (Hdoc : currentHtml (run st (Receive loader (LoadHtml (Some doc)) :: es))
                 = Some doc).
  { cbn [run fold_left]. fold (run (step st (Receive loader (LoadHtml (Some doc)))) es).
    rewrite (run_document_frame _ es Hes). cbn [step]. unfold onMessage.
    cbn [handleMessage]. now rewrite broadcast_withSent. }
  unfold onMessage. cbn [handleMessage]. now rewrite Hdoc.
Qed.

(** ** Waiters and their timers *)

(** Every waiter of the queue has a timer armed. *)
Definition waitersTimed (st : session) : Prop :=
  forall p, p ∈ selectionResolvers st -> exists due, (p, due) ∈ timers st.

Lemma step_waitersTimed (st : session) (e : event) :
  waitersInOrder st -> waitersTimed st -> waitersTimed (step st e).
Proof.
  intros (Hnd & Hq & Hfresh) Ht.
  destruct e as [ws|ws|ws m|timeoutMs|ms|p]; cbn [step]; try exact Ht.
  - destruct (onMessage_clock m ws st) as (Et & _).
    destruct m as [payload| | | | | ].
    2-6: (match goal with |- waitersTimed (onMessage ?m ?c ?s) =>
            destruct (onMessage_waiters m c s ltac:(discriminate)) as (E1&_) end;
          unfold waitersTimed; rewrite E1, Et; exact Ht).
    intros p Hp. unfold onMessage, handleMessage in Hp. cbn in Hp.
    now apply elem_of_nil in Hp.
  - unfold waitForSelection, waitersTimed. destruct (selectedElement st); cbn; [exact Ht|].
    intros p Hp. apply elem_of_app in Hp as [Hp|Hp].
    + destruct (Ht p Hp) as [due Hdue]. exists due. apply elem_of_app. now left.
    + apply list_elem_of_singleton in Hp. subst p. eexists. apply elem_of_app. right. left.
  - destruct (isDue p st); [|exact Ht]. unfold onTimeout. cbn [selectionResolvers disarm].
    destruct (indexOf p (selectionResolvers st)) as [i|] eqn:Ei.
    + destruct (indexOf_Some _ _ _ Ei) as [Hi _]. intros q Hin. cbn in Hin.
      apply (elem_of_splice1 _ _ p q Hnd Hi) in Hin as [Hin Hne].
      destruct (Ht q Hin) as [due Hdue]. exists due. cbn.
      apply list_elem_of_filter. split; [exact Hne | exact Hdue].
    + apply indexOf_None in Ei. intros q Hin. cbn in Hin.
      destruct (Ht q Hin) as [due Hdue]. exists due. cbn.
      apply list_elem_of_filter. split; [|exact Hdue]. cbn. intros ->. contradiction.
Qed.

Lemma reachable_invariants (st : session) :
  reachable st -> waitersInOrder st /\ waitersTimed st.
Proof.
  intros (w & es & ->).
  assert (Hgen : forall st0, waitersInOrder st0 -> waitersTimed st0 ->
                   waitersInOrder (run st0 es) /\ waitersTimed (run st0 es)).
  { induction es as [|e es IH]; intros st0 Ha Hb; [split; assumption|].
    cbn. apply IH; [now apply step_waitersInOrder | now apply step_waitersTimed]. }
  apply Hgen; [apply initial_waitersInOrder|].
  intros p Hp. now apply elem_of_nil in Hp.
Qed.

Lemma waiter_rejected_when_due (st : session) (p : nat) :
  waitersInOrder st -> waitersTimed st ->
  p ∈ selectionResolvers st ->
  (exists due, (p, due) ∈ timers st)
  /\ exists ms,
       isDue p (step st (Elapse ms)) = true
       /\ promises (run st [Elapse ms; Fire p]) !! p = Some Rejected
       /\ (p ∉ selectionResolvers (run st [Elapse ms; Fire p])).
Proof.
  intros (Hnd & Hq & _) Ht Hp.
  destruct (Ht p Hp) as [due Hdue]. split; [eauto|]. exists due.
  assert (Hd : isDue p (step st (Elapse due)) = true).
  { unfold isDue. cbn. apply existsb_exists. exists (p, due).
    split; [now apply list_elem_of_In|]. cbn.
    rewrite bool_decide_eq_true_2 by reflexivity. apply N.leb_le. lia. }
  split; [exact Hd|]. cbn [run fold_left]. cbn [step] in *. rewrite Hd.
  unfold onTimeout. cbn [selectionResolvers disarm advance].
  destruct (indexOf p (selectionResolvers st)) as [i|] eqn:Ei;
    [|apply indexOf_None in Ei; contradiction].
  destruct (indexOf_Some _ _ _ Ei) as [Hi _]. cbn. split.
  - rewrite settle_lookup. destruct (Hq p Hp) as [_ ->]. now rewrite decide_True.
  - intros Hin. apply (elem_of_splice1 _ _ p p Hnd Hi) in Hin as [_ Hne]. congruence.
Qed.

(** X18. No waiter is left without a way out.  In every state the session
    can reach, each waiter of the queue has a timer armed; once enough time
    has passed the timer is due, and when it fires the promise of the waiter
    is rejected and the waiter leaves the queue. *)
Theorem every_waiter_can_time_out (st : session) (p : nat) :
  reachable st ->
  p ∈ selectionResolvers st ->
  (exists due, (p, due) ∈ timers st)
  /\ exists ms,
       isDue p (step st (Elapse ms)) = true
       /\ promises (run st [Elapse ms; Fire p]) !! p = Some Rejected
       /\ (p ∉ selectionResolvers (run st [Elapse ms; Fire p])).
Proof.
  intros Hreach Hp. destruct (reachable_invariants st Hreach) as (Hinv & Ht).
  now apply waiter_rejected_when_due.
Qed.

(** The events that leave the waiter [p] alone: anything but a selection
    and the timer of [p]. *)
Definition leavesWaiting (p : nat) (e : event) : Prop :=
  (forall ws payload, e <> Receive ws (ElementSelected payload)) /\ e <> Fire p.

Lemma step_still_waiting (st : session) (e : event) (p : nat) :
  waitersInOrder st -> leavesWaiting p e ->
  p ∈ selectionResolvers st -> p ∈ selectionResolvers (step st e).
Proof.
  intros (Hnd & Hq & Hfresh) [Hsel Hfire] Hp.
  destruct e as [ws|ws|ws m|timeoutMs|ms|q]; cbn [step]; try exact Hp.
  - destruct (onMessage_waiters m ws st) as (E1 & _); [|now rewrite E1].
    intros payload ->. now apply (Hsel ws payload).
  - unfold waitForSelection. destruct (selectedElement st); cbn; [exact Hp|].
    apply elem_of_app. now left.
  - destruct (isDue q st); [|exact Hp]. unfold onTimeout. cbn [selectionResolvers disarm].
    destruct (indexOf q (selectionResolvers st)) as [i|] eqn:Ei; [|exact Hp].
    destruct (indexOf_Some _ _ _ Ei) as [Hi _]. cbn.
    apply (elem_of_splice1 _ _ q p Hnd Hi). split; [exact Hp | congruence].
Qed.

Lemma waiter_resolved_by_next_selection
    (st : session) (p : nat) (es : list event) (ws : nat)
    (payload : option SelectedElement) :
  waitersInOrder st ->
  p ∈ selectionResolvers st ->
  Forall (leavesWaiting p) es ->
  p ∈ selectionResolvers (run st es)
  /\ promises (run st es) !! p = None
  /\ promises (run st (es ++ [Receive ws (ElementSelected payload)])) !! p
     = Some (Resolved payload).
Proof.
  intros Hinv Hp Hes.
  assert (Hgen : forall st0, waitersInOrder st0 -> p ∈ selectionResolvers st0 ->
                   waitersInOrder (run st0 es) /\ p ∈ selectionResolvers (run st0 es)).
  { clear Hp Hinv. induction Hes as [|e es He Hes IH]; intros st0 Ha Hb;
      [split; assumption|].
    cbn. apply IH; [now apply step_waitersInOrder | now apply step_still_waiting]. }
  destruct (Hgen st Hinv Hp) as ((Hnd & Hq & Hfresh) & Hin).
  split; [exact Hin|]. split; [now destruct (Hq p Hin)|].
  unfold run. rewrite fold_left_app. fold (run st es). cbn [fold_left step].
  unfold onMessage, handleMessage. cbn.
  rewrite settle_all_lookup. destruct (Hq p Hin) as [_ ->]. now rewrite decide_True.
Qed.

(** X19. A waiter stays in the queue, its promise pending, through every
    event other than a selection and its own timer: clients that connect or
    close, other messages, other callers that wait, time that passes and
    the timers of other waiters.  The first [element-selected] message that
    arrives then resolves it with the payload of that message. *)
Theorem waiter_waits_for_the_next_selection
    (st : session) (p : nat) (es : list event) (ws : nat)
    (payload : option SelectedElement) :
  reachable st ->
  p ∈ selectionResolvers st ->
  Forall (leavesWaiting p) es ->
  p ∈ selectionResolvers (run st es)
  /\ promises (run st es) !! p = None
  /\ promises (run st (es ++ [Receive ws (ElementSelected payload)])) !! p
     = Some (Resolved payload).
Proof.
  intros Hreach. destruct (reachable_invariants st Hreach) as (Hinv & _).
  now apply waiter_resolved_by_next_selection.
Qed.

(** ** The [apply-css] message, outcome by outcome *)

Lemma readEntry_path (p q : jsstring) (en : option entry) (text : jsstring) :
  readEntry p en = Ret text -> readEntry q en = Ret text.
Proof. unfold readEntry. destruct en as [[| | |]|]; now intros [= <-]. Qed.

(** X20. What an [apply-css] message with a payload does when a document is
    loaded, for a path on which [path.resolve] has nothing more to do.
    - When the file of the document is gone, nothing happens at all: no
      message is sent, nothing is logged, the state is as before.
    - When the engine throws, the error is logged and nothing else changes.
    - Otherwise the engine has made its write, the document is read again
      (after a success the read cannot fail), it becomes the current
      document under the same path, and every open client is sent a
      [load-html] message with it and then every open client a
      [css-applied] message with the change. *)
Theorem apply_css_message_outcomes
    (change : CssChange) (ws : nat) (st : session) (doc : HtmlDoc) :
  currentHtml st = Some doc ->
  resolve1 (resolve1 (filePath doc)) = resolve1 (filePath doc) ->
  match applyCssChange (filePath doc) change (disk st) with
  | (Throw e, w1) => onMessage (ApplyCss (Some change)) ws st = logError st
  | (Ret result, w1) =>
      if success result then
        exists text,
          readEntry (filePath doc) (files w1 !! resolve1 (filePath doc)) = Ret text
          /\ onMessage (ApplyCss (Some change)) ws st
             = withSent
                 (sent st
                  ++ map (fun c => (c, OutLoadHtml {| filePath := filePath doc;
                                                      docContent := text |}))
                       (recipients st)
                  ++ map (fun c => (c, OutCssApplied change)) (recipients st))
                 (setDocument (Some {| filePath := filePath doc; docContent := text |})
                    w1 st)
      else
        files (disk st) !! resolve1 (filePath doc) = None
        /\ onMessage (ApplyCss (Some change)) ws st = st
  end.
Proof.
  intros Hdoc Hres. unfold onMessage. cbn [handleMessage]. rewrite Hdoc.
  pose proof (applyCssChange_cases (filePath doc) change (disk st)) as Hc.
  rewrite Hres in Hc.
  assert (Hok : forall r w1 p text html,
             readEntry (filePath doc) (files (disk st) !! resolve1 (filePath doc)) = Ret html ->
             applyCssChange (filePath doc) change (disk st) = (Ret r, w1) ->
             w1 = wrote p text (disk st) ->
             success r = true ->
             exists t, readEntry (filePath doc) (files w1 !! resolve1 (filePath doc)) = Ret t
               /\ (let (r0, st') :=
                     match readFileSync (filePath doc) w1 with
                     | (Ret updatedContent, w2) =>
                         (Ret (),
                          broadcast (OutCssApplied change)
                            (broadcast
                               (OutLoadHtml {| filePath := filePath doc;
                                               docContent := updatedContent |})
                               (setDocument
                                  (Some {| filePath := filePath doc;
                                           docContent := updatedContent |}) w2 st)))
                     | (Throw e, w2) => (Throw e, setDocument (Some doc) w2 st)
                     end in
                   match r0 with Ret _ => st' | Throw _ => logError st' end)
                  = withSent
                      (sent st
                       ++ map (fun c => (c, OutLoadHtml {| filePath := filePath doc;
                                                           docContent := t |}))
                            (recipients st)
                       ++ map (fun c => (c, OutCssApplied change)) (recipients st))
                      (setDocument (Some {| filePath := filePath doc; docContent := t |})
                         w1 st)).
  { intros r w1 p text html Hread _ -> _.
    assert (Hfile : exists t, readEntry (filePath doc)
                                (files (wrote p text (disk st)) !! resolve1 (filePath doc))
                              = Ret t).
    { cbn. destruct (decide (resolve1 p = resolve1 (filePath doc))) as [->|Hne].
      - rewrite lookup_insert_eq. now exists text.
      - rewrite lookup_insert_ne by assumption. eauto. }
    destruct Hfile as [t Ht]. exists t. split; [exact Ht|].
    unfold readFileSync. rewrite Ht. rewrite !broadcast_withSent.
    unfold withSent, setDocument, recipients. cbn. now rewrite <- app_assoc. }
  destruct (files (disk st) !! resolve1 (filePath doc)) as [en|] eqn:Hfile.
  - destruct (readEntry (resolve1 (filePath doc)) (Some en)) as [html|e] eqn:Hread;
      [|rewrite Hc; now rewrite <- Hdoc, setDocument_same].
    apply (readEntry_path _ (filePath doc)) in Hread.
    destruct (applyToInlineStyle html change) as [ir|e].
    + destruct (found ir).
      * destruct (writeError (resolve1 (filePath doc)) (Some en));
          [rewrite Hc; now rewrite <- Hdoc, setDocument_same|].
        rewrite Hc. cbn [success]. eapply Hok; [exact Hread | exact Hc | reflexivity..].
      * pose proof (applyToLinked_writes
                      (findLinkedCssFiles html (dirname (resolve1 (filePath doc))))
                      change (disk st)) as Hl.
        destruct (applyToLinked _ change (disk st)) as [[[f|]|e] w1].
        -- rewrite Hc. cbn [success]. destruct Hl as [text Hw].
           eapply Hok; [exact Hread | exact Hc | exact Hw | reflexivity].
        -- destruct (writeError (resolve1 (filePath doc)) (Some en));
             [rewrite Hc; now rewrite <- Hdoc, setDocument_same|].
           rewrite Hc. cbn [success].
           eapply Hok; [exact Hread | exact Hc | reflexivity..].
        -- rewrite Hc. subst w1. now rewrite <- Hdoc, setDocument_same.
    + rewrite Hc. now rewrite <- Hdoc, setDocument_same.
  - rewrite Hc. cbn [success]. split; [reflexivity|].
    now rewrite <- Hdoc, setDocument_same.
Qed.

(** ** Writes and messages *)

(** An [apply-css] message with a payload. *)
Definition isApplyCss (e : event) : bool :=
  match e with
  | Receive _ (ApplyCss (Some _)) => true
  | _ => false
  end.

Lemma applyCssChange_world (htmlPath : jsstring) (change : CssChange) (w : world) :
  exists l, writes (applyCssChange htmlPath change w).2 = writes w ++ l
            /\ (length l <= 1)%nat.
Proof.
  pose proof (applyCssChange_cases htmlPath change w) as Hc.
  assert (Hsame : exists l, writes w = writes w ++ l /\ (length l <= 1)%nat)
    by (exists []; rewrite app_nil_r; split; [reflexivity | cbn; lia]).
  assert (Hone : forall p t, exists l, writes (wrote p t w) = writes w ++ l
                                      /\ (length l <= 1)%nat)
    by (intros p t; exists [(p, t)]; split; [reflexivity | cbn; lia]).
  destruct (files w !! resolve1 (resolve1 htmlPath)) as [en|]; [|now rewrite Hc].
  destruct (readEntry (resolve1 htmlPath) (Some en)) as [html|e]; [|now rewrite Hc].
  destruct (applyToInlineStyle html change) as [ir|e]; [|now rewrite Hc].
  destruct (found ir).
  { destruct (writeError (resolve1 htmlPath) (Some en)); rewrite Hc;
      [exact Hsame | apply Hone]. }
  pose proof (applyToLinked_writes
                (findLinkedCssFiles html (dirname (resolve1 htmlPath))) change w) as Hw.
  destruct (applyToLinked _ change w) as [[[f|]|e] w1].
  - rewrite Hc; cbn [snd]. destruct Hw as [text ->]. apply Hone.
  - destruct (writeError (resolve1 htmlPath) (Some en)); rewrite Hc;
      [exact Hsame | apply Hone].
  - rewrite Hc; cbn [snd]. now subst w1.
Qed.

Lemma step_writes (st : session) (e : event) :
  exists l, writes (disk (step st e)) = writes (disk st) ++ l
            /\ (length l <= if isApplyCss e then 1 else 0)%nat.
Proof.
  assert (Hsame : forall st', disk st' = disk st ->
                 exists l, writes (disk st') = writes (disk st) ++ l /\ (length l <= 0)%nat).
  { intros st' ->. exists []. rewrite app_nil_r. split; [reflexivity | cbn; lia]. }
  destruct e as [ws|ws|ws m|timeoutMs|ms|p];
    try (cbn [isApplyCss]; apply Hsame; apply step_quiet; intros ? ?; discriminate).
  destruct m as [payload| | |d|[c|]|type];
    try (cbn [isApplyCss]; apply Hsame; apply onMessage_disk; intros ?; discriminate).
  cbn [isApplyCss step]. unfold onMessage. cbn [handleMessage].
  assert (Hsame1 : exists l, writes (disk st) = writes (disk st) ++ l /\ (length l <= 1)%nat)
    by (exists []; rewrite app_nil_r; split; [reflexivity | cbn; lia]).
  destruct (currentHtml st) as [doc|]; [|exact Hsame1].
  pose proof (applyCssChange_world (filePath doc) c (disk st)) as Hw.
  destruct (applyCssChange (filePath doc) c (disk st)) as [[result|e] w1]; cbn [snd] in Hw;
    [|exact Hw].
  destruct (success result); [|exact Hw].
  unfold readFileSync.
  destruct (readEntry (filePath doc) (files w1 !! resolve1 (filePath doc))); [|exact Hw].
  rewrite !broadcast_withSent. exact Hw.
Qed.

(** X21. The session writes at most one file for each [apply-css] message
    with a payload that it receives, and nothing else makes it write: over
    any sequence of events the record of [writeFileSync] calls only grows,
    by at most as many calls as there are such messages. *)
Theorem writes_bounded_by_apply_css_messages (st : session) (es : list event) :
  exists l,
    writes (disk (run st es)) = writes (disk st) ++ l
    /\ (length l <= length (List.filter isApplyCss es))%nat.
Proof.
  revert st. induction es as [|e es IH]; intros st.
  - exists []. rewrite app_nil_r. split; [reflexivity | cbn; lia].
  - cbn [run fold_left]. fold (run (step st e) es).
    destruct (IH (step st e)) as (l2 & E2 & Hlen2). destruct (step_writes st e) as (l1 & E1 & Hone).
    exists (l1 ++ l2). rewrite E2, E1, <- app_assoc. split; [reflexivity|].
    rewrite length_app. cbn [List.filter]. destruct (isApplyCss e); cbn [length]; lia.
Qed.

End SessionFrame.

(** A session with two views connected, in which the first has loaded the
    sample document. *)
Definition viewedSession : session :=
  @run sampleCss sampleEngine samplePath (initial sampleWorld)
    [Connect 1; Connect 2;
     Receive 1 (LoadHtml (Some {| filePath := js "/site/index.html";
                                  docContent := js "<head></head>" |}))].

Lemma apply_css_message_outcomes_witness :
  sent (@onMessage sampleCss sampleEngine samplePath
          (ApplyCss (Some (sampleChange "h1" "color" "red"))) 1 viewedSession)
  = sent viewedSession
    ++ [(1%nat, OutLoadHtml
           {| filePath := js "/site/index.html";
              docContent := js "<head><link rel='stylesheet' href='a.css'><style>h1{color:red;}</style></head>" |});
        (2%nat, OutLoadHtml
           {| filePath := js "/site/index.html";
              docContent := js "<head><link rel='stylesheet' href='a.css'><style>h1{color:red;}</style></head>" |});
        (1%nat, OutCssApplied (sampleChange "h1" "color" "red"));
        (2%nat, OutCssApplied (sampleChange "h1" "color" "red"))].
Proof.
  pose proof (@apply_css_message_outcomes sampleCss sampleEngine samplePath
                (sampleChange "h1" "color" "red") 1 viewedSession
                {| filePath := js "/site/index.html"; docContent := js "<head></head>" |}
                eq_refl eq_refl) as Hout.
  destruct (@applyCssChange sampleCss sampleEngine samplePath _ _ _) as [[r|e] w1] eqn:E;
    vm_compute in E; [|discriminate].
  injection E as <- <-. cbn [success] in Hout. destruct Hout as (text & Htext & Hst).
  rewrite Hst. vm_compute in Htext. injection Htext as <-. vm_compute. reflexivity.
Defined.

Lemma ready_is_answered_with_the_current_document_witness :
  sent (@run sampleCss sampleEngine samplePath (initial sampleWorld)
          (Receive 1 (LoadHtml (Some {| filePath := js "/a.html"; docContent := js "<p>" |}))
           :: [Connect 2; Wait 10; Receive 2 Ping] ++ [Receive 2 Ready]))
  = sent (@run sampleCss sampleEngine samplePath (initial sampleWorld)
            (Receive 1 (LoadHtml (Some {| filePath := js "/a.html"; docContent := js "<p>" |}))
             :: [Connect 2; Wait 10; Receive 2 Ping]))
    ++ [(2%nat, OutLoadHtml {| filePath := js "/a.html"; docContent := js "<p>" |})].
Proof.
  apply (@ready_is_answered_with_the_current_document sampleCss sampleEngine samplePath).
  repeat constructor; discriminate.
Defined.

Lemma every_waiter_can_time_out_witness :
  exists ms,
    @isDue 0 (@step sampleCss sampleEngine samplePath sampleSession (Elapse ms)) = true
    /\ promises (@run sampleCss sampleEngine samplePath sampleSession [Elapse ms; Fire 0])
         !! 0%nat = Some Rejected
    /\ (0%nat ∉ selectionResolvers
                  (@run sampleCss sampleEngine samplePath sampleSession [Elapse ms; Fire 0])).
Proof.
  apply (@every_waiter_can_time_out sampleCss sampleEngine samplePath sampleSession 0).
  - exists sampleWorld, [Wait 50; Wait 70]. reflexivity.
  - left.
Defined.

Lemma waiter_waits_for_the_next_selection_witness :
  promises (@run sampleCss sampleEngine samplePath sampleSession
              ([Connect 4; Wait 10; Elapse 60; Fire 0; Receive 4 Ping]
               ++ [Receive 4 (ElementSelected (Some sampleElement))])) !! 1%nat
  = Some (Resolved (Some sampleElement)).
Proof.
  apply (@waiter_waits_for_the_next_selection sampleCss sampleEngine samplePath
           sampleSession 1 [Connect 4; Wait 10; Elapse 60; Fire 0; Receive 4 Ping] 4
           (Some sampleElement)).
  - exists sampleWorld, [Wait 50; Wait 70]. reflexivity.
  - right. left.
  - repeat constructor; discriminate.
Defined.

(** ** The tools of the server *)

Lemma run_snoc `{CssTree} `{RegExpEngine} `{NodePath} (st : session) (es : list event)
    (e : event) :
  run st (es ++ [e]) = step (run st es) e.
Proof. unfold run. now rewrite fold_left_app. Qed.

Section ToolProps.
Context `{CssTree} `{RegExpEngine} `{NodePath} `{JsonText}.

(** The tool and the message handler leave the same session. *)
Lemma apply_css_change_socket (change : CssChange) (ws : nat) (sv : server) (doc : HtmlDoc) :
  currentFilePath sv = Some (filePath doc) ->
  currentHtml (socket sv) = Some doc ->
  socket (apply_css_change change sv).2
  = (handleMessage (ApplyCss (Some change)) ws (socket sv)).2
  /\ (forall e, (apply_css_change change sv).1 = Throw e
                <-> (handleMessage (ApplyCss (Some change)) ws (socket sv)).1 = Throw e).
Proof.
  intros Hpath Hdoc. unfold apply_css_change. cbn [handleMessage]. rewrite Hpath, Hdoc.
  destruct (applyCssChange (filePath doc) change (disk (socket sv))) as [[result|e] w1];
    [|split; [reflexivity | intros e'; split; intros [= ->]; reflexivity]].
  destruct (success result);
    [|split; [reflexivity | intros e'; split; discriminate]].
  destruct (readFileSync (filePath doc) w1) as [[text|e] w2];
    [|split; [reflexivity | intros e'; split; intros [= ->]; reflexivity]].
  split; [|intros e'; split; discriminate].
  cbn [snd socket withSocket]. unfold notifyCssApplied, sendFileContent.
  now destruct change.
Qed.

(** X22. The tool [apply_css_change] and an [apply-css] message of a view do
    the same thing when the file of the tool is the path of the current
    document: they leave the same files, the same document and the same
    messages sent, and one throws exactly when the other does.  The tool
    keeps its file. *)
Theorem apply_css_change_tool_acts_as_message
    (change : CssChange) (ws : nat) (sv : server) (doc : HtmlDoc) :
  currentFilePath sv = Some (filePath doc) ->
  currentHtml (socket sv) = Some doc ->
  socket (apply_css_change change sv).2
  = (handleMessage (ApplyCss (Some change)) ws (socket sv)).2
  /\ (forall e, (apply_css_change change sv).1 = Throw e
                <-> (handleMessage (ApplyCss (Some change)) ws (socket sv)).1 = Throw e)
  /\ currentFilePath (apply_css_change change sv).2 = currentFilePath sv.
Proof.
  intros Hpath Hdoc.
  destruct (apply_css_change_socket change ws sv doc Hpath Hdoc) as [E1 E2].
  split; [exact E1|]. split; [exact E2|].
  unfold apply_css_change. rewrite Hpath.
  destruct (applyCssChange (filePath doc) change (disk (socket sv))) as [[result|e] w1];
    [|now rewrite <- Hpath].
  destruct (success result); [|now rewrite <- Hpath].
  destruct (readFileSync (filePath doc) w1) as [[text|e] w2]; now rewrite <- Hpath.
Qed.

(** X23. [inspect_html] on a path that does not exist answers with an
    error and changes nothing; on a path that exists and cannot be read (a
    directory, a file that may not be read) it throws the error of the read
    and changes nothing.  On a file that can be read it makes the file the
    file of the tools and its text the current document, sends the document
    to every open client, opens one browser window, and writes nothing;
    from then on the tool [apply_css_change] acts on the session as an
    [apply-css] message of a view does. *)
Theorem inspect_html_opens_the_document
    (file_path : jsstring) (watch : option bool) (sv : server) :
  match files (disk (socket sv)) !! resolve1 (resolve1 file_path) with
  | None =>
      inspect_html file_path watch sv
      = (Ret (js "Error: Archivo no encontrado: " ++ file_path), sv)
  | Some en =>
      match readEntry (resolve1 file_path) (Some en) with
      | Throw e => inspect_html file_path watch sv = (Throw e, sv)
      | Ret text =>
          exists reply sv',
            inspect_html file_path watch sv = (Ret reply, sv')
            /\ currentFilePath sv' = Some (resolve1 file_path)
            /\ socket sv'
               = withSent
                   (sent (socket sv)
                    ++ map (fun c => (c, OutLoadHtml {| filePath := resolve1 file_path;
                                                        docContent := text |}))
                         (recipients (socket sv)))
                   (setDocument
                      (Some {| filePath := resolve1 file_path; docContent := text |})
                      (disk (socket sv)) (socket sv))
            /\ browsers sv' = browsers sv ++ [HTTP_URL]
            /\ forall change ws,
                 socket (apply_css_change change sv').2
                 = (handleMessage (ApplyCss (Some change)) ws (socket sv')).2
      end
  end.
Proof.
  unfold inspect_html, existsSync, readFileSync.
  destruct (files (disk (socket sv)) !! resolve1 (resolve1 file_path)) as [en|];
    [|reflexivity].
  destruct (readEntry (resolve1 file_path) (Some en)) as [text|e]; [|reflexivity].
  eexists _, _. split; [reflexivity|]. cbn [currentFilePath socket browsers].
  split; [reflexivity|].
  split; [unfold sendFileContent; now rewrite broadcast_withSent|]. split; [reflexivity|].
  intros change ws.
  match goal with |- socket (apply_css_change _ ?s).2 = _ =>
    refine (proj1 (apply_css_change_socket change ws s
                     {| filePath := resolve1 file_path; docContent := text |}
                     eq_refl _))
  end.
  cbn [socket]. unfold sendFileContent. now rewrite broadcast_withSent.
Qed.

(** X24. [get_selected_element] waits only when a view is connected, nothing
    is selected and [wait] is true.  Without a view it answers with an
    error; with a selection it answers with the selection, also when asked
    to wait; without a selection and without [wait] it says that nothing is
    selected; in these cases the state stays as it is.  When it waits, in a
    state the session can reach, the promise it awaits is resolved by the
    first [element-selected] message that arrives, with the payload of that
    message, whatever else happens before except its own timer, and is
    rejected once its timer is due and fires; the tool then answers with
    [get_selected_element_after] of that outcome, the element as a text or
    the time-out text. *)
Theorem get_selected_element_answers
    (wait : option bool) (timeout : option N) (sv : server) :
  (hasConnectedClients (socket sv) = false ->
   get_selected_element wait timeout sv = (Now NO_VIEW, sv))
  /\ (forall element,
        hasConnectedClients (socket sv) = true ->
        selectedElement (socket sv) = Some element ->
        get_selected_element wait timeout sv = (Now (stringifyElement element), sv))
  /\ (hasConnectedClients (socket sv) = true ->
      selectedElement (socket sv) = None ->
      default false wait = false ->
      get_selected_element wait timeout sv = (Now NO_SELECTION, sv))
  /\ (reachable (socket sv) ->
      hasConnectedClients (socket sv) = true ->
      selectedElement (socket sv) = None ->
      default false wait = true ->
      exists p sv',
        get_selected_element wait timeout sv = (Await p, sv')
        /\ socket sv' = step (socket sv) (Wait (default 30000 timeout))
        /\ p ∈ selectionResolvers (socket sv')
        /\ (forall es ws payload,
              Forall (leavesWaiting p) es ->
              promises (run (socket sv') (es ++ [Receive ws (ElementSelected payload)])) !! p
              = Some (Resolved payload))
        /\ exists ms,
             promises (run (socket sv') [Elapse ms; Fire p]) !! p = Some Rejected).
Proof.
  unfold get_selected_element, getSelectedElement.
  split; [|split; [|split]].
  - now intros ->.
  - now intros element -> ->.
  - now intros -> -> ->.
  - intros Hreach -> Hsel ->. cbn [negb].
    rewrite Hsel.
    destruct (waitForSelection (default 30000 timeout) (socket sv)) as [p st] eqn:Ew.
    exists p, (withSocket st sv). cbn [socket withSocket].
    assert (Est : st = step (socket sv) (Wait (default 30000 timeout)))
      by (cbn [step]; now rewrite Ew).
    assert (Hreach' : reachable st).
    { destruct Hreach as (w & es & Hes). exists w, (es ++ [Wait (default 30000 timeout)]).
      now rewrite run_snoc, <- Hes. }
    destruct (reachable_invariants st Hreach') as (Hinv & Ht).
    assert (Hp : p ∈ selectionResolvers st).
    { unfold waitForSelection in Ew. rewrite Hsel in Ew. injection Ew as <- <-. cbn.
      apply elem_of_app. right. left. }
    split; [reflexivity|]. split; [exact Est|]. split; [exact Hp|]. split.
    + intros es ws payload Hes.
      now destruct (waiter_resolved_by_next_selection st p es ws payload Hinv Hp Hes)
        as (_ & _ & Hres).
    + destruct (waiter_rejected_when_due st p Hinv Ht Hp) as (_ & ms & _ & Hrej & _).
      now exists ms.
Qed.

(** X25. [close_inspector] after [inspect_html] forgets the file and stops
    its watcher, and nothing more: the session keeps its document, so a view
    can still send [apply-css] while the tool [apply_css_change] answers
    that no file is open, and the watcher of any other file inspected
    before keeps running. *)
Theorem close_inspector_stops_only_the_current_watcher
    (file_path : jsstring) (watch : option bool) (sv : server) (text : jsstring) :
  files (disk (socket sv)) !! resolve1 (resolve1 file_path) = Some (File text) ->
  exists reply sv1,
    inspect_html file_path watch sv = (Ret reply, sv1)
    /\ currentFilePath (close_inspector sv1).2 = None
    /\ socket (close_inspector sv1).2 = socket sv1
    /\ (resolve1 (resolve1 file_path) ∉ watchers (close_inspector sv1).2)
    /\ (forall q, q ∈ watchers sv -> q <> resolve1 (resolve1 file_path) ->
          q ∈ watchers (close_inspector sv1).2)
    /\ forall change,
         apply_css_change change (close_inspector sv1).2
         = (Ret (js "Error: No hay archivo abierto. Usa inspect_html primero."),
            (close_inspector sv1).2).
Proof.
  intros Hfile. unfold inspect_html, existsSync, readFileSync. rewrite Hfile.
  unfold readEntry. eexists _, _. split; [reflexivity|].
  cbn [close_inspector currentFilePath socket watchers snd].
  split; [reflexivity|]. split; [reflexivity|]. split; [|split; [|reflexivity]].
  - unfold unwatchFile. intros Hin. apply list_elem_of_filter in Hin as [Hne _].
    now apply Hne.
  - intros q Hq Hne. unfold unwatchFile. apply list_elem_of_filter. split; [exact Hne|].
    destruct (default true watch); [|exact Hq].
    unfold watchFile. case_bool_decide; [exact Hq|]. apply elem_of_app. now left.
Qed.

End ToolProps.

(** The sample element as a text. *)
Definition sampleJson : JsonText :=
  {| stringifyElement := fun e => js "{selector: " ++ elSelector e ++ js "}" |}.

Definition sampleServer : server :=
  {| socket := viewedSession; currentFilePath := Some (js "/site/index.html");
     watchers := []; browsers := [] |}.

Lemma apply_css_change_tool_acts_as_message_witness :
  socket (@apply_css_change sampleCss sampleEngine samplePath
            (sampleChange "h1" "color" "red") sampleServer).2
  = (@handleMessage sampleCss sampleEngine samplePath
       (ApplyCss (Some (sampleChange "h1" "color" "red"))) 1 (socket sampleServer)).2.
Proof.
  apply (@apply_css_change_tool_acts_as_message sampleCss sampleEngine samplePath
           (sampleChange "h1" "color" "red") 1 sampleServer
           {| filePath := js "/site/index.html"; docContent := js "<head></head>" |});
    reflexivity.
Defined.

Definition waitingServer : server :=
  {| socket := @run sampleCss sampleEngine samplePath (initial sampleWorld) [Connect 1];
     currentFilePath := None; watchers := []; browsers := [] |}.

Lemma get_selected_element_answers_witness :
  exists p sv',
    @get_selected_element sampleJson (Some true) None waitingServer = (Await p, sv')
    /\ p ∈ selectionResolvers (socket sv')
    /\ promises (@run sampleCss sampleEngine samplePath (socket sv')
                    ([Connect 2; Receive 2 Ready]
                     ++ [Receive 1 (ElementSelected (Some sampleElement))])) !! p
       = Some (Resolved (Some sampleElement))
    /\ @get_selected_element_after sampleJson (Resolved (Some sampleElement))
       = js "{selector: h1}".
Proof.
  destruct (proj2 (proj2 (proj2 (@get_selected_element_answers sampleCss sampleEngine
                                   samplePath sampleJson (Some true) None waitingServer))))
    as (p & sv' & E & _ & Hp & Hsel & _).
  - exists sampleWorld, [Connect 1]. reflexivity.
  - reflexivity.
  - reflexivity.
  - reflexivity.
  - exists p, sv'. split; [exact E|]. split; [exact Hp|]. split; [|reflexivity].
    apply (Hsel [Connect 2; Receive 2 Ready] 1%nat (Some sampleElement)).
    repeat constructor; discriminate.
Defined.

Lemma close_inspector_stops_only_the_current_watcher_witness :
  exists reply sv1,
    @inspect_html samplePath (js "/site/index.html") None sampleServer
    = (Ret reply, sv1)
    /\ currentFilePath (@close_inspector samplePath sv1).2 = None.
Proof.
  destruct (@close_inspector_stops_only_the_current_watcher sampleCss sampleEngine samplePath
              (js "/site/index.html") None sampleServer
              (js "<head><link rel='stylesheet' href='a.css'><style>h1{color:blue}</style></head>"))
    as (reply & sv1 & E & Hnone & _).
  - vm_compute. reflexivity.
  - exists reply, sv1. split; assumption.
Defined.
